(** * Face tracking and line-crossing counter of [script.js]

    A shallow embedding of the frame-to-frame association engine of
    [detectFaces] (script.js, lines 132-308) and of the coordinate helper
    [getFlippedBoxCenter] (lines 58-62), followed by the properties the
    specification states about them.

    Number model.  JavaScript numbers that carry pixel coordinates are taken
    as exact rationals ([Q]): [width / 2] is then exact and the comparisons
    [<] are the rational ones.  Counters, identifiers and [missedFrames] only
    ever hold non-negative integers and are taken as [nat] (the loss of
    integer precision of a double above 2^53 is outside the model).  The
    rounding of doubles is outside the model too: on integer pixel
    coordinates the two agree, and the properties below compare centres by
    the expressions the code itself evaluates, never by a rearranged one.

    Map model.  A JavaScript [Map] iterates in insertion order and [set]
    on a present key overwrites in place, so the tracked map is an
    association list with exactly that [set].

    Around the engine, the file also embeds the guard and the video-time
    gate of the animation-frame callback (lines 132-143), the status box of
    [updateStatus] and [hideStatus] (lines 45-55), and the start-up sequence
    of [createFaceDetector] and [startWebcam] (lines 66-129), with what the
    browser, the camera and the detector deliver taken as input. *)

From Stdlib Require Import QArith Qabs List Arith Lia Bool.
From Stdlib Require Import Sorting.Sorted Permutation.
From Stdlib Require Strings.String.
Import String.StringSyntax.
Import ListNotations.

Local Open Scope Q_scope.
Delimit Scope string_scope with string.

(** ** Constants (lines 9-11) *)

Definition PROXIMITY_THRESHOLD : Q := 100.
Definition CENTER_LINE_X_THRESHOLD : Q := 0.5.
Definition MAX_MISS_FRAMES : nat := 5.

(** ** Data *)

(** The bounding box of a detection, as the detector delivers it. *)
Record BoundingBox : Type := mkBox {
  originX : Q;
  originY : Q;
  width : Q;
  height : Q
}.

(** A detection; the engine reads nothing but its [boundingBox]. *)
Module Det.
Record t : Type := mk { boundingBox : BoundingBox }.
End Det.

(** The strings ['left'] and ['right'] of [lastSide]. *)
Inductive Side : Type := Left | Right.

Definition side_eqb (a b : Side) : bool :=
  match a, b with
  | Left, Left | Right, Right => true
  | _, _ => false
  end.

(** The value stored per track (doc comment at lines 30-40, object literal
    at lines 250-258). *)
Record FaceState : Type := mkFaceState {
  id : nat;
  prevCenterFlippedX : Q;
  lastSide : Side;
  isEnterCounted : bool;
  isExitCounted : bool;
  missedFrames : nat;
  boundingBox : BoundingBox
}.

(** [Map<number, FaceState>] in insertion order. *)
Definition JsMap : Type := list (nat * FaceState).

(** [m.set(k, v)]: overwrite in place when [k] is present, append otherwise. *)
Fixpoint map_set (k : nat) (v : FaceState) (m : JsMap) : JsMap :=
  match m with
  | [] => [(k, v)]
  | (k', v') :: m' =>
      if Nat.eqb k k' then (k, v) :: m' else (k', v') :: map_set k v m'
  end.

(** [m.get(k)]. *)
Fixpoint map_get (k : nat) (m : JsMap) : option FaceState :=
  match m with
  | [] => None
  | (k', v') :: m' => if Nat.eqb k k' then Some v' else map_get k m'
  end.

Definition keys (m : JsMap) : list nat := map fst m.
Definition values (m : JsMap) : list FaceState := map snd m.

(** The module-level state of the script (lines 27-28 and 41-42). *)
Record Engine : Type := mkEngine {
  trackedFaceStates : JsMap;
  nextTrackingId : nat;
  enterCount : nat;
  exitCount : nat
}.

(** What one call of [detectFaces] reads from its collaborators:
    [detectionResult.detections] (the empty array when the video time has
    not advanced, lines 139-143) and [canvasElement.width]. *)
Record Frame : Type := mkFrame {
  detections : list Det.t;
  canvasWidth : Q
}.

(** State at page load. *)
Definition init : Engine :=
  {| trackedFaceStates := []; nextTrackingId := 0%nat;
     enterCount := 0%nat; exitCount := 0%nat |}.

(** ** The coordinate helper (lines 58-62) *)

Definition getFlippedBoxCenter (b : BoundingBox) (canvasWidth : Q) : Q :=
  let flippedX := canvasWidth - originX b - width b in
  flippedX + width b / 2.

(** ** Comparisons *)

(** [x < y] on numbers. *)
Definition Qltb (x y : Q) : bool :=
  match x ?= y with
  | Lt => true
  | _ => false
  end.

(** [c < centerLineX ? 'left' : 'right'] (lines 206 and 248). *)
Definition sideOf (c centerLineX : Q) : Side :=
  if Qltb c centerLineX then Left else Right.

(** ** Matching (lines 174-189)

    [matchFound], [bestMatchIndex] and [minDistance] are assigned together
    (lines 185-187) and nowhere else, so the three variables are carried as
    one option: [None] is the initial [(false, -1, Infinity)] and
    [Some (i, d)] is [(true, i, d)]. *)

Definition belowMin (distance : Q) (best : option (nat * Q)) : bool :=
  match best with
  | None => true
  | Some (_, minDistance) => Qltb distance minDistance
  end.

Fixpoint scanDetections (canvasWidth prev : Q) (ds : list Det.t) (i : nat)
    (best : option (nat * Q)) : option (nat * Q) :=
  match ds with
  | [] => best
  | detection :: rest =>
      let currentCenterFlippedX :=
        getFlippedBoxCenter (Det.boundingBox detection) canvasWidth in
      let distance := Qabs (currentCenterFlippedX - prev) in
      let best' :=
        if Qltb distance PROXIMITY_THRESHOLD && belowMin distance best
        then Some (i, distance) else best in
      scanDetections canvasWidth prev rest (S i) best'
  end.

Definition findBestMatch (canvasWidth : Q) (oldState : FaceState)
    (unmatched : list Det.t) : option (nat * Q) :=
  scanDetections canvasWidth (prevCenterFlippedX oldState) unmatched 0%nat None.

(** [l.splice(i, 1)[0]] together with [l] afterwards.  Out of range the
    spliced array is empty, its element [0] is [undefined], and the property
    access that follows at line 194 raises: that is [None]. *)
Fixpoint splice1 {A : Type} (i : nat) (l : list A) {struct l}
    : option (A * list A) :=
  match l with
  | [] => None
  | x :: l' =>
      match i with
      | O => Some (x, l')
      | S i' =>
          match splice1 i' l' with
          | Some (y, r) => Some (y, x :: r)
          | None => None
          end
      end
  end.

(** ** Matched update and counting (lines 195-222) *)

Definition updateMatched (oldState : FaceState) (newBoundingBox : BoundingBox)
    (canvasWidth centerLineX : Q) (enterCount exitCount : nat)
    : FaceState * nat * nat :=
  let currentCenterFlippedX := getFlippedBoxCenter newBoundingBox canvasWidth in
  let currentState :=
    {| id := id oldState;
       prevCenterFlippedX := currentCenterFlippedX;
       lastSide := lastSide oldState;
       isEnterCounted := isEnterCounted oldState;
       isExitCounted := isExitCounted oldState;
       missedFrames := 0;
       boundingBox := newBoundingBox |} in
  let currentSide := sideOf currentCenterFlippedX centerLineX in
  if negb (side_eqb currentSide (lastSide currentState)) then
    if side_eqb (lastSide currentState) Left && side_eqb currentSide Right
       && negb (isEnterCounted currentState)
    then
      ({| id := id currentState;
          prevCenterFlippedX := prevCenterFlippedX currentState;
          lastSide := currentSide;
          isEnterCounted := true;
          isExitCounted := isExitCounted currentState;
          missedFrames := missedFrames currentState;
          boundingBox := boundingBox currentState |},
       S enterCount, exitCount)
    else if side_eqb (lastSide currentState) Right && side_eqb currentSide Left
            && negb (isExitCounted currentState)
    then
      ({| id := id currentState;
          prevCenterFlippedX := prevCenterFlippedX currentState;
          lastSide := currentSide;
          isEnterCounted := isEnterCounted currentState;
          isExitCounted := true;
          missedFrames := missedFrames currentState;
          boundingBox := boundingBox currentState |},
       enterCount, S exitCount)
    else
      ({| id := id currentState;
          prevCenterFlippedX := prevCenterFlippedX currentState;
          lastSide := currentSide;
          isEnterCounted := isEnterCounted currentState;
          isExitCounted := isExitCounted currentState;
          missedFrames := missedFrames currentState;
          boundingBox := boundingBox currentState |},
       enterCount, exitCount)
  else (currentState, enterCount, exitCount).

(** The ghosted copy of lines 232-235. *)
Definition withMissedFrames (oldState : FaceState) (newMissedFrames : nat)
    : FaceState :=
  {| id := id oldState;
     prevCenterFlippedX := prevCenterFlippedX oldState;
     lastSide := lastSide oldState;
     isEnterCounted := isEnterCounted oldState;
     isExitCounted := isExitCounted oldState;
     missedFrames := newMissedFrames;
     boundingBox := boundingBox oldState |}.

(** ** The loop over the old tracks (lines 173-240) *)

(** The variables the loop body reads and writes. *)
Record Pass : Type := mkPass {
  unmatchedDetections : list Det.t;
  NEXT_FRAME_TRACKED_FACES : JsMap;
  curEnterCount : nat;
  curExitCount : nat
}.

(** One iteration of the loop at line 173. *)
Definition processTrack (canvasWidth centerLineX : Q) (p : Pass)
    (entry : nat * FaceState) : option Pass :=
  let (k, oldState) := entry in
  match findBestMatch canvasWidth oldState (unmatchedDetections p) with
  | Some (bestMatchIndex, _) =>
      match splice1 bestMatchIndex (unmatchedDetections p) with
      | None => None
      | Some (matchingDetection, rest) =>
          let newBoundingBox := Det.boundingBox matchingDetection in
          let '(currentState, ec, xc) :=
            updateMatched oldState newBoundingBox canvasWidth centerLineX
              (curEnterCount p) (curExitCount p) in
          Some {| unmatchedDetections := rest;
                  NEXT_FRAME_TRACKED_FACES :=
                    map_set k currentState (NEXT_FRAME_TRACKED_FACES p);
                  curEnterCount := ec;
                  curExitCount := xc |}
      end
  | None =>
      let newMissedFrames := (missedFrames oldState + 1)%nat in
      if (newMissedFrames <=? MAX_MISS_FRAMES)%nat then
        Some {| unmatchedDetections := unmatchedDetections p;
                NEXT_FRAME_TRACKED_FACES :=
                  map_set k (withMissedFrames oldState newMissedFrames)
                    (NEXT_FRAME_TRACKED_FACES p);
                curEnterCount := curEnterCount p;
                curExitCount := curExitCount p |}
      else Some p
  end.

Fixpoint trackLoop (canvasWidth centerLineX : Q) (entries : JsMap) (p : Pass)
    : option Pass :=
  match entries with
  | [] => Some p
  | entry :: rest =>
      match processTrack canvasWidth centerLineX p entry with
      | None => None
      | Some p' => trackLoop canvasWidth centerLineX rest p'
      end
  end.

(** ** The loop over the detections left (lines 243-261) *)

Definition newState (canvasWidth centerLineX : Q) (foundId : nat)
    (detection : Det.t) : FaceState :=
  let boundingBox := Det.boundingBox detection in
  let currentCenterFlippedX := getFlippedBoxCenter boundingBox canvasWidth in
  let currentSide := sideOf currentCenterFlippedX centerLineX in
  {| id := foundId;
     prevCenterFlippedX := currentCenterFlippedX;
     lastSide := currentSide;
     isEnterCounted := false;
     isExitCounted := false;
     missedFrames := 0;
     boundingBox := boundingBox |}.

Fixpoint spawnLoop (canvasWidth centerLineX : Q) (ds : list Det.t)
    (next : JsMap) (nextTrackingId : nat) : JsMap * nat :=
  match ds with
  | [] => (next, nextTrackingId)
  | detection :: rest =>
      let foundId := nextTrackingId in
      let nextTrackingId' := S nextTrackingId in
      spawnLoop canvasWidth centerLineX rest
        (map_set foundId (newState canvasWidth centerLineX foundId detection) next)
        nextTrackingId'
  end.

(** ** One call of [detectFaces] (lines 145-264) *)

(** [centerLineX] of line 145. *)
Definition centerLine (f : Frame) : Q :=
  canvasWidth f * CENTER_LINE_X_THRESHOLD.

(** The loop variables as lines 149-150 set them up. *)
Definition passStart (e : Engine) (f : Frame) : Pass :=
  {| unmatchedDetections := detections f;
     NEXT_FRAME_TRACKED_FACES := [];
     curEnterCount := enterCount e;
     curExitCount := exitCount e |}.

Definition detectFaces (e : Engine) (f : Frame) : option Engine :=
  match trackLoop (canvasWidth f) (centerLine f) (trackedFaceStates e)
          (passStart e f) with
  | None => None
  | Some p =>
      let (next, n) :=
        spawnLoop (canvasWidth f) (centerLine f) (unmatchedDetections p)
          (NEXT_FRAME_TRACKED_FACES p) (nextTrackingId e) in
      Some {| trackedFaceStates := next;
              nextTrackingId := n;
              enterCount := curEnterCount p;
              exitCount := curExitCount p |}
  end.

(** [actualDetectionsCount] of the drawing loop (lines 267-281). *)
Definition actualDetectionsCount (e : Engine) : nat :=
  length (filter (fun state => Nat.eqb (missedFrames state) 0)
            (values (trackedFaceStates e))).

(** Successive calls, one per animation frame. *)
Fixpoint run (e : Engine) (fs : list Frame) : option Engine :=
  match fs with
  | [] => Some e
  | f :: rest =>
      match detectFaces e f with
      | None => None
      | Some e' => run e' rest
      end
  end.

(** ** Observers used to state the properties *)

(** Distance of a detection to a stored centre, as line 182 computes it. *)
Definition distanceTo (canvasWidth prev : Q) (d : Det.t) : Q :=
  Qabs (getFlippedBoxCenter (Det.boundingBox d) canvasWidth - prev).

(** The running candidate of the scan is within the threshold. *)
Definition bestBelowThreshold (best : option (nat * Q)) : Prop :=
  match best with
  | None => True
  | Some (_, m) => m < PROXIMITY_THRESHOLD
  end.

(** What a scan of [ds] that starts at index [i] with candidate [best]
    returns: either the candidate it was given, which nothing in [ds] beats,
    or the first detection of [ds] at the least distance. *)
Definition scanResult (canvasWidth prev : Q) (ds : list Det.t) (i : nat)
    (best r : option (nat * Q)) : Prop :=
  let dist := distanceTo canvasWidth prev in
  match r with
  | None =>
      best = None /\ Forall (fun d => PROXIMITY_THRESHOLD <= dist d) ds
  | Some (j, m) =>
      m < PROXIMITY_THRESHOLD /\
      ((best = Some (j, m) /\ Forall (fun d => m <= dist d) ds) \/
       (exists d, (i <= j)%nat /\ nth_error ds (j - i) = Some d /\
          m = dist d /\ belowMin m best = true /\
          Forall (fun d' => m <= dist d') ds /\
          Forall (fun d' => m < dist d') (firstn (j - i) ds)))
  end.

(** The loop variables at the moment the loop of line 173 reaches key [k],
    with the state stored under [k]. *)
Fixpoint passBefore (canvasWidth centerLineX : Q) (entries : JsMap) (p : Pass)
    (k : nat) : option (Pass * FaceState) :=
  match entries with
  | [] => None
  | (k', oldState) :: rest =>
      if Nat.eqb k k' then Some (p, oldState)
      else
        match processTrack canvasWidth centerLineX p (k', oldState) with
        | None => None
        | Some p' => passBefore canvasWidth centerLineX rest p' k
        end
  end.

Definition passAt (e : Engine) (f : Frame) (k : nat)
    : option (Pass * FaceState) :=
  passBefore (canvasWidth f) (centerLine f) (trackedFaceStates e)
    (passStart e f) k.

(** What an iteration that starts from the loop variables [p] stores for a
    track whose old state is [oldState]: the matched update, the ghosted
    copy, or nothing. *)
Definition outcome (canvasWidth centerLineX : Q) (p : Pass)
    (oldState : FaceState) : option FaceState :=
  match findBestMatch canvasWidth oldState (unmatchedDetections p) with
  | Some (i, _) =>
      match nth_error (unmatchedDetections p) i with
      | Some d =>
          Some (fst (fst (updateMatched oldState (Det.boundingBox d) canvasWidth
                            centerLineX (curEnterCount p) (curExitCount p))))
      | None => None
      end
  | None =>
      if (missedFrames oldState + 1 <=? MAX_MISS_FRAMES)%nat
      then Some (withMissedFrames oldState (missedFrames oldState + 1))
      else None
  end.

(** Track [k] exists and finds no detection in frame [f]. *)
Definition missesFrame (e : Engine) (f : Frame) (k : nat) : bool :=
  match passAt e f k with
  | Some (p, oldState) =>
      match findBestMatch (canvasWidth f) oldState (unmatchedDetections p) with
      | None => true
      | Some _ => false
      end
  | None => false
  end.

(** Track [k] misses every frame of [fs] in turn. *)
Fixpoint missesAll (e : Engine) (fs : list Frame) (k : nat) : bool :=
  match fs with
  | [] => true
  | f :: rest =>
      missesFrame e f k &&
      match detectFaces e f with
      | Some e' => missesAll e' rest k
      | None => false
      end
  end.

(** The flag [proj] ([isEnterCounted] or [isExitCounted]) of track [k],
    [false] when there is no such track. *)
Definition flagOf (proj : FaceState -> bool) (m : JsMap) (k : nat) : bool :=
  match map_get k m with
  | Some st => proj st
  | None => false
  end.

(** [1] for a flag that is set. *)
Definition bit (b : bool) : nat := if b then 1 else 0.

(** The tracks whose flag is set after a call and was not set before it (or
    that were not there before it). *)
Definition flips (proj : FaceState -> bool) (e e' : Engine) : list nat :=
  filter (fun k => flagOf proj (trackedFaceStates e') k
                   && negb (flagOf proj (trackedFaceStates e) k))
    (keys (trackedFaceStates e')).

(** All such events over a sequence of calls, oldest first. *)
Fixpoint flipEvents (proj : FaceState -> bool) (e : Engine)
    (fs : list Frame) : list nat :=
  match fs with
  | [] => []
  | f :: rest =>
      match detectFaces e f with
      | Some e' => flips proj e e' ++ flipEvents proj e' rest
      | None => []
      end
  end.

(** Track [k] can no longer flip its flag: its id has been given out, and
    the track is gone or has the flag set. *)
Definition settled (proj : FaceState -> bool) (e : Engine) (k : nat) : Prop :=
  (k < nextTrackingId e)%nat /\
  (map_get k (trackedFaceStates e) = None \/
   flagOf proj (trackedFaceStates e) k = true).

(** The tracks a detection-free frame leaves behind. *)
Definition aged (m : JsMap) : JsMap :=
  map (fun entry => (fst entry,
                     withMissedFrames (snd entry) (missedFrames (snd entry) + 1)))
    (filter (fun entry => (missedFrames (snd entry) + 1 <=? MAX_MISS_FRAMES)%nat)
       m).

(** The entries the loop of line 243 adds for [ds], first id [n]. *)
Fixpoint spawned (canvasWidth centerLineX : Q) (ds : list Det.t) (n : nat)
    : JsMap :=
  match ds with
  | [] => []
  | d :: rest =>
      (n, newState canvasWidth centerLineX n d)
      :: spawned canvasWidth centerLineX rest (S n)
  end.

(** Boxes held by the tracks that were backed by a detection this frame. *)
Definition activeBoxes (m : JsMap) : list BoundingBox :=
  map boundingBox
    (filter (fun state => Nat.eqb (missedFrames state) 0) (values m)).

(** ** Sample frames

    A 640 pixel wide canvas; [det x w] is a square face of side [w] whose
    left edge is at [x] in detector coordinates. *)

Definition box (x w : Q) : BoundingBox :=
  {| originX := x; originY := 0; width := w; height := w |}.

Definition det (x w : Q) : Det.t := Det.mk (box x w).

(** Two faces, displayed at 520 (right of the line at 320) and at 290
    (left of it). *)
Definition twoFaces : Frame := mkFrame [det 100 40; det 330 40] 640.

(** The left face has moved to 350; the right face is not detected. *)
Definition leftCrosses : Frame := mkFrame [det 270 40] 640.

(** The same face back at 300. *)
Definition leftReturns : Frame := mkFrame [det 320 40] 640.

(** The right face again, and a third face displayed at 60. *)
Definition newcomer : Frame := mkFrame [det 100 40; det 560 40] 640.

(** The right face again, and two more faces, displayed at 60 and at 600. *)
Definition twoNewcomers : Frame :=
  mkFrame [det 100 40; det 560 40; det 20 40] 640.

(** One face, displayed at 520. *)
Definition oneFace : Frame := mkFrame [det 100 40] 640.

(** No face detected. *)
Definition noFace : Frame := mkFrame [] 640.

(** ** Invariant of the reachable states *)

(** Keys ascend strictly in insertion order, lie below the id allocator, and
    each stored state carries its own key in [id]. *)
Record wf (e : Engine) : Prop := mkWf {
  wf_sorted : StronglySorted lt (keys (trackedFaceStates e));
  wf_bound : Forall (fun k => (k < nextTrackingId e)%nat)
               (keys (trackedFaceStates e));
  wf_id : Forall (fun entry => id (snd entry) = fst entry)
            (trackedFaceStates e)
}.

(** The same, part-way through the loop of line 173: [rest] is still to be
    visited and the id allocator stands at [n]. *)
Definition keysInv (n : nat) (rest : JsMap) (p : Pass) : Prop :=
  StronglySorted lt (keys (NEXT_FRAME_TRACKED_FACES p) ++ keys rest) /\
  Forall (fun k => (k < n)%nat) (keys (NEXT_FRAME_TRACKED_FACES p) ++ keys rest) /\
  Forall (fun entry => id (snd entry) = fst entry)
    (NEXT_FRAME_TRACKED_FACES p ++ rest).

(** One iteration of the loop of line 173 on a key not yet in the new map,
    by the branch taken. *)
Inductive TrackStep (canvasWidth centerLineX : Q)
    : Pass -> nat * FaceState -> Pass -> Prop :=
| step_matched : forall p k oldState i m d rest currentState ec xc,
    findBestMatch canvasWidth oldState (unmatchedDetections p) = Some (i, m) ->
    splice1 i (unmatchedDetections p) = Some (d, rest) ->
    updateMatched oldState (Det.boundingBox d) canvasWidth centerLineX
      (curEnterCount p) (curExitCount p) = (currentState, ec, xc) ->
    TrackStep canvasWidth centerLineX p (k, oldState)
      {| unmatchedDetections := rest;
         NEXT_FRAME_TRACKED_FACES :=
           NEXT_FRAME_TRACKED_FACES p ++ [(k, currentState)];
         curEnterCount := ec;
         curExitCount := xc |}
| step_ghosted : forall p k oldState,
    findBestMatch canvasWidth oldState (unmatchedDetections p) = None ->
    (missedFrames oldState + 1 <= MAX_MISS_FRAMES)%nat ->
    TrackStep canvasWidth centerLineX p (k, oldState)
      {| unmatchedDetections := unmatchedDetections p;
         NEXT_FRAME_TRACKED_FACES :=
           NEXT_FRAME_TRACKED_FACES p
           ++ [(k, withMissedFrames oldState (missedFrames oldState + 1))];
         curEnterCount := curEnterCount p;
         curExitCount := curExitCount p |}
| step_dropped : forall p k oldState,
    findBestMatch canvasWidth oldState (unmatchedDetections p) = None ->
    (MAX_MISS_FRAMES < missedFrames oldState + 1)%nat ->
    TrackStep canvasWidth centerLineX p (k, oldState) p.

(** ** The animation-frame callback (lines 132-143 around the engine)

    [detectFaces] as [requestAnimationFrame] calls it: the guard of lines
    133-136, the gate on the video time of lines 139-143, then the pass over
    the tracks modelled above.  What the callback reads from the video
    element and from the detector is its input. *)

(** The module-level state the callback reads and writes. *)
Record Page : Type := mkPage {
  engine : Engine;
  faceDetector : bool;  (* [faceDetector] is not [null] *)
  lastVideoTime : Q
}.

(** One animation frame: [webcamElement.videoWidth], [.currentTime], what
    [faceDetector.detectForVideo] would return, and [canvasElement.width]. *)
Record Tick : Type := mkTick {
  videoWidth : Q;
  currentTime : Q;
  detectForVideo : list Det.t;
  tickCanvasWidth : Q
}.

(** Lines 25-28 and 41-42. *)
Definition pageLoad : Page :=
  {| engine := init; faceDetector := false; lastVideoTime := -1 |}.

Definition animationFrame (s : Page) (t : Tick) : option Page :=
  if negb (faceDetector s) || Qeq_bool (videoWidth t) 0 then Some s
  else
    let fresh := negb (Qeq_bool (currentTime t) (lastVideoTime s)) in
    let detectionResult := if fresh then detectForVideo t else [] in
    let lastVideoTime' := if fresh then currentTime t else lastVideoTime s in
    match detectFaces (engine s) (mkFrame detectionResult (tickCanvasWidth t))
    with
    | None => None
    | Some e' =>
        Some {| engine := e';
                faceDetector := faceDetector s;
                lastVideoTime := lastVideoTime' |}
    end.

(** Successive animation frames. *)
Fixpoint animationFrames (s : Page) (ts : list Tick) : option Page :=
  match ts with
  | [] => Some s
  | t :: rest =>
      match animationFrame s t with
      | None => None
      | Some s' => animationFrames s' rest
      end
  end.

(** The frame the engine is given on a tick that passes the guard. *)
Definition frameOf (s : Page) (t : Tick) : Frame :=
  mkFrame
    (if negb (Qeq_bool (currentTime t) (lastVideoTime s))
     then detectForVideo t else [])
    (tickCanvasWidth t).

(** The frames the engine is given over a sequence of ticks: none for a
    tick the guard turns away, and otherwise the frame of the tick, with the
    video time remembered as line 142 does. *)
Fixpoint framesOf (s : Page) (ts : list Tick) : list Frame :=
  match ts with
  | [] => []
  | t :: rest =>
      if negb (faceDetector s) || Qeq_bool (videoWidth t) 0
      then framesOf s rest
      else
        frameOf s t
        :: framesOf
             {| engine := engine s;
                faceDetector := faceDetector s;
                lastVideoTime :=
                  if negb (Qeq_bool (currentTime t) (lastVideoTime s))
                  then currentTime t else lastVideoTime s |}
             rest
  end.

(** A tick on which the video shows the frame it showed at the last
    detection, with the video element ready. *)
Definition stalled (s : Page) (t : Tick) : Prop :=
  ~ videoWidth t == 0 /\ currentTime t == lastVideoTime s.

(** ** The status box (lines 45-55) *)

(** What [updateStatus] and [hideStatus] touch: [statusText.textContent],
    [statusMessage.style.opacity], [statusMessage.classList] and the
    [display] style of the spinner. *)
Record StatusBox : Type := mkStatusBox {
  textContent : String.string;
  opacity : String.string;
  classList : list String.string;
  spinnerDisplay : String.string
}.

(** [classList.toggle(token, force)]: with [force] the token is added when
    absent, without it the token is removed. *)
Definition classToggle (token : String.string) (force : bool)
    (l : list String.string) : list String.string :=
  if force then
    if existsb (String.eqb token) l then l else l ++ [token]
  else filter (fun c => negb (String.eqb token c)) l.

Definition updateStatus (text : String.string) (isError : bool)
    (box : StatusBox) : StatusBox :=
  {| textContent := text;
     opacity := "1"%string;
     classList :=
       classToggle "bg-gray-900"%string (negb isError)
         (classToggle "bg-red-700"%string isError (classList box));
     spinnerDisplay := if isError then "none"%string else "block"%string |}.

Definition hideStatus (box : StatusBox) : StatusBox :=
  {| textContent := textContent box;
     opacity := "0"%string;
     classList := classList box;
     spinnerDisplay := spinnerDisplay box |}.

(** ** Start-up (lines 66-129)

    The two [async] functions, with the outcome of every awaited promise
    and of the events they wait for given by the browser. *)

(** How an awaited promise settles. *)
Inductive Settled : Type :=
| Fulfilled
| Rejected (message : String.string).

Record Browser : Type := mkBrowser {
  forVisionTasks : Settled;       (* [FilesetResolver.forVisionTasks] *)
  createFromOptions : Settled;    (* [FaceDetector.createFromOptions] *)
  hasGetUserMedia : bool;         (* [navigator.mediaDevices.getUserMedia] exists *)
  getUserMedia : Settled;
  loadedmetadata : option (Q * Q) (* video width and height, if the event fires *)
}.

(** What start-up leaves behind. *)
Record Document : Type := mkDocument {
  statusBox : StatusBox;
  detectorLoaded : bool;          (* [faceDetector] has been assigned *)
  canvasSize : option (Q * Q);    (* [canvasElement.width] and [.height], once set *)
  loopRequested : bool            (* [requestAnimationFrame(detectFaces)] was called *)
}.

(** The handler of [onloadedmetadata] (lines 106-123). *)
Definition onloadedmetadata (video : Q * Q) (doc : Document) : Document :=
  {| statusBox := hideStatus (statusBox doc);
     detectorLoaded := detectorLoaded doc;
     canvasSize := Some video;
     loopRequested := true |}.

Definition withStatus (doc : Document) (box : StatusBox) : Document :=
  {| statusBox := box;
     detectorLoaded := detectorLoaded doc;
     canvasSize := canvasSize doc;
     loopRequested := loopRequested doc |}.

(** [startWebcam] (lines 95-129). *)
Definition startWebcam (b : Browser) (doc : Document) : Document :=
  if negb (hasGetUserMedia b) then
    withStatus doc
      (updateStatus "Browser does not support camera access."%string true
         (statusBox doc))
  else
    match getUserMedia b with
    | Fulfilled =>
        match loadedmetadata b with
        | Some video => onloadedmetadata video doc
        | None => doc
        end
    | Rejected _ =>
        withStatus doc
          (updateStatus
             "Webcam Error: Please ensure camera permissions are granted."%string
             true (statusBox doc))
    end.

(** The message of the [catch] at lines 88-91. *)
Definition initializationError (message : String.string) : String.string :=
  String.append "Initialization Error: "%string
    (String.append message ". Check console for details."%string).

(** [createFaceDetector] (lines 66-92). *)
Definition createFaceDetector (b : Browser) (doc : Document) : Document :=
  let doc1 :=
    withStatus doc
      (updateStatus "Loading required libraries..."%string false
         (statusBox doc)) in
  match forVisionTasks b with
  | Rejected message =>
      withStatus doc1
        (updateStatus (initializationError message) true (statusBox doc1))
  | Fulfilled =>
      let doc2 :=
        withStatus doc1
          (updateStatus "Loading face detection model..."%string false
             (statusBox doc1)) in
      match createFromOptions b with
      | Rejected message =>
          withStatus doc2
            (updateStatus (initializationError message) true (statusBox doc2))
      | Fulfilled =>
          let doc3 :=
            {| statusBox :=
                 updateStatus "Model loaded. Starting webcam..."%string false
                   (statusBox doc2);
               detectorLoaded := true;
               canvasSize := canvasSize doc2;
               loopRequested := loopRequested doc2 |} in
          startWebcam b doc3
      end
  end.

(** The document before the script runs: some status box, no detector, the
    canvas not yet sized, no animation frame requested. *)
Definition documentAtLoad (box : StatusBox) : Document :=
  {| statusBox := box;
     detectorLoaded := false;
     canvasSize := None;
     loopRequested := false |}.

(** A browser in which every step of start-up succeeds. *)
Definition goodBrowser : Browser :=
  {| forVisionTasks := Fulfilled;
     createFromOptions := Fulfilled;
     hasGetUserMedia := true;
     getUserMedia := Fulfilled;
     loadedmetadata := Some (640, 480) |}.

(** A browser in which the user denies the camera. *)
Definition cameraDenied : Browser :=
  {| forVisionTasks := Fulfilled;
     createFromOptions := Fulfilled;
     hasGetUserMedia := true;
     getUserMedia := Rejected "Permission denied"%string;
     loadedmetadata := None |}.

(** A status box as a page might ship it. *)
Definition someBox : StatusBox :=
  {| textContent := "Initializing..."%string;
     opacity := "1"%string;
     classList := ["status"; "bg-gray-900"]%string;
     spinnerDisplay := "block"%string |}.

(** * Properties *)

(** Rational arithmetic stays folded under [simpl]. *)
#[local] Arguments Qplus : simpl never.
#[local] Arguments Qminus : simpl never.
#[local] Arguments Qmult : simpl never.
#[local] Arguments Qdiv : simpl never.
#[local] Arguments Qopp : simpl never.
#[local] Arguments Qinv : simpl never.
#[local] Arguments Qabs : simpl never.
#[local] Arguments Qcompare : simpl never.
#[local] Arguments getFlippedBoxCenter : simpl never.
#[local] Arguments Qltb : simpl never.
#[local] Arguments PROXIMITY_THRESHOLD : simpl never.
#[local] Arguments MAX_MISS_FRAMES : simpl never.
#[local] Arguments processTrack : simpl never.
#[local] Arguments updateMatched : simpl never.
#[local] Arguments findBestMatch : simpl never.

(** ** Comparisons *)

Lemma Qltb_true (x y : Q) : Qltb x y = true <-> x < y.
Proof.
  unfold Qltb. rewrite Qlt_alt.
  destruct (x ?= y); split; intro H; try reflexivity; discriminate H.
Qed.

Lemma Qltb_false (x y : Q) : Qltb x y = false <-> y <= x.
Proof.
  split; intro H.
  - apply Qnot_lt_le. intro L. apply Qltb_true in L. congruence.
  - destruct (Qltb x y) eqn:E; [|reflexivity].
    apply Qltb_true in E. exfalso. exact (Qlt_not_le _ _ E H).
Qed.

Lemma sideOf_Left (c line : Q) : sideOf c line = Left <-> c < line.
Proof.
  unfold sideOf. destruct (Qltb c line) eqn:E.
  - apply Qltb_true in E. tauto.
  - apply Qltb_false in E. split; [discriminate|].
    intro L. exfalso. exact (Qlt_not_le _ _ L E).
Qed.

Lemma sideOf_Right (c line : Q) : sideOf c line = Right <-> line <= c.
Proof.
  unfold sideOf. destruct (Qltb c line) eqn:E.
  - apply Qltb_true in E. split; [discriminate|].
    intro L. exfalso. exact (Qlt_not_le _ _ E L).
  - apply Qltb_false in E. tauto.
Qed.

Lemma side_eqb_eq (a b : Side) : side_eqb a b = true <-> a = b.
Proof. destruct a, b; simpl; split; congruence. Qed.

(** ** [splice] *)

Lemma splice1_nth {A : Type} (l : list A) : forall i x r,
  splice1 i l = Some (x, r) ->
  nth_error l i = Some x /\ r = firstn i l ++ skipn (S i) l.
Proof.
  induction l as [|a l IH]; intros i x r H; [discriminate H|].
  destruct i as [|i]; simpl in H.
  - inversion H; subst. split; reflexivity.
  - destruct (splice1 i l) as [[y r']|] eqn:E; [|discriminate H].
    inversion H; subst. destruct (IH _ _ _ E) as [Hn Hr].
    split; [exact Hn|]. rewrite Hr at 1. reflexivity.
Qed.

Lemma splice1_in_range {A : Type} (l : list A) : forall i,
  (i < length l)%nat -> exists x r, splice1 i l = Some (x, r).
Proof.
  induction l as [|a l IH]; intros i H; simpl in H; [lia|].
  destruct i as [|i]; simpl.
  - now exists a, l.
  - destruct (IH i) as (x & r & E); [lia|]. rewrite E. now exists x, (a :: r).
Qed.

Lemma splice1_out_of_range {A : Type} (l : list A) : forall i,
  (length l <= i)%nat -> splice1 i l = None.
Proof.
  induction l as [|a l IH]; intros i H; [reflexivity|].
  destruct i as [|i]; simpl in *; [lia|]. rewrite IH by lia. reflexivity.
Qed.

Lemma splice1_perm {A : Type} (l : list A) : forall i x r,
  splice1 i l = Some (x, r) -> Permutation l (x :: r).
Proof.
  induction l as [|a l IH]; intros i x r H; [discriminate H|].
  destruct i as [|i]; simpl in H.
  - inversion H; subst. apply Permutation_refl.
  - destruct (splice1 i l) as [[y r']|] eqn:E; [|discriminate H].
    inversion H; subst. apply IH in E.
    eapply perm_trans; [apply perm_skip, E | apply perm_swap].
Qed.

Lemma splice1_length {A : Type} (l : list A) i x r :
  splice1 i l = Some (x, r) -> length l = S (length r).
Proof. intro H. apply splice1_perm in H. now apply Permutation_length in H. Qed.

(** ** The scan for the nearest detection *)

Section Scan.
Variables canvasWidth prev : Q.

Abbreviation dist := (distanceTo canvasWidth prev).
Abbreviation scan := (scanDetections canvasWidth prev).

Lemma scanDetections_spec (ds : list Det.t) : forall i best,
  bestBelowThreshold best ->
  scanResult canvasWidth prev ds i best (scan ds i best).
Proof.
  induction ds as [|d0 ds IH]; intros i best Hb.
  - simpl. destruct best as [[j m]|]; simpl.
    + split; [exact Hb|]. left. split; [reflexivity|constructor].
    + split; [reflexivity|constructor].
  - unfold scan. simpl. fold scan. fold (distanceTo canvasWidth prev d0).
    fold dist.
    set (cond := Qltb (dist d0) PROXIMITY_THRESHOLD && belowMin (dist d0) best).
    destruct cond eqn:Hc; subst cond.
    + apply andb_true_iff in Hc. destruct Hc as [Hlt Hmin].
      apply Qltb_true in Hlt.
      specialize (IH (S i) (Some (i, dist d0)) Hlt).
      destruct (scan ds (S i) (Some (i, dist d0))) as [[j m]|]; simpl in *.
      * destruct IH as [Hm [[Hbest Hall]|(d & Hij & Hn & Hd & Hbm & Hall & Hfst)]].
        -- inversion Hbest; subst j m. split; [exact Hm|]. right.
           exists d0. rewrite Nat.sub_diag. simpl.
           repeat split; auto.
           constructor; [apply Qle_refl|exact Hall].
        -- apply Qltb_true in Hbm. split; [exact Hm|]. right.
           exists d. replace (j - i)%nat with (S (j - S i)) by lia. simpl.
           repeat split; auto; try lia.
           ++ destruct best as [[j0 m0]|]; simpl in *; [|reflexivity].
              apply Qltb_true. apply Qltb_true in Hmin.
              exact (Qlt_trans _ _ _ Hbm Hmin).
           ++ constructor; [apply Qlt_le_weak, Hbm|exact Hall].
      * destruct IH as [IH _]. discriminate IH.
    + specialize (IH (S i) best Hb).
      assert (Hd0 : forall m, belowMin m best = true -> m < PROXIMITY_THRESHOLD ->
                              m < dist d0).
      { intros m Hbm Hm. apply andb_false_iff in Hc. destruct Hc as [Hc|Hc].
        - apply Qltb_false in Hc. exact (Qlt_le_trans _ _ _ Hm Hc).
        - destruct best as [[j0 m0]|]; simpl in *; [|discriminate Hc].
          apply Qltb_false in Hc. apply Qltb_true in Hbm.
          exact (Qlt_le_trans _ _ _ Hbm Hc). }
      destruct (scan ds (S i) best) as [[j m]|]; simpl in *.
      * destruct IH as [Hm [[Hbest Hall]|(d & Hij & Hn & Hd & Hbm & Hall & Hfst)]].
        -- split; [exact Hm|]. left. split; [exact Hbest|].
           constructor; [|exact Hall]. subst best. simpl in *.
           apply andb_false_iff in Hc. destruct Hc as [Hc|Hc]; apply Qltb_false in Hc.
           ++ apply Qlt_le_weak. exact (Qlt_le_trans _ _ _ Hm Hc).
           ++ exact Hc.
        -- split; [exact Hm|]. right.
           exists d. replace (j - i)%nat with (S (j - S i)) by lia. simpl.
           repeat split; auto; try lia.
           constructor; [apply Qlt_le_weak; auto|exact Hall].
      * destruct IH as [IH Hall]. split; [exact IH|].
        constructor; [|exact Hall]. subst best. simpl in Hc.
        rewrite andb_true_r in Hc. now apply Qltb_false in Hc.
Qed.
End Scan.

Lemma findBestMatch_Some (canvasWidth : Q) (oldState : FaceState)
    (pool : list Det.t) (i : nat) (m : Q) :
  findBestMatch canvasWidth oldState pool = Some (i, m) ->
  exists d,
    nth_error pool i = Some d /\
    m = distanceTo canvasWidth (prevCenterFlippedX oldState) d /\
    m < PROXIMITY_THRESHOLD /\
    Forall (fun d' => m <= distanceTo canvasWidth (prevCenterFlippedX oldState) d')
      pool /\
    Forall (fun d' => m < distanceTo canvasWidth (prevCenterFlippedX oldState) d')
      (firstn i pool).
Proof.
  intro H. unfold findBestMatch in H.
  pose proof (scanDetections_spec canvasWidth (prevCenterFlippedX oldState)
                pool 0 None I) as S.
  rewrite H in S. simpl in S.
  destruct S as [Hm [[Hbest _]|(d & _ & Hn & Hd & _ & Hall & Hfst)]];
    [discriminate Hbest|].
  rewrite Nat.sub_0_r in *. exists d. auto.
Qed.

Lemma findBestMatch_None (canvasWidth : Q) (oldState : FaceState)
    (pool : list Det.t) :
  findBestMatch canvasWidth oldState pool = None <->
  Forall (fun d => PROXIMITY_THRESHOLD
                   <= distanceTo canvasWidth (prevCenterFlippedX oldState) d)
    pool.
Proof.
  split; intro H.
  - unfold findBestMatch in H.
    pose proof (scanDetections_spec canvasWidth (prevCenterFlippedX oldState)
                  pool 0 None I) as S.
    rewrite H in S. exact (proj2 S).
  - destruct (findBestMatch canvasWidth oldState pool) as [[i m]|] eqn:E;
      [|reflexivity].
    apply findBestMatch_Some in E. destruct E as (d & Hn & Hd & Hm & _).
    apply nth_error_In in Hn. rewrite Forall_forall in H.
    specialize (H d Hn). rewrite <- Hd in H.
    exfalso. exact (Qlt_not_le _ _ Hm H).
Qed.

Lemma findBestMatch_in_range (canvasWidth : Q) (oldState : FaceState)
    (pool : list Det.t) (i : nat) (m : Q) :
  findBestMatch canvasWidth oldState pool = Some (i, m) -> (i < length pool)%nat.
Proof.
  intro H. apply findBestMatch_Some in H. destruct H as (d & Hn & _).
  apply nth_error_Some. congruence.
Qed.

(** ** The map *)

Lemma keys_app (m1 m2 : JsMap) : keys (m1 ++ m2) = keys m1 ++ keys m2.
Proof. apply map_app. Qed.

Lemma map_set_fresh (k : nat) (v : FaceState) (m : JsMap) :
  ~ In k (keys m) -> map_set k v m = m ++ [(k, v)].
Proof.
  induction m as [|[k' v'] m IH]; intro H; simpl in *; [reflexivity|].
  destruct (Nat.eqb_spec k k') as [->|N]; [tauto|].
  rewrite IH by tauto. reflexivity.
Qed.

Lemma map_get_fresh (k : nat) (m : JsMap) :
  ~ In k (keys m) -> map_get k m = None.
Proof.
  induction m as [|[k' v'] m IH]; intro H; simpl in *; [reflexivity|].
  destruct (Nat.eqb_spec k k') as [->|N]; [tauto|]. apply IH. tauto.
Qed.

Lemma map_get_In (k : nat) (m : JsMap) (v : FaceState) :
  map_get k m = Some v -> In (k, v) m.
Proof.
  induction m as [|[k' v'] m IH]; simpl; [discriminate|].
  destruct (Nat.eqb_spec k k') as [->|N]; intro H.
  - inversion H; subst. now left.
  - right. auto.
Qed.

Lemma map_get_keys (k : nat) (m : JsMap) (v : FaceState) :
  map_get k m = Some v -> In k (keys m).
Proof. intro H. apply map_get_In in H. apply (in_map fst) in H. exact H. Qed.

Lemma map_get_app (k : nat) (m1 m2 : JsMap) :
  map_get k (m1 ++ m2) =
  match map_get k m1 with
  | Some v => Some v
  | None => map_get k m2
  end.
Proof.
  induction m1 as [|[k' v'] m1 IH]; simpl; [reflexivity|].
  destruct (Nat.eqb k k'); [reflexivity|exact IH].
Qed.

Lemma map_get_NoDup (k : nat) (m : JsMap) (v : FaceState) :
  NoDup (keys m) -> In (k, v) m -> map_get k m = Some v.
Proof.
  induction m as [|[k' v'] m IH]; simpl; intros N H; [contradiction|].
  inversion N as [|? ? Hn N']; subst.
  destruct H as [H|H].
  - inversion H; subst. now rewrite Nat.eqb_refl.
  - destruct (Nat.eqb_spec k k') as [->|_].
    + exfalso. apply Hn. apply (in_map fst) in H. exact H.
    + auto.
Qed.

Lemma map_get_None_keys (k : nat) (m : JsMap) :
  map_get k m = None -> ~ In k (keys m).
Proof.
  induction m as [|[k' v'] m IH]; simpl; [tauto|].
  destruct (Nat.eqb_spec k k') as [->|N]; [discriminate|].
  intros H [E|E]; [congruence|]. exact (IH H E).
Qed.

(** ** Sorted key lists *)

Lemma StronglySorted_app_iff {A : Type} (R : A -> A -> Prop) (l1 l2 : list A) :
  StronglySorted R (l1 ++ l2) <->
  StronglySorted R l1 /\ StronglySorted R l2 /\
  Forall (fun x => Forall (R x) l2) l1.
Proof.
  induction l1 as [|a l1 IH]; simpl.
  - split; [intro H; repeat split; auto; constructor|tauto].
  - split.
    + intro H. apply StronglySorted_inv in H. destruct H as [H F].
      apply IH in H. destruct H as (S1 & S2 & F12).
      apply Forall_app in F. destruct F as [F1 F2].
      repeat split; auto; constructor; auto.
    + intros (S1 & S2 & F12). apply StronglySorted_inv in S1.
      destruct S1 as [S1 F1]. inversion F12; subst.
      constructor; [apply IH; auto|]. apply Forall_app. auto.
Qed.

Lemma StronglySorted_remove_mid {A : Type} (R : A -> A -> Prop)
    (l1 l2 : list A) (a : A) :
  StronglySorted R (l1 ++ a :: l2) -> StronglySorted R (l1 ++ l2).
Proof.
  rewrite !StronglySorted_app_iff. intros (S1 & S2 & F).
  apply StronglySorted_inv in S2. repeat split; try tauto.
  eapply Forall_impl; [|exact F]. intros x Hx. now inversion Hx.
Qed.

Lemma StronglySorted_lt_NoDup (l : list nat) : StronglySorted lt l -> NoDup l.
Proof.
  induction 1 as [|a l S IH F]; constructor; [|exact IH].
  intro H. rewrite Forall_forall in F. specialize (F a H). lia.
Qed.

Lemma StronglySorted_seq (n len : nat) : StronglySorted lt (seq n len).
Proof.
  revert n. induction len as [|len IH]; intro n; simpl; constructor; auto.
  apply Forall_forall. intros x Hx. apply in_seq in Hx. lia.
Qed.

(** ** The matched update *)

Ltac updateMatched_cases oldState b canvasWidth centerLineX :=
  unfold updateMatched; simpl;
  destruct (lastSide oldState) eqn:?,
           (sideOf (getFlippedBoxCenter b canvasWidth) centerLineX) eqn:?,
           (isEnterCounted oldState) eqn:?,
           (isExitCounted oldState) eqn:?;
  simpl.

Lemma updateMatched_fields (oldState : FaceState) (b : BoundingBox)
    (canvasWidth centerLineX : Q) (ec xc : nat) :
  let st' := fst (fst (updateMatched oldState b canvasWidth centerLineX ec xc)) in
  id st' = id oldState /\
  prevCenterFlippedX st' = getFlippedBoxCenter b canvasWidth /\
  lastSide st' = sideOf (getFlippedBoxCenter b canvasWidth) centerLineX /\
  missedFrames st' = 0%nat /\
  boundingBox st' = b.
Proof.
  updateMatched_cases oldState b canvasWidth centerLineX; repeat split; auto.
Qed.

Lemma updateMatched_flags (oldState : FaceState) (b : BoundingBox)
    (canvasWidth centerLineX : Q) (ec xc : nat) :
  let st' := fst (fst (updateMatched oldState b canvasWidth centerLineX ec xc)) in
  (isEnterCounted oldState = true -> isEnterCounted st' = true) /\
  (isExitCounted oldState = true -> isExitCounted st' = true).
Proof.
  updateMatched_cases oldState b canvasWidth centerLineX; split; congruence.
Qed.

Lemma updateMatched_counts (oldState : FaceState) (b : BoundingBox)
    (canvasWidth centerLineX : Q) (ec xc : nat) :
  let r := updateMatched oldState b canvasWidth centerLineX ec xc in
  snd (fst r)
  = (ec + bit (isEnterCounted (fst (fst r)) && negb (isEnterCounted oldState)))%nat
  /\
  snd r
  = (xc + bit (isExitCounted (fst (fst r)) && negb (isExitCounted oldState)))%nat.
Proof.
  updateMatched_cases oldState b canvasWidth centerLineX; split; simpl; lia.
Qed.

(** ** One iteration of the loop over the old tracks *)

Lemma processTrack_step (canvasWidth centerLineX : Q) (p : Pass) (k : nat)
    (oldState : FaceState) :
  ~ In k (keys (NEXT_FRAME_TRACKED_FACES p)) ->
  exists p',
    processTrack canvasWidth centerLineX p (k, oldState) = Some p' /\
    TrackStep canvasWidth centerLineX p (k, oldState) p'.
Proof.
  intro Hk. unfold processTrack.
  destruct (findBestMatch canvasWidth oldState (unmatchedDetections p))
    as [[i m]|] eqn:Hf.
  - destruct (splice1_in_range (unmatchedDetections p) i) as (d & rest & Hs).
    { eapply findBestMatch_in_range; eassumption. }
    rewrite Hs.
    destruct (updateMatched oldState (Det.boundingBox d) canvasWidth centerLineX
                (curEnterCount p) (curExitCount p)) as [[st' ec] xc] eqn:Hu.
    eexists. split; [reflexivity|].
    rewrite map_set_fresh by exact Hk.
    eapply step_matched; eassumption.
  - destruct (Nat.leb_spec (missedFrames oldState + 1) MAX_MISS_FRAMES) as [L|L].
    + eexists. split; [reflexivity|].
      rewrite map_set_fresh by exact Hk.
      now apply step_ghosted.
    + eexists. split; [reflexivity|]. now apply step_dropped.
Qed.

Lemma processTrack_total (canvasWidth centerLineX : Q) (p : Pass)
    (entry : nat * FaceState) :
  exists p', processTrack canvasWidth centerLineX p entry = Some p'.
Proof.
  destruct entry as [k oldState]. unfold processTrack.
  destruct (findBestMatch canvasWidth oldState (unmatchedDetections p))
    as [[i m]|] eqn:Hf.
  - destruct (splice1_in_range (unmatchedDetections p) i) as (d & rest & Hs).
    { eapply findBestMatch_in_range; eassumption. }
    rewrite Hs.
    destruct (updateMatched oldState (Det.boundingBox d) canvasWidth centerLineX
                (curEnterCount p) (curExitCount p)) as [[st' ec] xc].
    eexists. reflexivity.
  - destruct (missedFrames oldState + 1 <=? MAX_MISS_FRAMES)%nat;
      eexists; reflexivity.
Qed.

Lemma TrackStep_keys (canvasWidth centerLineX : Q) (p p' : Pass) (k : nat)
    (oldState : FaceState) :
  TrackStep canvasWidth centerLineX p (k, oldState) p' ->
  keys (NEXT_FRAME_TRACKED_FACES p') = keys (NEXT_FRAME_TRACKED_FACES p) ++ [k]
  \/ NEXT_FRAME_TRACKED_FACES p' = NEXT_FRAME_TRACKED_FACES p.
Proof.
  intro H. inversion H; subst; simpl.
  - left. now rewrite keys_app.
  - left. now rewrite keys_app.
  - now right.
Qed.

(** Invariant rule for the loop: a property of the entries still to visit
    and of the loop variables that every iteration carries over holds when
    the loop ends, and the loop does end. *)
Lemma trackLoop_invariant (canvasWidth centerLineX : Q)
    (Inv : JsMap -> Pass -> Prop) :
  (forall k oldState rest p p',
      Inv ((k, oldState) :: rest) p ->
      ~ In k (keys (NEXT_FRAME_TRACKED_FACES p)) ->
      ~ In k (keys rest) ->
      TrackStep canvasWidth centerLineX p (k, oldState) p' ->
      Inv rest p') ->
  forall entries p,
    NoDup (keys (NEXT_FRAME_TRACKED_FACES p) ++ keys entries) ->
    Inv entries p ->
    exists p', trackLoop canvasWidth centerLineX entries p = Some p' /\ Inv [] p'.
Proof.
  intros Hstep entries.
  induction entries as [|[k oldState] rest IH]; intros p N HI.
  - exists p. split; [reflexivity|exact HI].
  - simpl in N.
    assert (Hk1 : ~ In k (keys (NEXT_FRAME_TRACKED_FACES p))).
    { apply NoDup_remove_2 in N. intro H. apply N. apply in_or_app. now left. }
    assert (Hk2 : ~ In k (keys rest)).
    { apply NoDup_remove_2 in N. intro H. apply N. apply in_or_app. now right. }
    destruct (processTrack_step canvasWidth centerLineX p k oldState Hk1)
      as (p1 & Hp & Hs).
    simpl. rewrite Hp. apply IH.
    + destruct (TrackStep_keys _ _ _ _ _ _ Hs) as [E|E]; rewrite E.
      * rewrite <- app_assoc. exact N.
      * now apply NoDup_remove_1 in N.
    + eapply Hstep; eassumption.
Qed.

Lemma trackLoop_total (canvasWidth centerLineX : Q) (entries : JsMap) :
  forall p, exists p', trackLoop canvasWidth centerLineX entries p = Some p'.
Proof.
  induction entries as [|entry rest IH]; intro p; simpl.
  - now exists p.
  - destruct (processTrack_total canvasWidth centerLineX p entry) as [p1 E].
    rewrite E. apply IH.
Qed.

Lemma trackLoop_preserves (canvasWidth centerLineX : Q)
    (Inv : JsMap -> Pass -> Prop) :
  (forall k oldState rest p p',
      Inv ((k, oldState) :: rest) p ->
      ~ In k (keys (NEXT_FRAME_TRACKED_FACES p)) ->
      ~ In k (keys rest) ->
      TrackStep canvasWidth centerLineX p (k, oldState) p' ->
      Inv rest p') ->
  forall entries p p',
    NoDup (keys (NEXT_FRAME_TRACKED_FACES p) ++ keys entries) ->
    Inv entries p ->
    trackLoop canvasWidth centerLineX entries p = Some p' ->
    Inv [] p'.
Proof.
  intros Hstep entries p p' N HI E.
  destruct (trackLoop_invariant canvasWidth centerLineX Inv Hstep entries p N HI)
    as (q & Eq & Hq).
  congruence.
Qed.

(** ** The loop over the detections left *)

Lemma keys_spawned (canvasWidth centerLineX : Q) (ds : list Det.t) :
  forall n, keys (spawned canvasWidth centerLineX ds n) = seq n (length ds).
Proof.
  induction ds as [|d ds IH]; intro n; simpl; [reflexivity|].
  f_equal. apply IH.
Qed.

Lemma spawnLoop_spec (canvasWidth centerLineX : Q) (ds : list Det.t) :
  forall next n,
    Forall (fun k => (k < n)%nat) (keys next) ->
    spawnLoop canvasWidth centerLineX ds next n
    = (next ++ spawned canvasWidth centerLineX ds n, (n + length ds)%nat).
Proof.
  induction ds as [|d ds IH]; intros next n F; simpl.
  - rewrite app_nil_r. f_equal. lia.
  - rewrite map_set_fresh.
    + rewrite IH.
      * rewrite <- app_assoc. simpl. f_equal. lia.
      * rewrite keys_app. apply Forall_app. split.
        -- eapply Forall_impl; [|exact F]. simpl. intros. lia.
        -- simpl. constructor; [lia|constructor].
    + intro H. rewrite Forall_forall in F. specialize (F n H). lia.
Qed.

Lemma nth_error_spawned (canvasWidth centerLineX : Q) (ds : list Det.t) :
  forall n i d,
    nth_error ds i = Some d ->
    nth_error (spawned canvasWidth centerLineX ds n) i
    = Some ((n + i)%nat, newState canvasWidth centerLineX (n + i) d).
Proof.
  induction ds as [|d0 ds IH]; intros n i d H; destruct i as [|i];
    simpl in *; try discriminate.
  - inversion H; subst. now rewrite Nat.add_0_r.
  - rewrite (IH (S n) i d H). now replace (S n + i)%nat with (n + S i)%nat by lia.
Qed.

Lemma spawned_id (canvasWidth centerLineX : Q) (ds : list Det.t) :
  forall n,
    Forall (fun entry => id (snd entry) = fst entry)
      (spawned canvasWidth centerLineX ds n).
Proof.
  induction ds as [|d ds IH]; intro n; simpl; constructor.
  - reflexivity.
  - apply IH.
Qed.

Lemma length_spawned (canvasWidth centerLineX : Q) (ds : list Det.t) (n : nat) :
  length (spawned canvasWidth centerLineX ds n) = length ds.
Proof.
  rewrite <- (length_map fst). fold (keys (spawned canvasWidth centerLineX ds n)).
  rewrite keys_spawned. apply length_seq.
Qed.

(** ** The invariant *)

Lemma Forall_remove_mid {A : Type} (P : A -> Prop) (l1 l2 : list A) (a : A) :
  Forall P (l1 ++ a :: l2) -> Forall P (l1 ++ l2).
Proof.
  rewrite !Forall_app. intros [H1 H2]. inversion H2; subst. auto.
Qed.

(** Case analysis on the branch an iteration took, with fixed names. *)
Ltac step_inv H :=
  inversion H as
    [? ? ? ix mx dx poolx stx ecx xcx Hfind Hsplice Hupd
    |? ? ? Hfind Hkeep
    |? ? ? Hfind Hdrop];
  subst; simpl in *.

Lemma keysInv_step (canvasWidth centerLineX : Q) (n : nat) :
  forall k oldState rest p p',
    keysInv n ((k, oldState) :: rest) p ->
    ~ In k (keys (NEXT_FRAME_TRACKED_FACES p)) ->
    ~ In k (keys rest) ->
    TrackStep canvasWidth centerLineX p (k, oldState) p' ->
    keysInv n rest p'.
Proof.
  intros k oldState rest p p' (S & B & I) _ _ H. unfold keysInv.
  apply Forall_app in I. destruct I as [I1 I2].
  inversion I2 as [|? ? Ik Irest]; subst. simpl in Ik.
  step_inv H.
  - rewrite keys_app, <- !app_assoc. simpl.
    split; [exact S|]. split; [exact B|].
    apply Forall_app; split; [exact I1|]. constructor; [|exact Irest].
    simpl.
    pose proof (updateMatched_fields oldState (Det.boundingBox dx) canvasWidth
                  centerLineX (curEnterCount p) (curExitCount p)) as F.
    simpl in F. rewrite Hupd in F. simpl in F. destruct F as [F _]. exact F.
  - rewrite keys_app, <- !app_assoc. simpl.
    split; [exact S|]. split; [exact B|].
    apply Forall_app; split; [exact I1|]. constructor; [reflexivity|exact Irest].
  - repeat split.
    + eapply StronglySorted_remove_mid; eassumption.
    + eapply Forall_remove_mid; eassumption.
    + apply Forall_app; auto.
Qed.

Lemma wf_NoDup (e : Engine) : wf e -> NoDup (keys (trackedFaceStates e)).
Proof. intros [S _ _]. now apply StronglySorted_lt_NoDup. Qed.

(** One call on a well-formed state, taken apart: the loop over the old
    tracks ends in [p], and the call returns the tracks of [p] followed by
    one new track per detection left. *)
Lemma detectFaces_decompose (e : Engine) (f : Frame) :
  wf e ->
  exists p,
    trackLoop (canvasWidth f) (centerLine f) (trackedFaceStates e)
      (passStart e f) = Some p /\
    detectFaces e f
    = Some {| trackedFaceStates :=
                NEXT_FRAME_TRACKED_FACES p
                ++ spawned (canvasWidth f) (centerLine f)
                     (unmatchedDetections p) (nextTrackingId e);
              nextTrackingId :=
                (nextTrackingId e + length (unmatchedDetections p))%nat;
              enterCount := curEnterCount p;
              exitCount := curExitCount p |} /\
    keysInv (nextTrackingId e) [] p.
Proof.
  intro W.
  destruct (trackLoop_invariant (canvasWidth f) (centerLine f)
              (keysInv (nextTrackingId e))
              (keysInv_step (canvasWidth f) (centerLine f) (nextTrackingId e))
              (trackedFaceStates e) (passStart e f)) as (p & Hp & HI).
  - simpl. now apply wf_NoDup.
  - destruct W as [S B I]. repeat split; simpl; assumption.
  - exists p. split; [exact Hp|]. split; [|exact HI].
    unfold detectFaces. rewrite Hp.
    destruct HI as (_ & B & _). rewrite app_nil_r in B.
    rewrite (spawnLoop_spec _ _ _ _ _ B). reflexivity.
Qed.

Lemma detectFaces_wf (e e' : Engine) (f : Frame) :
  wf e -> detectFaces e f = Some e' -> wf e'.
Proof.
  intros W E. destruct (detectFaces_decompose e f W) as (p & _ & E' & S & B & I).
  rewrite E' in E. inversion E; subst e'; clear E.
  rewrite !app_nil_r in *.
  constructor; simpl.
  - rewrite keys_app, keys_spawned. apply StronglySorted_app_iff.
    repeat split; [exact S|apply StronglySorted_seq|].
    eapply Forall_impl; [|exact B]. simpl. intros a Ha.
    apply Forall_forall. intros x Hx. apply in_seq in Hx. lia.
  - rewrite keys_app, keys_spawned. apply Forall_app. split.
    + eapply Forall_impl; [|exact B]. simpl. intros. lia.
    + apply Forall_forall. intros x Hx. apply in_seq in Hx. lia.
  - apply Forall_app. split; [exact I|]. apply spawned_id.
Qed.

Lemma init_wf : wf init.
Proof. constructor; simpl; constructor. Qed.

Lemma run_wf (fs : list Frame) : forall e e', wf e -> run e fs = Some e' -> wf e'.
Proof.
  induction fs as [|f fs IH]; intros e e' W E; simpl in E.
  - now inversion E; subst.
  - destruct (detectFaces e f) as [e1|] eqn:E1; [|discriminate E].
    eapply IH; [|exact E]. eapply detectFaces_wf; eassumption.
Qed.

Lemma detectFaces_total (e : Engine) (f : Frame) :
  exists e', detectFaces e f = Some e'.
Proof.
  unfold detectFaces.
  destruct (trackLoop_total (canvasWidth f) (centerLine f) (trackedFaceStates e)
              (passStart e f)) as [p E].
  rewrite E. destruct (spawnLoop _ _ _ _ _). eexists. reflexivity.
Qed.

Lemma run_total (fs : list Frame) : forall e, exists e', run e fs = Some e'.
Proof.
  induction fs as [|f fs IH]; intro e; simpl.
  - now exists e.
  - destruct (detectFaces_total e f) as [e1 E]. rewrite E. apply IH.
Qed.

(** ** What a call stores per track *)

Lemma TrackStep_outcome (canvasWidth centerLineX : Q) (p p' : Pass) (k : nat)
    (oldState : FaceState) :
  ~ In k (keys (NEXT_FRAME_TRACKED_FACES p)) ->
  TrackStep canvasWidth centerLineX p (k, oldState) p' ->
  map_get k (NEXT_FRAME_TRACKED_FACES p')
  = outcome canvasWidth centerLineX p oldState.
Proof.
  intros Hk H. unfold outcome. step_inv H.
  - rewrite Hfind. apply splice1_nth in Hsplice. destruct Hsplice as [Hn _].
    rewrite Hn, Hupd. simpl.
    rewrite map_get_app, (map_get_fresh _ _ Hk). simpl.
    now rewrite Nat.eqb_refl.
  - rewrite Hfind. apply Nat.leb_le in Hkeep. rewrite Hkeep.
    rewrite map_get_app, (map_get_fresh _ _ Hk). simpl.
    now rewrite Nat.eqb_refl.
  - rewrite Hfind. apply Nat.leb_gt in Hdrop. rewrite Hdrop.
    now apply map_get_fresh.
Qed.

Lemma TrackStep_other (canvasWidth centerLineX : Q) (p p' : Pass) (k k' : nat)
    (oldState : FaceState) :
  k' <> k ->
  TrackStep canvasWidth centerLineX p (k, oldState) p' ->
  map_get k' (NEXT_FRAME_TRACKED_FACES p')
  = map_get k' (NEXT_FRAME_TRACKED_FACES p).
Proof.
  intros N H. apply Nat.eqb_neq in N.
  step_inv H; try reflexivity; rewrite map_get_app; simpl; rewrite N;
    now destruct (map_get k' (NEXT_FRAME_TRACKED_FACES p)).
Qed.

Lemma trackLoop_lookup (canvasWidth centerLineX : Q) (entries : JsMap) :
  forall p p',
    NoDup (keys (NEXT_FRAME_TRACKED_FACES p) ++ keys entries) ->
    trackLoop canvasWidth centerLineX entries p = Some p' ->
    (forall k, ~ In k (keys entries) ->
       map_get k (NEXT_FRAME_TRACKED_FACES p')
       = map_get k (NEXT_FRAME_TRACKED_FACES p)) /\
    (forall k pk oldState,
       passBefore canvasWidth centerLineX entries p k = Some (pk, oldState) ->
       map_get k (NEXT_FRAME_TRACKED_FACES p')
       = outcome canvasWidth centerLineX pk oldState).
Proof.
  induction entries as [|[k0 st0] rest IH]; intros p p' N E; simpl in E.
  - inversion E; subst. split; [reflexivity|]. intros k pk st H. discriminate H.
  - simpl in N.
    assert (Hk1 : ~ In k0 (keys (NEXT_FRAME_TRACKED_FACES p))).
    { apply NoDup_remove_2 in N. intro H. apply N. apply in_or_app. now left. }
    assert (Hk2 : ~ In k0 (keys rest)).
    { apply NoDup_remove_2 in N. intro H. apply N. apply in_or_app. now right. }
    destruct (processTrack_step canvasWidth centerLineX p k0 st0 Hk1)
      as (p1 & Hp & Hs).
    rewrite Hp in E.
    assert (N1 : NoDup (keys (NEXT_FRAME_TRACKED_FACES p1) ++ keys rest)).
    { destruct (TrackStep_keys _ _ _ _ _ _ Hs) as [K|K]; rewrite K.
      - rewrite <- app_assoc. exact N.
      - now apply NoDup_remove_1 in N. }
    destruct (IH p1 p' N1 E) as [IH1 IH2]. split.
    + intros k Hk. simpl in Hk. rewrite IH1 by tauto.
      eapply TrackStep_other; [|exact Hs]. intro; subst; tauto.
    + intros k pk st H. simpl in H.
      destruct (Nat.eqb_spec k k0) as [->|Nk].
      * inversion H; subst pk st. rewrite IH1 by exact Hk2.
        now apply TrackStep_outcome.
      * rewrite Hp in H. now apply IH2.
Qed.

Lemma passBefore_get (canvasWidth centerLineX : Q) (entries : JsMap) :
  forall p k pk oldState,
    passBefore canvasWidth centerLineX entries p k = Some (pk, oldState) ->
    map_get k entries = Some oldState.
Proof.
  induction entries as [|[k0 st0] rest IH]; intros p k pk st H; simpl in *;
    [discriminate H|].
  destruct (Nat.eqb k k0); [congruence|].
  destruct (processTrack canvasWidth centerLineX p (k0, st0)) as [p1|];
    [|discriminate H].
  eapply IH; eassumption.
Qed.

Lemma passBefore_exists (canvasWidth centerLineX : Q) (entries : JsMap) :
  forall p k oldState,
    map_get k entries = Some oldState ->
    exists pk, passBefore canvasWidth centerLineX entries p k = Some (pk, oldState).
Proof.
  induction entries as [|[k0 st0] rest IH]; intros p k st H; simpl in *;
    [discriminate H|].
  destruct (Nat.eqb k k0).
  - inversion H; subst. now exists p.
  - destruct (processTrack_total canvasWidth centerLineX p (k0, st0)) as [p1 E].
    rewrite E. now apply IH.
Qed.

(** The state a call leaves under each key it visited, and under the keys
    the engine has retired. *)
Lemma detectFaces_lookup (e e' : Engine) (f : Frame) :
  wf e ->
  detectFaces e f = Some e' ->
  (forall k pk oldState,
     passAt e f k = Some (pk, oldState) ->
     map_get k (trackedFaceStates e')
     = outcome (canvasWidth f) (centerLine f) pk oldState) /\
  (forall k, (k < nextTrackingId e)%nat -> ~ In k (keys (trackedFaceStates e)) ->
     map_get k (trackedFaceStates e') = None).
Proof.
  intros W E. destruct (detectFaces_decompose e f W) as (p & Hp & E' & _).
  rewrite E' in E. inversion E; subst e'; clear E. simpl.
  destruct (trackLoop_lookup (canvasWidth f) (centerLine f)
              (trackedFaceStates e) (passStart e f) p (wf_NoDup e W) Hp)
    as [L1 L2].
  assert (Hsp : forall k, (k < nextTrackingId e)%nat ->
            map_get k (spawned (canvasWidth f) (centerLine f)
                         (unmatchedDetections p) (nextTrackingId e)) = None).
  { intros k Hk. apply map_get_fresh. rewrite keys_spawned.
    intro H. apply in_seq in H. lia. }
  split.
  - intros k pk st H. rewrite map_get_app, (L2 _ _ _ H).
    destruct (outcome _ _ pk st); [reflexivity|].
    apply Hsp. apply passBefore_get in H. apply map_get_keys in H.
    destruct W as [_ B _]. rewrite Forall_forall in B. now apply B.
  - intros k Hk Hn. rewrite map_get_app, (L1 k Hn). simpl. now apply Hsp.
Qed.

(** ** Determinism and totality *)

(** C8, as amended: two calls that start from the same tracked map and the
    same [enterCount] and [exitCount] and receive the same detections in
    the same order and the same frame width both return, with the same
    counters; when they also start from the same value of the id allocator
    [nextTrackingId] the tracked maps they return are identical (keys,
    fields and order); and on reachable states with different allocator
    values the maps still share every surviving track and differ only in
    the ids of the tracks the calls create, which start at each call's own
    allocator value. *)
Theorem detectFaces_deterministic : forall (e1 e2 : Engine) (f1 f2 : Frame),
  trackedFaceStates e1 = trackedFaceStates e2 ->
  enterCount e1 = enterCount e2 ->
  exitCount e1 = exitCount e2 ->
  detections f1 = detections f2 ->
  canvasWidth f1 = canvasWidth f2 ->
  exists r1 r2,
    detectFaces e1 f1 = Some r1 /\ detectFaces e2 f2 = Some r2 /\
    enterCount r1 = enterCount r2 /\
    exitCount r1 = exitCount r2 /\
    (nextTrackingId e1 = nextTrackingId e2 ->
     trackedFaceStates r1 = trackedFaceStates r2 /\
     nextTrackingId r1 = nextTrackingId r2) /\
    (forall fs1 fs2,
       run init fs1 = Some e1 -> run init fs2 = Some e2 ->
       exists kept left,
         trackedFaceStates r1
         = kept ++ spawned (canvasWidth f1) (centerLine f1) left
                     (nextTrackingId e1) /\
         trackedFaceStates r2
         = kept ++ spawned (canvasWidth f1) (centerLine f1) left
                     (nextTrackingId e2) /\
         nextTrackingId r1 = (nextTrackingId e1 + length left)%nat /\
         nextTrackingId r2 = (nextTrackingId e2 + length left)%nat).
Proof.
  intros [t1 n1 ec1 xc1] [t2 n2 ec2 xc2] [d1 w1] [d2 w2]; simpl.
  intros -> -> -> -> ->.
  set (e1 := mkEngine t2 n1 ec2 xc2). set (e2 := mkEngine t2 n2 ec2 xc2).
  set (f := mkFrame d2 w2).
  destruct (trackLoop_total (canvasWidth f) (centerLine f) t2 (passStart e1 f))
    as [p Hp].
  assert (Hp2 : trackLoop (canvasWidth f) (centerLine f) t2 (passStart e2 f)
                = Some p) by exact Hp.
  assert (E1 : exists r, detectFaces e1 f = Some r /\
                 enterCount r = curEnterCount p /\
                 exitCount r = curExitCount p /\
                 (trackedFaceStates r, nextTrackingId r)
                 = spawnLoop (canvasWidth f) (centerLine f)
                     (unmatchedDetections p) (NEXT_FRAME_TRACKED_FACES p) n1).
  { unfold detectFaces. simpl trackedFaceStates. rewrite Hp. simpl.
    destruct (spawnLoop w2 (centerLine f) (unmatchedDetections p)
                (NEXT_FRAME_TRACKED_FACES p) n1) as [m n].
    eexists. repeat split. }
  assert (E2 : exists r, detectFaces e2 f = Some r /\
                 enterCount r = curEnterCount p /\
                 exitCount r = curExitCount p /\
                 (trackedFaceStates r, nextTrackingId r)
                 = spawnLoop (canvasWidth f) (centerLine f)
                     (unmatchedDetections p) (NEXT_FRAME_TRACKED_FACES p) n2).
  { unfold detectFaces. simpl trackedFaceStates. rewrite Hp2. simpl.
    destruct (spawnLoop w2 (centerLine f) (unmatchedDetections p)
                (NEXT_FRAME_TRACKED_FACES p) n2) as [m n].
    eexists. repeat split. }
  destruct E1 as (r1 & D1 & A1 & B1 & S1).
  destruct E2 as (r2 & D2 & A2 & B2 & S2).
  exists r1, r2. split; [exact D1|]. split; [exact D2|].
  split; [congruence|]. split; [congruence|]. split.
  - intro Hn. simpl in Hn. subst n2. rewrite <- S1 in S2.
    inversion S2. split; reflexivity.
  - intros fs1 fs2 R1 R2.
    pose proof (run_wf fs1 init e1 init_wf R1) as W1.
    pose proof (run_wf fs2 init e2 init_wf R2) as W2.
    destruct (detectFaces_decompose e1 f W1) as (p1 & Hp1 & E1 & _).
    destruct (detectFaces_decompose e2 f W2) as (p2 & Hp2' & E2 & _).
    simpl trackedFaceStates in Hp1, Hp2'.
    assert (p1 = p) by congruence. assert (p2 = p) by congruence.
    subst p1 p2. rewrite E1 in D1. rewrite E2 in D2.
    inversion D1; subst r1. inversion D2; subst r2. simpl.
    exists (NEXT_FRAME_TRACKED_FACES p), (unmatchedDetections p).
    repeat split.
Qed.

Lemma detectFaces_deterministic_witness :
  exists r1 r2,
    detectFaces init oneFace = Some r1 /\
    detectFaces (mkEngine [] 1 0 0) oneFace = Some r2 /\
    enterCount r1 = enterCount r2 /\
    exitCount r1 = exitCount r2 /\
    keys (trackedFaceStates r1) = [0%nat] /\
    keys (trackedFaceStates r2) = [1%nat] /\
    map boundingBox (values (trackedFaceStates r1))
    = map boundingBox (values (trackedFaceStates r2)).
Proof.
  destruct (detectFaces_deterministic init (mkEngine [] 1 0 0) oneFace oneFace
              eq_refl eq_refl eq_refl eq_refl eq_refl)
    as (r1 & r2 & D1 & D2 & A & B & _).
  exists r1, r2. split; [exact D1|]. split; [exact D2|].
  split; [exact A|]. split; [exact B|].
  vm_compute in D1. inversion D1; subst r1.
  vm_compute in D2. inversion D2; subst r2.
  repeat split.
Defined.

(** C8, as stated, fails: the tracked map and the two crossing counters do
    not determine the ids of the new tracks, which come from
    [nextTrackingId].  At page load, and after one face has come and aged
    out, the tracked map is empty and both crossing counters are 0; the same
    frame then creates track 0 in the first state and track 1 in the
    second. *)
Lemma detectFaces_ids_need_allocator :
  ~ (forall (fs1 fs2 : list Frame) (e1 e2 : Engine) (f : Frame),
       run init fs1 = Some e1 ->
       run init fs2 = Some e2 ->
       trackedFaceStates e1 = trackedFaceStates e2 ->
       enterCount e1 = enterCount e2 ->
       exitCount e1 = exitCount e2 ->
       forall r1 r2,
         detectFaces e1 f = Some r1 ->
         detectFaces e2 f = Some r2 ->
         trackedFaceStates r1 = trackedFaceStates r2 /\
         enterCount r1 = enterCount r2 /\
         exitCount r1 = exitCount r2).
Proof.
  intro H.
  destruct (run init (oneFace :: repeat noFace 6)) as [e2|] eqn:R2;
    [|discriminate R2].
  destruct (detectFaces init oneFace) as [r1|] eqn:E1; [|discriminate E1].
  destruct (detectFaces e2 oneFace) as [r2|] eqn:E2;
    [|vm_compute in R2; inversion R2; subst e2; discriminate E2].
  assert (T : trackedFaceStates init = trackedFaceStates e2 /\
              enterCount init = enterCount e2 /\
              exitCount init = exitCount e2).
  { vm_compute in R2. inversion R2. repeat split. }
  destruct T as (T1 & T2 & T3).
  destruct (H [] (oneFace :: repeat noFace 6) init e2 oneFace eq_refl R2
              T1 T2 T3 r1 r2 E1 E2) as [K _].
  vm_compute in R2. inversion R2; subst e2.
  vm_compute in E1. inversion E1; subst r1.
  vm_compute in E2. inversion E2; subst r2.
  discriminate K.
Qed.

Lemma aged_cons (k : nat) (st : FaceState) (m : JsMap) :
  aged ((k, st) :: m)
  = if (missedFrames st + 1 <=? MAX_MISS_FRAMES)%nat
    then (k, withMissedFrames st (missedFrames st + 1)) :: aged m
    else aged m.
Proof.
  unfold aged. simpl.
  destruct (missedFrames st + 1 <=? MAX_MISS_FRAMES)%nat; reflexivity.
Qed.

Lemma detectFaces_no_detections (e : Engine) (W : Q) :
  wf e ->
  detectFaces e (mkFrame [] W)
  = Some {| trackedFaceStates := aged (trackedFaceStates e);
            nextTrackingId := nextTrackingId e;
            enterCount := enterCount e;
            exitCount := exitCount e |}.
Proof.
  intro Hwf. set (f := mkFrame [] W).
  destruct (detectFaces_decompose e f Hwf) as (p & Hp & E & _).
  assert (HI : unmatchedDetections p = [] /\
               curEnterCount p = enterCount e /\
               curExitCount p = exitCount e /\
               NEXT_FRAME_TRACKED_FACES p ++ aged [] = aged (trackedFaceStates e)).
  { apply (trackLoop_preserves (canvasWidth f) (centerLine f)
             (fun rest q =>
                unmatchedDetections q = [] /\
                curEnterCount q = enterCount e /\
                curExitCount q = exitCount e /\
                NEXT_FRAME_TRACKED_FACES q ++ aged rest
                = aged (trackedFaceStates e)))
      with (entries := trackedFaceStates e) (p := passStart e f).
    - intros k st rest q q' (Hu & Hec & Hxc & Hn) _ _ H.
      rewrite aged_cons in Hn. step_inv H.
      + rewrite Hu in Hfind. apply findBestMatch_in_range in Hfind.
        simpl in Hfind. lia.
      + apply Nat.leb_le in Hkeep. rewrite Hkeep in Hn.
        rewrite <- app_assoc. auto.
      + apply Nat.leb_gt in Hdrop. rewrite Hdrop in Hn. auto.
    - simpl. now apply wf_NoDup.
    - simpl. auto.
    - exact Hp. }
  destruct HI as (Hu & Hec & Hxc & Hn).
  rewrite E, Hu, Hec, Hxc. simpl. unfold aged at 1 in Hn. simpl in Hn.
  rewrite !app_nil_r in *. rewrite Hn, Nat.add_0_r. reflexivity.
Qed.

(** C9: a call never raises: for every tracked map, counters and detection
    list, the empty one included, it returns a new engine state, and so does
    every sequence of calls.  With no detection, every track of a state the
    script can reach gets one more missed frame (those past the tolerance
    leave), nothing is spawned and the id allocator and counters stay. *)
Theorem detectFaces_never_fails :
  (forall (e : Engine) (f : Frame), exists e', detectFaces e f = Some e') /\
  (forall (e : Engine) (fs : list Frame), exists e', run e fs = Some e') /\
  (forall (fs : list Frame) (e : Engine) (W : Q),
     run init fs = Some e ->
     detectFaces e (mkFrame [] W)
     = Some {| trackedFaceStates := aged (trackedFaceStates e);
               nextTrackingId := nextTrackingId e;
               enterCount := enterCount e;
               exitCount := exitCount e |}).
Proof.
  split; [exact detectFaces_total|].
  split; [intros e fs; apply run_total|].
  intros fs e W R. apply detectFaces_no_detections.
  exact (run_wf fs init e init_wf R).
Qed.

Lemma detectFaces_never_fails_witness :
  exists e,
    run init [twoFaces; noFace] = Some e /\
    detectFaces e noFace
    = Some {| trackedFaceStates := aged (trackedFaceStates e);
              nextTrackingId := nextTrackingId e;
              enterCount := enterCount e;
              exitCount := exitCount e |} /\
    map (fun entry => missedFrames (snd entry)) (aged (trackedFaceStates e))
    = [2; 2]%nat.
Proof.
  destruct (run init [twoFaces; noFace]) as [e|] eqn:R; [|discriminate R].
  exists e. split; [reflexivity|]. split.
  - exact (proj2 (proj2 detectFaces_never_fails) [twoFaces; noFace] e 640 R).
  - vm_compute in R. inversion R. reflexivity.
Defined.

(** ** The crossing rule *)

Lemma updateMatched_crossing (oldState : FaceState) (b : BoundingBox)
    (W line : Q) (ec xc : nat) :
  let newSide := sideOf (getFlippedBoxCenter b W) line in
  let r := updateMatched oldState b W line ec xc in
  (lastSide oldState = Left -> newSide = Right ->
   isEnterCounted oldState = false ->
   snd (fst r) = S ec /\ isEnterCounted (fst (fst r)) = true /\
   snd r = xc /\ isExitCounted (fst (fst r)) = isExitCounted oldState) /\
  (lastSide oldState = Right -> newSide = Left ->
   isExitCounted oldState = false ->
   snd r = S xc /\ isExitCounted (fst (fst r)) = true /\
   snd (fst r) = ec /\ isEnterCounted (fst (fst r)) = isEnterCounted oldState) /\
  (~ (lastSide oldState = Left /\ newSide = Right /\
      isEnterCounted oldState = false) ->
   ~ (lastSide oldState = Right /\ newSide = Left /\
      isExitCounted oldState = false) ->
   snd (fst r) = ec /\ snd r = xc /\
   isEnterCounted (fst (fst r)) = isEnterCounted oldState /\
   isExitCounted (fst (fst r)) = isExitCounted oldState).
Proof.
  updateMatched_cases oldState b W line;
    repeat split; intros; try congruence; try tauto.
Qed.

Lemma updateMatched_flip (oldState : FaceState) (b : BoundingBox)
    (W line : Q) (ec xc : nat) :
  let st' := fst (fst (updateMatched oldState b W line ec xc)) in
  (isEnterCounted oldState = false -> isEnterCounted st' = true ->
   lastSide oldState = Left /\ lastSide st' = Right) /\
  (isExitCounted oldState = false -> isExitCounted st' = true ->
   lastSide oldState = Right /\ lastSide st' = Left).
Proof.
  updateMatched_cases oldState b W line; split; intros; split;
    congruence.
Qed.


(** ** Detections and active tracks *)

Lemma activeBoxes_app (m1 m2 : JsMap) :
  activeBoxes (m1 ++ m2) = activeBoxes m1 ++ activeBoxes m2.
Proof.
  unfold activeBoxes, values. now rewrite map_app, filter_app, map_app.
Qed.

Lemma activeBoxes_spawned (canvasWidth centerLineX : Q) (ds : list Det.t) :
  forall n,
    activeBoxes (spawned canvasWidth centerLineX ds n)
    = map Det.boundingBox ds.
Proof.
  induction ds as [|d ds IH]; intro n; [reflexivity|].
  change (activeBoxes (spawned canvasWidth centerLineX (d :: ds) n))
    with (Det.boundingBox d
          :: activeBoxes (spawned canvasWidth centerLineX ds (S n))).
  now rewrite IH.
Qed.

Lemma activeBoxes_single (k : nat) (st : FaceState) :
  activeBoxes [(k, st)]
  = if Nat.eqb (missedFrames st) 0 then [boundingBox st] else [].
Proof.
  unfold activeBoxes. simpl. now destruct (Nat.eqb (missedFrames st) 0).
Qed.

Lemma actualDetectionsCount_boxes (e : Engine) :
  actualDetectionsCount e = length (activeBoxes (trackedFaceStates e)).
Proof. unfold actualDetectionsCount, activeBoxes. now rewrite length_map. Qed.

(** Through the loop over the old tracks, the boxes of the detections are
    those the matched tracks hold together with those still unmatched. *)
Lemma trackLoop_boxes (canvasWidth centerLineX : Q) (entries : JsMap)
    (p p' : Pass) :
  NoDup (keys (NEXT_FRAME_TRACKED_FACES p) ++ keys entries) ->
  trackLoop canvasWidth centerLineX entries p = Some p' ->
  Permutation
    (activeBoxes (NEXT_FRAME_TRACKED_FACES p)
     ++ map Det.boundingBox (unmatchedDetections p))
    (activeBoxes (NEXT_FRAME_TRACKED_FACES p')
     ++ map Det.boundingBox (unmatchedDetections p')).
Proof.
  intros N E.
  apply (trackLoop_preserves canvasWidth centerLineX
           (fun _ q =>
              Permutation
                (activeBoxes (NEXT_FRAME_TRACKED_FACES p)
                 ++ map Det.boundingBox (unmatchedDetections p))
                (activeBoxes (NEXT_FRAME_TRACKED_FACES q)
                 ++ map Det.boundingBox (unmatchedDetections q))))
    with (entries := entries) (p := p); auto.
  intros k st rest q q' HI _ _ H. step_inv H.
  - eapply perm_trans; [exact HI|].
    rewrite activeBoxes_app, <- app_assoc. apply Permutation_app_head.
    pose proof (updateMatched_fields st (Det.boundingBox dx) canvasWidth
                  centerLineX (curEnterCount q) (curExitCount q)) as F.
    simpl in F. rewrite Hupd in F. simpl in F.
    destruct F as (_ & _ & _ & F4 & F5).
    rewrite activeBoxes_single, F4, F5. simpl.
    apply splice1_perm in Hsplice.
    apply (Permutation_map Det.boundingBox) in Hsplice. exact Hsplice.
  - eapply perm_trans; [exact HI|].
    rewrite activeBoxes_app, activeBoxes_single. simpl.
    rewrite Nat.add_1_r. simpl. rewrite app_nil_r. apply Permutation_refl.
  - exact HI.
Qed.

Lemma map_get_spawned (canvasWidth centerLineX : Q) (ds : list Det.t) :
  forall n k st,
    map_get k (spawned canvasWidth centerLineX ds n) = Some st ->
    exists d, nth_error ds (k - n) = Some d /\ (n <= k)%nat /\
              st = newState canvasWidth centerLineX k d.
Proof.
  induction ds as [|d0 ds IH]; intros n k st H; simpl in H; [discriminate H|].
  destruct (Nat.eqb_spec k n) as [->|Nk].
  - inversion H; subst. exists d0. rewrite Nat.sub_diag. auto.
  - destruct (IH _ _ _ H) as (d & Hn & Hle & Hst).
    exists d. replace (k - n)%nat with (S (k - S n)) by lia. simpl.
    repeat split; auto; lia.
Qed.

(** A key the old map does not hold and the new map does belongs to a track
    created by this call. *)
Lemma detectFaces_new_track (e e' : Engine) (f : Frame) (k : nat)
    (st' : FaceState) :
  wf e ->
  detectFaces e f = Some e' ->
  map_get k (trackedFaceStates e) = None ->
  map_get k (trackedFaceStates e') = Some st' ->
  (nextTrackingId e <= k)%nat /\
  exists d, st' = newState (canvasWidth f) (centerLine f) k d.
Proof.
  intros W E Hold Hnew.
  destruct (detectFaces_lookup e e' f W E) as [_ L].
  apply map_get_None_keys in Hold.
  destruct (Nat.lt_ge_cases k (nextTrackingId e)) as [Hlt|Hge].
  { rewrite (L k Hlt Hold) in Hnew. discriminate Hnew. }
  split; [exact Hge|].
  destruct (detectFaces_decompose e f W) as (p & _ & E' & _ & B & _).
  rewrite E' in E. inversion E; subst e'; clear E. simpl in Hnew.
  rewrite app_nil_r in B. rewrite map_get_app in Hnew.
  rewrite map_get_fresh in Hnew.
  - apply map_get_spawned in Hnew. destruct Hnew as (d & _ & _ & ->).
    now exists d.
  - intro H. rewrite Forall_forall in B. specialize (B k H). lia.
Qed.

Lemma passAt_None (e : Engine) (f : Frame) (k : nat) :
  passAt e f k = None -> map_get k (trackedFaceStates e) = None.
Proof.
  intro H. destruct (map_get k (trackedFaceStates e)) as [st|] eqn:G;
    [|reflexivity].
  destruct (passBefore_exists (canvasWidth f) (centerLine f) _ (passStart e f)
              _ _ G) as [pk Hp].
  unfold passAt in H. congruence.
Qed.

(** C10: after every call on a reachable state, the tracks with
    [missedFrames = 0] are as many as the detections of that call, and the
    boxes they hold are the detections' boxes, each once; a track that
    found no detection has [missedFrames] at least 1, every other track of
    the new map (matched or just created) has [missedFrames = 0]. *)
Theorem active_tracks_are_detections :
  forall (fs : list Frame) (e : Engine) (f : Frame),
    run init fs = Some e ->
    exists e',
      detectFaces e f = Some e' /\
      actualDetectionsCount e' = length (detections f) /\
      Permutation (activeBoxes (trackedFaceStates e'))
        (map Det.boundingBox (detections f)) /\
      (forall k st', map_get k (trackedFaceStates e') = Some st' ->
         if missesFrame e f k then (1 <= missedFrames st')%nat
         else missedFrames st' = 0%nat).
Proof.
  intros fs e f R. pose proof (run_wf fs init e init_wf R) as W.
  destruct (detectFaces_decompose e f W) as (p & Hp & E & _).
  eexists. split; [exact E|].
  assert (HP : Permutation
                 (activeBoxes
                    (NEXT_FRAME_TRACKED_FACES p
                     ++ spawned (canvasWidth f) (centerLine f)
                          (unmatchedDetections p) (nextTrackingId e)))
                 (map Det.boundingBox (detections f))).
  { rewrite activeBoxes_app, activeBoxes_spawned. apply Permutation_sym.
    exact (trackLoop_boxes (canvasWidth f) (centerLine f) (trackedFaceStates e)
             (passStart e f) p (wf_NoDup e W) Hp). }
  split; [|split; [exact HP|]].
  - rewrite actualDetectionsCount_boxes. simpl.
    apply Permutation_length in HP. now rewrite length_map in HP.
  - intros k st' G. unfold missesFrame.
    destruct (passAt e f k) as [[pk st]|] eqn:P.
    + destruct (detectFaces_lookup e _ f W E) as [L _].
      rewrite (L _ _ _ P) in G. unfold outcome in G.
      destruct (findBestMatch (canvasWidth f) st (unmatchedDetections pk))
        as [[i m]|].
      * destruct (nth_error (unmatchedDetections pk) i) as [d|];
          [|discriminate G].
        inversion G; subst st'.
        exact (proj1 (proj2 (proj2 (proj2 (updateMatched_fields _ _ _ _ _ _))))).
      * destruct (missedFrames st + 1 <=? MAX_MISS_FRAMES)%nat;
          [|discriminate G].
        inversion G; subst st'. simpl. lia.
    + apply passAt_None in P.
      destruct (detectFaces_new_track e _ f k st' W E P G) as (_ & d & ->).
      reflexivity.
Qed.

Lemma active_tracks_are_detections_witness :
  exists e e',
    run init [twoFaces] = Some e /\
    detectFaces e leftCrosses = Some e' /\
    actualDetectionsCount e' = 1%nat /\
    map (fun entry => missedFrames (snd entry)) (trackedFaceStates e')
    = [1; 0]%nat.
Proof.
  destruct (run init [twoFaces]) as [e|] eqn:R; [|discriminate R].
  destruct (active_tracks_are_detections [twoFaces] e leftCrosses R)
    as (e' & E & C & _).
  exists e, e'. split; [reflexivity|]. split; [exact E|]. split; [exact C|].
  vm_compute in R. inversion R; subst e.
  vm_compute in E. inversion E. reflexivity.
Defined.

(** ** The coordinate helper in the engine *)

(** C7: for every box and frame width the normalizer returns
    [(frame_width - originX - width) + width / 2], and it reads nothing of
    the box but [originX] and [width].  That one expression is what the
    engine measures and stores everywhere: a track finds no match exactly
    when the expression of every detection in the pool is 100 or more from
    its stored centre, a match is at the least such distance, and after a
    call on a reachable state every track backed by a detection, matched or
    just created, stores the expression of the box it holds. *)
Theorem getFlippedBoxCenter_spec :
  forall (fs : list Frame) (e : Engine) (f : Frame),
    run init fs = Some e ->
    (forall b W,
       getFlippedBoxCenter b W = (W - originX b - width b) + width b / 2) /\
    (forall b b' W,
       originX b' = originX b -> width b' = width b ->
       getFlippedBoxCenter b' W = getFlippedBoxCenter b W) /\
    (forall b W oldState line ec xc,
       prevCenterFlippedX (fst (fst (updateMatched oldState b W line ec xc)))
       = getFlippedBoxCenter b W) /\
    (forall W line n d,
       prevCenterFlippedX (newState W line n d)
       = getFlippedBoxCenter (Det.boundingBox d) W) /\
    (forall W oldState pool,
       let dist := fun d =>
         Qabs ((W - originX (Det.boundingBox d) - width (Det.boundingBox d))
               + width (Det.boundingBox d) / 2
               - prevCenterFlippedX oldState) in
       (findBestMatch W oldState pool = None <->
        Forall (fun d => 100 <= dist d) pool) /\
       (forall i m,
          findBestMatch W oldState pool = Some (i, m) ->
          exists d, nth_error pool i = Some d /\ m = dist d /\ m < 100 /\
                    Forall (fun d' => m <= dist d') pool)) /\
    exists e',
      detectFaces e f = Some e' /\
      forall k st',
        map_get k (trackedFaceStates e') = Some st' ->
        missedFrames st' = 0%nat ->
        prevCenterFlippedX st'
        = (canvasWidth f - originX (boundingBox st') - width (boundingBox st'))
          + width (boundingBox st') / 2.
Proof.
  intros fs e f R. pose proof (run_wf fs init e init_wf R) as W.
  split; [reflexivity|]. split.
  { intros b b' W0 Hx Hw. unfold getFlippedBoxCenter. now rewrite Hx, Hw. }
  split.
  { intros b W0 st line ec xc.
    exact (proj1 (proj2 (updateMatched_fields st b W0 line ec xc))). }
  split; [reflexivity|]. split.
  { intros W0 st pool dist. split.
    - exact (findBestMatch_None W0 st pool).
    - intros i m H. destruct (findBestMatch_Some _ _ _ _ _ H)
        as (d & Hn & Hm & Hlt & Hall & _).
      exists d. auto. }
  destruct (detectFaces_total e f) as [e' E]. exists e'.
  split; [exact E|]. intros k st' G' M.
  destruct (passAt e f k) as [[p st]|] eqn:P.
  - destruct (detectFaces_lookup e e' f W E) as [L _].
    rewrite (L _ _ _ P) in G'. unfold outcome in G'.
    destruct (findBestMatch (canvasWidth f) st (unmatchedDetections p))
      as [[i m]|].
    + destruct (nth_error (unmatchedDetections p) i) as [d|];
        [|discriminate G'].
      inversion G'; subst st'.
      destruct (updateMatched_fields st (Det.boundingBox d) (canvasWidth f)
                  (centerLine f) (curEnterCount p) (curExitCount p))
        as (_ & F2 & _ & _ & F5).
      rewrite F2, F5. reflexivity.
    + destruct (missedFrames st + 1 <=? MAX_MISS_FRAMES)%nat;
        [|discriminate G'].
      inversion G'; subst st'. simpl in M. lia.
  - apply passAt_None in P.
    destruct (detectFaces_new_track e e' f k st' W E P G') as (_ & d & ->).
    reflexivity.
Qed.

Lemma getFlippedBoxCenter_spec_witness :
  exists e e' st',
    run init [twoFaces] = Some e /\
    getFlippedBoxCenter (box 270 40) 640 == 350 /\
    detectFaces e leftCrosses = Some e' /\
    map_get 1 (trackedFaceStates e') = Some st' /\
    missedFrames st' = 0%nat /\
    prevCenterFlippedX st'
    = (640 - originX (boundingBox st') - width (boundingBox st'))
      + width (boundingBox st') / 2 /\
    prevCenterFlippedX st' == 350.
Proof.
  assert (HR : exists e0, run init [twoFaces] = Some e0)
    by (vm_compute; eexists; reflexivity).
  destruct HR as [e R].
  destruct (getFlippedBoxCenter_spec [twoFaces] e leftCrosses R)
    as (H1 & _ & _ & _ & _ & e' & E & H).
  assert (G : exists s, map_get 1 (trackedFaceStates e') = Some s /\
                        missedFrames s = 0%nat /\
                        prevCenterFlippedX s == 350).
  { vm_compute in R. inversion R; subst e. vm_compute in E.
    inversion E; subst e'. vm_compute. eexists.
    split; [reflexivity|]. split; reflexivity. }
  destruct G as (st' & G & M & C).
  exists e, e', st'. split; [exact R|].
  split; [rewrite H1; reflexivity|].
  split; [exact E|]. split; [exact G|]. split; [exact M|].
  split; [exact (H 1%nat st' G M)|exact C].
Defined.

(** ** New tracks *)

Lemma run_app (fs1 fs2 : list Frame) : forall e,
  run e (fs1 ++ fs2)
  = match run e fs1 with
    | Some e1 => run e1 fs2
    | None => None
    end.
Proof.
  induction fs1 as [|f fs1 IH]; intro e; simpl; [reflexivity|].
  destruct (detectFaces e f); [apply IH|reflexivity].
Qed.

Lemma spawnLoop_next (canvasWidth centerLineX : Q) (ds : list Det.t) :
  forall next n,
    snd (spawnLoop canvasWidth centerLineX ds next n) = (n + length ds)%nat.
Proof.
  induction ds as [|d ds IH]; intros next n; simpl; [lia|].
  rewrite IH. lia.
Qed.

Lemma detectFaces_next_mono (e e' : Engine) (f : Frame) :
  detectFaces e f = Some e' -> (nextTrackingId e <= nextTrackingId e')%nat.
Proof.
  unfold detectFaces.
  destruct (trackLoop (canvasWidth f) (centerLine f) (trackedFaceStates e)
              (passStart e f)) as [p|]; [|discriminate].
  pose proof (spawnLoop_next (canvasWidth f) (centerLine f)
                (unmatchedDetections p) (NEXT_FRAME_TRACKED_FACES p)
                (nextTrackingId e)) as H.
  destruct (spawnLoop _ _ _ _ _) as [next n]. simpl in H.
  intro E. inversion E; subst. simpl. lia.
Qed.

Lemma run_next_mono (fs : list Frame) : forall e e',
  run e fs = Some e' -> (nextTrackingId e <= nextTrackingId e')%nat.
Proof.
  induction fs as [|f fs IH]; intros e e' R; simpl in R.
  - inversion R; subst. lia.
  - destruct (detectFaces e f) as [e1|] eqn:E; [|discriminate R].
    apply detectFaces_next_mono in E. apply IH in R. lia.
Qed.

(** C5: on a reachable state, the call returns the tracks the matching pass
    kept, followed by exactly one new track per detection the pass left
    unmatched, in order.  The new track of the [i]-th such detection has the
    id [nextTrackingId + i], which no track of this or of any earlier state
    carries (ids are below the allocator, the allocator never decreases, and
    the keys of the new map are pairwise distinct); its centre is the
    detection's normalized centre, its side is Left exactly when that centre
    is strictly below [frame_width * 0.5] and Right exactly when it is not,
    both flags are unset and [missedFrames] is 0.  The counters the call
    returns are those the matching pass ended with: creating tracks adds
    nothing to them. *)
Theorem new_tracks_spec :
  forall (fs : list Frame) (e : Engine) (f : Frame),
    run init fs = Some e ->
    exists p e',
      trackLoop (canvasWidth f) (centerLine f) (trackedFaceStates e)
        (passStart e f) = Some p /\
      detectFaces e f = Some e' /\
      length (trackedFaceStates e')
      = (length (NEXT_FRAME_TRACKED_FACES p)
         + length (unmatchedDetections p))%nat /\
      firstn (length (NEXT_FRAME_TRACKED_FACES p)) (trackedFaceStates e')
      = NEXT_FRAME_TRACKED_FACES p /\
      (forall i d,
         nth_error (unmatchedDetections p) i = Some d ->
         nth_error (trackedFaceStates e')
           (length (NEXT_FRAME_TRACKED_FACES p) + i)
         = Some ((nextTrackingId e + i)%nat,
                 {| id := (nextTrackingId e + i)%nat;
                    prevCenterFlippedX :=
                      getFlippedBoxCenter (Det.boundingBox d) (canvasWidth f);
                    lastSide :=
                      sideOf
                        (getFlippedBoxCenter (Det.boundingBox d) (canvasWidth f))
                        (canvasWidth f * 0.5);
                    isEnterCounted := false;
                    isExitCounted := false;
                    missedFrames := 0;
                    boundingBox := Det.boundingBox d |})) /\
      (forall i d,
         nth_error (unmatchedDetections p) i = Some d ->
         exists st,
           nth_error (trackedFaceStates e')
             (length (NEXT_FRAME_TRACKED_FACES p) + i)
           = Some ((nextTrackingId e + i)%nat, st) /\
           (lastSide st = Left <->
            getFlippedBoxCenter (Det.boundingBox d) (canvasWidth f)
            < canvasWidth f * 0.5) /\
           (lastSide st = Right <->
            canvasWidth f * 0.5
            <= getFlippedBoxCenter (Det.boundingBox d) (canvasWidth f))) /\
      nextTrackingId e'
      = (nextTrackingId e + length (unmatchedDetections p))%nat /\
      (forall k, In k (keys (NEXT_FRAME_TRACKED_FACES p)) ->
         (k < nextTrackingId e)%nat) /\
      (forall fs1 fs2 e1 k,
         fs = fs1 ++ fs2 -> run init fs1 = Some e1 ->
         In k (keys (trackedFaceStates e1)) -> (k < nextTrackingId e)%nat) /\
      NoDup (keys (trackedFaceStates e')) /\
      enterCount e' = curEnterCount p /\
      exitCount e' = curExitCount p.
Proof.
  intros fs e f R. pose proof (run_wf fs init e init_wf R) as W.
  destruct (detectFaces_decompose e f W) as (p & Hp & E & _ & B & _).
  rewrite app_nil_r in B.
  exists p. eexists. split; [exact Hp|]. split; [exact E|].
  pose proof (detectFaces_wf e _ f W E) as W'.
  assert (Hnth : forall i d,
            nth_error (unmatchedDetections p) i = Some d ->
            nth_error
              (NEXT_FRAME_TRACKED_FACES p
               ++ spawned (canvasWidth f) (centerLine f)
                    (unmatchedDetections p) (nextTrackingId e))
              (length (NEXT_FRAME_TRACKED_FACES p) + i)
            = Some ((nextTrackingId e + i)%nat,
                    newState (canvasWidth f) (centerLine f)
                      (nextTrackingId e + i) d)).
  { intros i d Hn. rewrite nth_error_app2 by lia.
    replace (length (NEXT_FRAME_TRACKED_FACES p) + i
             - length (NEXT_FRAME_TRACKED_FACES p))%nat with i by lia.
    exact (nth_error_spawned _ _ _ _ _ _ Hn). }
  simpl.
  split; [now rewrite length_app, length_spawned|].
  split.
  { rewrite firstn_app, Nat.sub_diag, firstn_all. simpl. apply app_nil_r. }
  split; [exact Hnth|].
  split.
  { intros i d Hn. eexists. split; [exact (Hnth i d Hn)|].
    simpl. split; [apply sideOf_Left|apply sideOf_Right]. }
  split; [reflexivity|].
  split.
  { intros k Hk. rewrite Forall_forall in B. now apply B. }
  split.
  { intros fs1 fs2 e1 k -> R1 Hk.
    rewrite run_app, R1 in R. apply run_next_mono in R.
    pose proof (run_wf fs1 init e1 init_wf R1) as [_ B1 _].
    rewrite Forall_forall in B1. specialize (B1 k Hk). lia. }
  split; [exact (wf_NoDup _ W')|]. split; reflexivity.
Qed.

Lemma new_tracks_spec_witness :
  exists e p e',
    run init [twoFaces; leftCrosses] = Some e /\
    trackLoop 640 (centerLine twoNewcomers) (trackedFaceStates e)
      (passStart e twoNewcomers) = Some p /\
    detectFaces e twoNewcomers = Some e' /\
    unmatchedDetections p = [det 560 40; det 20 40] /\
    keys (trackedFaceStates e') = [0; 1; 2; 3]%nat /\
    map (fun entry => lastSide (snd entry)) (trackedFaceStates e')
    = [Right; Right; Left; Right] /\
    enterCount e' = curEnterCount p /\
    exitCount e' = curExitCount p.
Proof.
  assert (HR : exists e0, run init [twoFaces; leftCrosses] = Some e0)
    by (vm_compute; eexists; reflexivity).
  destruct HR as [e R].
  destruct (new_tracks_spec [twoFaces; leftCrosses] e twoNewcomers R)
    as (p & e' & Hp & E & _ & _ & _ & _ & _ & _ & _ & _ & Hec & Hxc).
  exists e, p, e'. split; [exact R|].
  split; [exact Hp|]. split; [exact E|].
  vm_compute in R. inversion R; subst e.
  vm_compute in Hp. inversion Hp; subst p.
  vm_compute in E. inversion E; subst e'.
  repeat split.
Defined.

(** ** Missed frames *)

Lemma missesFrame_true (e : Engine) (f : Frame) (k : nat) :
  missesFrame e f k = true ->
  exists p oldState,
    passAt e f k = Some (p, oldState) /\
    findBestMatch (canvasWidth f) oldState (unmatchedDetections p) = None.
Proof.
  unfold missesFrame. destruct (passAt e f k) as [[p st]|]; [|discriminate].
  destruct (findBestMatch (canvasWidth f) st (unmatchedDetections p)) eqn:F;
    [discriminate|].
  intros _. now exists p, st.
Qed.

Lemma passAt_get (e : Engine) (f : Frame) (k : nat) (p : Pass)
    (oldState : FaceState) :
  passAt e f k = Some (p, oldState) ->
  map_get k (trackedFaceStates e) = Some oldState.
Proof. apply passBefore_get. Qed.

(** The state a call leaves for a track that found no detection. *)
Lemma miss_step (e e' : Engine) (f : Frame) (k : nat) (oldState : FaceState) :
  wf e ->
  map_get k (trackedFaceStates e) = Some oldState ->
  missesFrame e f k = true ->
  detectFaces e f = Some e' ->
  map_get k (trackedFaceStates e')
  = if (missedFrames oldState + 1 <=? MAX_MISS_FRAMES)%nat
    then Some (withMissedFrames oldState (missedFrames oldState + 1))
    else None.
Proof.
  intros W G M E. destruct (missesFrame_true e f k M) as (p & st & P & F).
  pose proof (passAt_get e f k p st P) as G'.
  assert (st = oldState) by congruence. subst st.
  destruct (detectFaces_lookup e e' f W E) as [L _].
  rewrite (L _ _ _ P). unfold outcome. now rewrite F.
Qed.

(** The state a call leaves for a track that found a detection. *)
Lemma match_step (e e' : Engine) (f : Frame) (k : nat) (oldState : FaceState) :
  wf e ->
  map_get k (trackedFaceStates e) = Some oldState ->
  missesFrame e f k = false ->
  detectFaces e f = Some e' ->
  exists st', map_get k (trackedFaceStates e') = Some st' /\
              missedFrames st' = 0%nat.
Proof.
  intros W G M E.
  destruct (passBefore_exists (canvasWidth f) (centerLine f) _ (passStart e f)
              _ _ G) as [p P].
  fold (passAt e f k) in P.
  unfold missesFrame in M. rewrite P in M.
  destruct (detectFaces_lookup e e' f W E) as [L _].
  rewrite (L _ _ _ P). unfold outcome.
  destruct (findBestMatch (canvasWidth f) oldState (unmatchedDetections p))
    as [[i m]|] eqn:F; [|discriminate M].
  destruct (findBestMatch_Some _ _ _ _ _ F) as (d & Hn & _). rewrite Hn.
  eexists. split; [reflexivity|].
  exact (proj1 (proj2 (proj2 (proj2 (updateMatched_fields _ _ _ _ _ _))))).
Qed.

Lemma consecutive_misses (fs : list Frame) :
  forall (e : Engine) (k : nat) (oldState : FaceState),
    wf e ->
    map_get k (trackedFaceStates e) = Some oldState ->
    missesAll e fs k = true ->
    (missedFrames oldState + length fs <= MAX_MISS_FRAMES)%nat ->
    exists e' st',
      run e fs = Some e' /\ wf e' /\
      map_get k (trackedFaceStates e') = Some st' /\
      missedFrames st' = (missedFrames oldState + length fs)%nat.
Proof.
  induction fs as [|f fs IH]; intros e k st W G M B; simpl in *.
  - exists e, st. rewrite Nat.add_0_r. auto.
  - apply andb_true_iff in M. destruct M as [M1 M2].
    destruct (detectFaces e f) as [e1|] eqn:E; [|discriminate M2].
    pose proof (detectFaces_wf e e1 f W E) as W1.
    pose proof (miss_step e e1 f k st W G M1 E) as G1.
    destruct (Nat.leb_spec (missedFrames st + 1) MAX_MISS_FRAMES) as [L|L];
      [|exfalso; lia].
    destruct (IH e1 k _ W1 G1 M2) as (e' & st' & R & W' & G' & Hm).
    { simpl. lia. }
    exists e', st'. simpl in Hm.
    split; [exact R|]. split; [exact W'|]. split; [exact G'|]. lia.
Qed.

(** C4: for a track of a reachable state, a call in which it is matched
    leaves it with [missedFrames = 0]; a call in which it is not matched
    adds exactly 1 to [missedFrames] and keeps the track iff the new value
    is at most the tolerance 5, dropping it otherwise.  A track last matched
    (or created) in the current state that misses five calls in a row is
    still tracked, with [missedFrames = 5], and is gone after a sixth miss. *)
Theorem missed_frames_rule :
  forall (fs : list Frame) (e : Engine) (f : Frame) (k : nat)
         (oldState : FaceState),
    run init fs = Some e ->
    map_get k (trackedFaceStates e) = Some oldState ->
    exists e',
      detectFaces e f = Some e' /\
      (missesFrame e f k = false ->
       exists st', map_get k (trackedFaceStates e') = Some st' /\
                   missedFrames st' = 0%nat) /\
      (missesFrame e f k = true ->
       ((missedFrames oldState + 1 <= 5)%nat ->
        exists st', map_get k (trackedFaceStates e') = Some st' /\
                    missedFrames st' = (missedFrames oldState + 1)%nat) /\
       ((5 < missedFrames oldState + 1)%nat ->
        map_get k (trackedFaceStates e') = None)) /\
      (forall fs5,
         missedFrames oldState = 0%nat -> length fs5 = 5%nat ->
         missesAll e fs5 k = true ->
         exists e5 st5,
           run e fs5 = Some e5 /\
           map_get k (trackedFaceStates e5) = Some st5 /\
           missedFrames st5 = 5%nat /\
           forall f6, missesFrame e5 f6 k = true ->
             exists e6, detectFaces e5 f6 = Some e6 /\
                        map_get k (trackedFaceStates e6) = None).
Proof.
  intros fs e f k st R G. pose proof (run_wf fs init e init_wf R) as W.
  destruct (detectFaces_total e f) as [e' E]. exists e'.
  split; [exact E|]. split; [|split].
  - intro M. exact (match_step e e' f k st W G M E).
  - intro M. pose proof (miss_step e e' f k st W G M E) as H.
    change MAX_MISS_FRAMES with 5%nat in H. split; intro L.
    + apply Nat.leb_le in L. rewrite L in H. eexists. split; [exact H|].
      reflexivity.
    + apply Nat.leb_gt in L. now rewrite L in H.
  - intros fs5 Hm Hl M.
    destruct (consecutive_misses fs5 e k st W G M) as (e5 & st5 & R5 & W5 & G5 & H5).
    { rewrite Hm, Hl. unfold MAX_MISS_FRAMES. lia. }
    exists e5, st5. rewrite Hm, Hl in H5. repeat split; auto.
    intros f6 M6. destruct (detectFaces_total e5 f6) as [e6 E6].
    exists e6. split; [exact E6|].
    rewrite (miss_step e5 e6 f6 k st5 W5 G5 M6 E6), H5. reflexivity.
Qed.

Lemma missed_frames_rule_witness :
  exists e oldState e5 st5 e6,
    run init [twoFaces] = Some e /\
    map_get 0 (trackedFaceStates e) = Some oldState /\
    run e [noFace; leftCrosses; noFace; leftReturns; noFace] = Some e5 /\
    map_get 0 (trackedFaceStates e5) = Some st5 /\
    missedFrames st5 = 5%nat /\
    detectFaces e5 noFace = Some e6 /\
    map_get 0 (trackedFaceStates e6) = None.
Proof.
  destruct (run init [twoFaces]) as [e|] eqn:R; [|discriminate R].
  destruct (map_get 0 (trackedFaceStates e)) as [oldState|] eqn:G;
    [|vm_compute in R; inversion R; subst e; discriminate G].
  destruct (missed_frames_rule [twoFaces] e noFace 0 oldState R G)
    as (_ & _ & _ & _ & H).
  assert (Hm : missedFrames oldState = 0%nat).
  { vm_compute in R. inversion R; subst e. vm_compute in G.
    inversion G; subst oldState. reflexivity. }
  assert (M : missesAll e [noFace; leftCrosses; noFace; leftReturns; noFace] 0
              = true).
  { vm_compute in R. inversion R; subst e. vm_compute. reflexivity. }
  destruct (H [noFace; leftCrosses; noFace; leftReturns; noFace] Hm eq_refl M)
    as (e5 & st5 & R5 & G5 & H5 & H6).
  assert (M6 : missesFrame e5 noFace 0 = true).
  { vm_compute in R. inversion R; subst e. vm_compute in R5.
    inversion R5; subst e5. vm_compute. reflexivity. }
  destruct (H6 noFace M6) as (e6 & E6 & G6).
  exists e, oldState, e5, st5, e6. auto 10.
Defined.

(** C6: a track of a reachable state that finds no detection in a call and
    is within the tolerance is kept with every field but [missedFrames] as
    it was: [id], centre, side, both flags and the box are those of the
    previous frame, and [missedFrames] is one more.  The iteration that
    handles it leaves both counters and the pool of detections as it found
    them. *)
Theorem ghosted_track_unchanged :
  forall (fs : list Frame) (e : Engine) (f : Frame) (k : nat)
         (oldState : FaceState),
    run init fs = Some e ->
    map_get k (trackedFaceStates e) = Some oldState ->
    missesFrame e f k = true ->
    (missedFrames oldState + 1 <= 5)%nat ->
    exists e' st' p p',
      detectFaces e f = Some e' /\
      map_get k (trackedFaceStates e') = Some st' /\
      id st' = id oldState /\
      prevCenterFlippedX st' = prevCenterFlippedX oldState /\
      lastSide st' = lastSide oldState /\
      isEnterCounted st' = isEnterCounted oldState /\
      isExitCounted st' = isExitCounted oldState /\
      boundingBox st' = boundingBox oldState /\
      missedFrames st' = (missedFrames oldState + 1)%nat /\
      passAt e f k = Some (p, oldState) /\
      processTrack (canvasWidth f) (centerLine f) p (k, oldState) = Some p' /\
      curEnterCount p' = curEnterCount p /\
      curExitCount p' = curExitCount p /\
      unmatchedDetections p' = unmatchedDetections p.
Proof.
  intros fs e f k st R G M L. pose proof (run_wf fs init e init_wf R) as W.
  destruct (detectFaces_total e f) as [e' E].
  pose proof (miss_step e e' f k st W G M E) as H.
  change MAX_MISS_FRAMES with 5%nat in H.
  apply Nat.leb_le in L. rewrite L in H.
  destruct (missesFrame_true e f k M) as (p & st0 & P & F).
  assert (st0 = st) by (apply passAt_get in P; congruence). subst st0.
  exists e', (withMissedFrames st (missedFrames st + 1)), p.
  unfold processTrack. rewrite F.
  change MAX_MISS_FRAMES with 5%nat. rewrite L.
  eexists. repeat split; auto.
Qed.

Lemma ghosted_track_unchanged_witness :
  exists e oldState e' st',
    run init [twoFaces] = Some e /\
    map_get 0 (trackedFaceStates e) = Some oldState /\
    missesFrame e leftCrosses 0 = true /\
    detectFaces e leftCrosses = Some e' /\
    map_get 0 (trackedFaceStates e') = Some st' /\
    st' = withMissedFrames oldState 1 /\
    enterCount e' = 1%nat.
Proof.
  destruct (run init [twoFaces]) as [e|] eqn:R; [|discriminate R].
  destruct (map_get 0 (trackedFaceStates e)) as [oldState|] eqn:G;
    [|vm_compute in R; inversion R; subst e; discriminate G].
  assert (M : missesFrame e leftCrosses 0 = true).
  { vm_compute in R. inversion R; subst e. vm_compute. reflexivity. }
  assert (L : (missedFrames oldState + 1 <= 5)%nat).
  { vm_compute in R. inversion R; subst e. vm_compute in G.
    inversion G; subst oldState. simpl. lia. }
  destruct (ghosted_track_unchanged [twoFaces] e leftCrosses 0 oldState R G M L)
    as (e' & st' & _ & _ & E & G' & _).
  exists e, oldState, e', st'.
  split; [reflexivity|]. split; [exact G|]. split; [exact M|].
  split; [exact E|]. split; [exact G'|].
  vm_compute in R. inversion R; subst e. vm_compute in G.
  inversion G; subst oldState. vm_compute in E. inversion E; subst e'.
  vm_compute in G'. inversion G'; subst st'. split; reflexivity.
Defined.

(** ** The matching pass *)

Lemma passBefore_split (canvasWidth centerLineX : Q) (pre post : JsMap)
    (k : nat) (oldState : FaceState) :
  ~ In k (keys pre) ->
  forall p,
    passBefore canvasWidth centerLineX (pre ++ (k, oldState) :: post) p k
    = match trackLoop canvasWidth centerLineX pre p with
      | Some p1 => Some (p1, oldState)
      | None => None
      end.
Proof.
  induction pre as [|[k0 st0] pre IH]; intros Hk p; simpl.
  - now rewrite Nat.eqb_refl.
  - simpl in Hk. destruct (Nat.eqb_spec k k0) as [->|N]; [tauto|].
    destruct (processTrack canvasWidth centerLineX p (k0, st0)) as [p1|];
      [|reflexivity].
    apply IH. tauto.
Qed.

Lemma processTrack_pool (canvasWidth centerLineX : Q) (p p' : Pass) (k : nat)
    (oldState : FaceState) :
  processTrack canvasWidth centerLineX p (k, oldState) = Some p' ->
  match findBestMatch canvasWidth oldState (unmatchedDetections p) with
  | Some (i, _) =>
      unmatchedDetections p'
      = firstn i (unmatchedDetections p) ++ skipn (S i) (unmatchedDetections p)
  | None => unmatchedDetections p' = unmatchedDetections p
  end.
Proof.
  unfold processTrack.
  destruct (findBestMatch canvasWidth oldState (unmatchedDetections p))
    as [[i m]|].
  - destruct (splice1 i (unmatchedDetections p)) as [[d rest]|] eqn:S;
      [|discriminate].
    destruct (updateMatched _ _ _ _ _ _) as [[st' ec] xc].
    intro H. inversion H; subst p'. simpl.
    exact (proj2 (splice1_nth _ _ _ _ S)).
  - destruct (missedFrames oldState + 1 <=? MAX_MISS_FRAMES)%nat;
      intro H; inversion H; subst p'; reflexivity.
Qed.

(** C3: in a reachable state the keys of the tracked map ascend strictly in
    insertion order, and the pass visits the tracks in that order: when it
    reaches a track, exactly the tracks before it (all with smaller ids)
    have been handled, and the pool holds the detections none of them took.
    The track takes the first detection of the pool at the least absolute
    distance between normalized centre and stored centre, provided that
    distance is strictly below 100, and takes none when every distance is
    100 or more.  The detection taken leaves the pool at its index and
    nothing else changes in the pool, so a track takes at most one detection
    and a detection is taken at most once: the boxes of the frame are, each
    once, those the matched tracks hold and those left in the pool. *)
Theorem matching_pass_spec :
  forall (fs : list Frame) (e : Engine) (f : Frame),
    run init fs = Some e ->
    StronglySorted lt (keys (trackedFaceStates e)) /\
    (forall pre k oldState post,
       trackedFaceStates e = pre ++ (k, oldState) :: post ->
       exists p p',
         Forall (fun k' => (k' < k)%nat) (keys pre) /\
         trackLoop (canvasWidth f) (centerLine f) pre (passStart e f) = Some p /\
         passAt e f k = Some (p, oldState) /\
         Permutation (map Det.boundingBox (detections f))
           (activeBoxes (NEXT_FRAME_TRACKED_FACES p)
            ++ map Det.boundingBox (unmatchedDetections p)) /\
         processTrack (canvasWidth f) (centerLine f) p (k, oldState) = Some p' /\
         let dist := fun d =>
           Qabs (getFlippedBoxCenter (Det.boundingBox d) (canvasWidth f)
                 - prevCenterFlippedX oldState) in
         match findBestMatch (canvasWidth f) oldState (unmatchedDetections p)
         with
         | Some (i, m) =>
             exists d,
               nth_error (unmatchedDetections p) i = Some d /\
               m = dist d /\
               m < 100 /\
               Forall (fun d' => m <= dist d') (unmatchedDetections p) /\
               Forall (fun d' => m < dist d')
                 (firstn i (unmatchedDetections p)) /\
               unmatchedDetections p'
               = firstn i (unmatchedDetections p)
                 ++ skipn (S i) (unmatchedDetections p) /\
               length (unmatchedDetections p)
               = S (length (unmatchedDetections p'))
         | None =>
             Forall (fun d' => 100 <= dist d') (unmatchedDetections p) /\
             unmatchedDetections p' = unmatchedDetections p
         end) /\
    exists pfinal,
      trackLoop (canvasWidth f) (centerLine f) (trackedFaceStates e)
        (passStart e f) = Some pfinal /\
      Permutation (map Det.boundingBox (detections f))
        (activeBoxes (NEXT_FRAME_TRACKED_FACES pfinal)
         ++ map Det.boundingBox (unmatchedDetections pfinal)).
Proof.
  intros fs e f R. pose proof (run_wf fs init e init_wf R) as W.
  split; [exact (wf_sorted e W)|]. split.
  - intros pre k st post Hsplit.
    pose proof (wf_sorted e W) as S. rewrite Hsplit, keys_app in S.
    apply StronglySorted_app_iff in S. destruct S as (S1 & S2 & S12).
    assert (Hlt : Forall (fun k' => (k' < k)%nat) (keys pre)).
    { eapply Forall_impl; [|exact S12]. intros a Ha. simpl in Ha.
      now inversion Ha. }
    assert (Hk : ~ In k (keys pre)).
    { intro H. rewrite Forall_forall in Hlt. specialize (Hlt k H). lia. }
    destruct (trackLoop_total (canvasWidth f) (centerLine f) pre (passStart e f))
      as [p Hp].
    destruct (processTrack_total (canvasWidth f) (centerLine f) p (k, st))
      as [p' Hp'].
    exists p, p'. split; [exact Hlt|]. split; [exact Hp|]. split.
    { unfold passAt. rewrite Hsplit, passBefore_split by exact Hk.
      now rewrite Hp. }
    split.
    { apply (trackLoop_boxes (canvasWidth f) (centerLine f) pre
               (passStart e f) p); [|exact Hp].
      simpl. now apply StronglySorted_lt_NoDup. }
    split; [exact Hp'|].
    pose proof (processTrack_pool _ _ _ _ _ _ Hp') as Hpool. simpl.
    destruct (findBestMatch (canvasWidth f) st (unmatchedDetections p))
      as [[i m]|] eqn:F.
    + destruct (findBestMatch_Some _ _ _ _ _ F) as (d & Hn & Hm & Hlt' & Ha & Hf).
      exists d. repeat split; auto.
      rewrite Hpool, length_app, length_firstn, length_skipn.
      assert (i < length (unmatchedDetections p))%nat
        by (apply nth_error_Some; congruence).
      lia.
    + split; [|exact Hpool]. now apply findBestMatch_None.
  - destruct (detectFaces_decompose e f W) as (p & Hp & _).
    exists p. split; [exact Hp|].
    exact (trackLoop_boxes (canvasWidth f) (centerLine f) (trackedFaceStates e)
             (passStart e f) p (wf_NoDup e W) Hp).
Qed.

Lemma matching_pass_spec_witness :
  exists e,
    run init [twoFaces; newcomer] = Some e /\
    StronglySorted lt (keys (trackedFaceStates e)) /\
    keys (trackedFaceStates e) = [0; 1; 2]%nat.
Proof.
  destruct (run init [twoFaces; newcomer]) as [e|] eqn:R; [|discriminate R].
  destruct (matching_pass_spec [twoFaces; newcomer] e noFace R) as [S _].
  exists e. split; [reflexivity|]. split; [exact S|].
  vm_compute in R. inversion R. reflexivity.
Defined.

(** ** The one-shot flags *)

Lemma filter_none {A : Type} (g : A -> bool) (l : list A) :
  (forall x, In x l -> g x = false) -> filter g l = [].
Proof.
  induction l as [|a l IH]; intro H; simpl; [reflexivity|].
  rewrite (H a) by now left. apply IH. intros x Hx. apply H. now right.
Qed.

Lemma filter_keys (g : nat -> bool) (m : JsMap) :
  filter g (keys m) = keys (filter (fun entry => g (fst entry)) m).
Proof.
  induction m as [|[k v] m IH]; simpl; [reflexivity|].
  destruct (g k); simpl; now rewrite IH.
Qed.

Section Flag.

(** [proj] is one of the two flags and [sel] picks the counter that goes
    with it. *)
Variable proj : FaceState -> bool.
Variable sel : nat -> nat -> nat.

Hypothesis proj_matched : forall st b W c ec xc,
  proj st = true -> proj (fst (fst (updateMatched st b W c ec xc))) = true.

Hypothesis sel_matched : forall st b W c ec xc,
  sel (snd (fst (updateMatched st b W c ec xc)))
      (snd (updateMatched st b W c ec xc))
  = (sel ec xc
     + bit (proj (fst (fst (updateMatched st b W c ec xc))) && negb (proj st)))%nat.

Hypothesis proj_ghost : forall st n, proj (withMissedFrames st n) = proj st.

Hypothesis proj_new : forall W c n d, proj (newState W c n d) = false.

Lemma settled_step (e e' : Engine) (f : Frame) (k : nat) :
  wf e -> detectFaces e f = Some e' -> settled proj e k ->
  settled proj e' k /\ ~ In k (flips proj e e').
Proof.
  intros W E [Hk Hs].
  pose proof (detectFaces_next_mono e e' f E) as Hn.
  destruct (detectFaces_lookup e e' f W E) as [L1 L2].
  destruct (map_get k (trackedFaceStates e)) as [st|] eqn:G.
  - destruct Hs as [Hs|Hs]; [discriminate Hs|].
    assert (Hst : proj st = true) by (unfold flagOf in Hs; now rewrite G in Hs).
    destruct (passBefore_exists (canvasWidth f) (centerLine f) _
                (passStart e f) _ _ G) as [pk P].
    specialize (L1 k pk st P). split.
    + split; [lia|]. unfold flagOf. rewrite L1. unfold outcome.
      destruct (findBestMatch (canvasWidth f) st (unmatchedDetections pk))
        as [[i m]|].
      * destruct (nth_error (unmatchedDetections pk) i); [|now left].
        right. now apply proj_matched.
      * destruct (missedFrames st + 1 <=? MAX_MISS_FRAMES)%nat; [|now left].
        right. now rewrite proj_ghost.
    + unfold flips. rewrite filter_In. intros [_ H].
      apply andb_true_iff in H. destruct H as [_ H].
      unfold flagOf in H. rewrite G, Hst in H. discriminate H.
  - assert (G' : map_get k (trackedFaceStates e') = None).
    { apply L2; [exact Hk|]. now apply map_get_None_keys. }
    split.
    + split; [lia|now left].
    + unfold flips. rewrite filter_In. intros [_ H].
      unfold flagOf in H. rewrite G' in H. discriminate H.
Qed.

Lemma flips_settled (e e' : Engine) (f : Frame) (k : nat) :
  wf e -> detectFaces e f = Some e' -> In k (flips proj e e') ->
  settled proj e' k.
Proof.
  intros W E H. pose proof (detectFaces_wf e e' f W E) as [_ B _].
  unfold flips in H. apply filter_In in H. destruct H as [Hk H].
  apply andb_true_iff in H. destruct H as [H _]. split.
  - rewrite Forall_forall in B. now apply B.
  - now right.
Qed.

Lemma flips_NoDup (e e' : Engine) (f : Frame) :
  wf e -> detectFaces e f = Some e' -> NoDup (flips proj e e').
Proof.
  intros W E. apply NoDup_filter.
  exact (wf_NoDup e' (detectFaces_wf e e' f W E)).
Qed.

(** The counter grows by the number of tracks whose flag the call sets. *)
Lemma flips_count (e e' : Engine) (f : Frame) :
  wf e -> detectFaces e f = Some e' ->
  sel (enterCount e') (exitCount e')
  = (sel (enterCount e) (exitCount e) + length (flips proj e e'))%nat.
Proof.
  intros W E.
  destruct (detectFaces_decompose e f W) as (p & Hp & E' & S & B & _).
  rewrite app_nil_r in *.
  pose proof (detectFaces_wf e e' f W E) as W'.
  rewrite E' in E. inversion E; subst e'; clear E E'. simpl.
  set (psi := fun entry : nat * FaceState =>
                proj (snd entry)
                && negb (flagOf proj (trackedFaceStates e) (fst entry))).
  assert (HI : (forall k st, In (k, st) (@nil (nat * FaceState)) ->
                  flagOf proj (trackedFaceStates e) k = proj st) /\
               sel (curEnterCount p) (curExitCount p)
               = (sel (enterCount e) (exitCount e)
                  + length (filter psi (NEXT_FRAME_TRACKED_FACES p)))%nat).
  { apply (trackLoop_preserves (canvasWidth f) (centerLine f)
             (fun rest q =>
                (forall k st, In (k, st) rest ->
                   flagOf proj (trackedFaceStates e) k = proj st) /\
                sel (curEnterCount q) (curExitCount q)
                = (sel (enterCount e) (exitCount e)
                   + length (filter psi (NEXT_FRAME_TRACKED_FACES q)))%nat))
      with (entries := trackedFaceStates e) (p := passStart e f).
    - intros k st rest q q' [Hr Hc] _ _ H.
      assert (Hk : flagOf proj (trackedFaceStates e) k = proj st)
        by (apply Hr; now left).
      split; [intros k1 st1 H1; apply Hr; now right|].
      step_inv H.
      + rewrite filter_app, length_app. simpl. unfold psi at 2. simpl.
        rewrite Hk.
        pose proof (sel_matched st (Det.boundingBox dx) (canvasWidth f)
                      (centerLine f) (curEnterCount q) (curExitCount q)) as Hm.
        rewrite Hupd in Hm. simpl in Hm. rewrite Hm, Hc.
        destruct (proj stx && negb (proj st)); simpl; lia.
      + rewrite filter_app, length_app. simpl. unfold psi at 2. simpl.
        rewrite Hk, proj_ghost, andb_negb_r. simpl. lia.
      + exact Hc.
    - simpl. now apply wf_NoDup.
    - split; [|simpl; lia].
      intros k st H. unfold flagOf.
      now rewrite (map_get_NoDup k _ st (wf_NoDup e W) H).
    - exact Hp. }
  destruct HI as [_ HI]. rewrite HI. f_equal.
  unfold flips. simpl. rewrite keys_app, filter_app, length_app.
  rewrite (filter_none _ (keys (spawned _ _ _ _))).
  - simpl. rewrite Nat.add_0_r, filter_keys. unfold keys.
    rewrite length_map. f_equal. apply filter_ext_in.
    intros [k st] Hin. unfold psi. simpl. f_equal.
    unfold flagOf. rewrite map_get_app.
    rewrite (map_get_NoDup k _ st); [reflexivity| |exact Hin].
    now apply StronglySorted_lt_NoDup.
  - intros k Hk. rewrite keys_spawned in Hk. apply in_seq in Hk.
    apply andb_false_iff. left. unfold flagOf. rewrite map_get_app.
    rewrite map_get_fresh.
    + destruct (map_get k (spawned _ _ _ _)) as [st|] eqn:G; [|reflexivity].
      apply map_get_spawned in G. destruct G as (d & _ & _ & ->).
      apply proj_new.
    + intro H. rewrite Forall_forall in B. specialize (B k H). lia.
Qed.

Lemma events_settled (fs : list Frame) : forall e k,
  wf e -> settled proj e k -> ~ In k (flipEvents proj e fs).
Proof.
  induction fs as [|f fs IH]; intros e k W S; simpl; [tauto|].
  destruct (detectFaces e f) as [e'|] eqn:E; [|tauto].
  destruct (settled_step e e' f k W E S) as [S' N].
  intro H. apply in_app_or in H. destruct H as [H|H]; [tauto|].
  exact (IH e' k (detectFaces_wf e e' f W E) S' H).
Qed.

Lemma events_NoDup (fs : list Frame) : forall e,
  wf e -> NoDup (flipEvents proj e fs).
Proof.
  induction fs as [|f fs IH]; intros e W; simpl; [constructor|].
  destruct (detectFaces e f) as [e'|] eqn:E; [|constructor].
  pose proof (detectFaces_wf e e' f W E) as W'.
  apply NoDup_app; [exact (flips_NoDup e e' f W E)|exact (IH e' W')|].
  intros k Hk. apply events_settled; [exact W'|].
  exact (flips_settled e e' f k W E Hk).
Qed.

Lemma events_count (fs : list Frame) : forall e e',
  wf e -> run e fs = Some e' ->
  sel (enterCount e') (exitCount e')
  = (sel (enterCount e) (exitCount e) + length (flipEvents proj e fs))%nat.
Proof.
  induction fs as [|f fs IH]; intros e e' W R; simpl in *.
  - inversion R; subst. lia.
  - destruct (detectFaces e f) as [e1|] eqn:E; [|discriminate R].
    rewrite length_app, (IH e1 e' (detectFaces_wf e e1 f W E) R).
    rewrite (flips_count e e1 f W E). lia.
Qed.

End Flag.

Lemma enter_matched : forall st b W c ec xc,
  isEnterCounted st = true ->
  isEnterCounted (fst (fst (updateMatched st b W c ec xc))) = true.
Proof. intros. now apply updateMatched_flags. Qed.

Lemma exit_matched : forall st b W c ec xc,
  isExitCounted st = true ->
  isExitCounted (fst (fst (updateMatched st b W c ec xc))) = true.
Proof. intros. now apply updateMatched_flags. Qed.

Lemma enter_counted : forall st b W c ec xc,
  snd (fst (updateMatched st b W c ec xc))
  = (ec + bit (isEnterCounted (fst (fst (updateMatched st b W c ec xc)))
               && negb (isEnterCounted st)))%nat.
Proof. intros. apply updateMatched_counts. Qed.

Lemma exit_counted : forall st b W c ec xc,
  snd (updateMatched st b W c ec xc)
  = (xc + bit (isExitCounted (fst (fst (updateMatched st b W c ec xc)))
               && negb (isExitCounted st)))%nat.
Proof. intros. apply updateMatched_counts. Qed.

(** Membership of a track stored before and after a call among the flips of
    a flag. *)
Lemma flips_In (proj : FaceState -> bool) (e e' : Engine) (k : nat)
    (st st' : FaceState) :
  map_get k (trackedFaceStates e) = Some st ->
  map_get k (trackedFaceStates e') = Some st' ->
  (In k (flips proj e e') <-> proj st' = true /\ proj st = false).
Proof.
  intros G G'. unfold flips. rewrite filter_In. unfold flagOf.
  rewrite G, G'. rewrite andb_true_iff, negb_true_iff. split.
  - tauto.
  - intro H. split; [|exact H]. eapply map_get_keys; eassumption.
Qed.

(** C2: when a track of a reachable state is matched to a detection, the
    call stores for it the result of the matched update on that detection,
    and the iteration of the loop that handles the track ends with the
    counters that update returns.  The new side is Left iff the new centre
    is strictly below [frame_width * 0.5], and Right otherwise; stored side
    Left, new side Right and [entered] unset raise the entry counter by one
    and set [entered]; otherwise stored side Right, new side Left and
    [exited] unset raise the exit counter by one and set [exited]; in every
    other case no counter and no flag moves; the comparison uses the side
    stored before the call, and the side stored after it is the new side in
    all cases.  In the state the call returns, [enterCount] has grown by
    the number of tracks whose [entered] flag the call set, each counted
    once, and this track is one of them exactly in the first case; likewise
    for [exitCount] and the second case. *)
Theorem matched_update_rule :
  forall (fs : list Frame) (e : Engine) (f : Frame) (k : nat) (p : Pass)
         (oldState : FaceState) (i : nat) (m : Q),
    run init fs = Some e ->
    passAt e f k = Some (p, oldState) ->
    findBestMatch (canvasWidth f) oldState (unmatchedDetections p)
    = Some (i, m) ->
    exists d e' st' ec' xc',
      nth_error (unmatchedDetections p) i = Some d /\
      detectFaces e f = Some e' /\
      map_get k (trackedFaceStates e) = Some oldState /\
      map_get k (trackedFaceStates e') = Some st' /\
      updateMatched oldState (Det.boundingBox d) (canvasWidth f)
        (canvasWidth f * 0.5) (curEnterCount p) (curExitCount p)
      = (st', ec', xc') /\
      let c := getFlippedBoxCenter (Det.boundingBox d) (canvasWidth f) in
      let newSide := sideOf c (canvasWidth f * 0.5) in
      (newSide = Left <-> c < canvasWidth f * 0.5) /\
      (newSide = Right <-> ~ c < canvasWidth f * 0.5) /\
      (lastSide oldState = Left -> newSide = Right ->
       isEnterCounted oldState = false ->
       ec' = S (curEnterCount p) /\ isEnterCounted st' = true /\
       xc' = curExitCount p /\ isExitCounted st' = isExitCounted oldState) /\
      (lastSide oldState = Right -> newSide = Left ->
       isExitCounted oldState = false ->
       xc' = S (curExitCount p) /\ isExitCounted st' = true /\
       ec' = curEnterCount p /\ isEnterCounted st' = isEnterCounted oldState) /\
      (~ (lastSide oldState = Left /\ newSide = Right /\
          isEnterCounted oldState = false) ->
       ~ (lastSide oldState = Right /\ newSide = Left /\
          isExitCounted oldState = false) ->
       ec' = curEnterCount p /\ xc' = curExitCount p /\
       isEnterCounted st' = isEnterCounted oldState /\
       isExitCounted st' = isExitCounted oldState) /\
      lastSide st' = newSide /\
      prevCenterFlippedX st' = c /\
      missedFrames st' = 0%nat /\
      boundingBox st' = Det.boundingBox d /\
      (exists p',
         processTrack (canvasWidth f) (centerLine f) p (k, oldState) = Some p' /\
         curEnterCount p' = ec' /\ curExitCount p' = xc') /\
      enterCount e'
      = (enterCount e + length (flips isEnterCounted e e'))%nat /\
      exitCount e'
      = (exitCount e + length (flips isExitCounted e e'))%nat /\
      NoDup (flips isEnterCounted e e') /\
      NoDup (flips isExitCounted e e') /\
      (In k (flips isEnterCounted e e') <->
       lastSide oldState = Left /\ newSide = Right /\
       isEnterCounted oldState = false) /\
      (In k (flips isExitCounted e e') <->
       lastSide oldState = Right /\ newSide = Left /\
       isExitCounted oldState = false).
Proof.
  intros fs e f k p oldState i m R P F.
  pose proof (run_wf fs init e init_wf R) as W.
  destruct (detectFaces_total e f) as [e' E].
  destruct (findBestMatch_Some _ _ _ _ _ F) as (d & Hn & _).
  destruct (detectFaces_lookup e e' f W E) as [L _].
  specialize (L k p oldState P). unfold outcome in L. rewrite F, Hn in L.
  change (centerLine f) with (canvasWidth f * 0.5) in L.
  pose proof (updateMatched_crossing oldState (Det.boundingBox d) (canvasWidth f)
                (canvasWidth f * 0.5) (curEnterCount p) (curExitCount p)) as C.
  pose proof (updateMatched_fields oldState (Det.boundingBox d) (canvasWidth f)
                (canvasWidth f * 0.5) (curEnterCount p) (curExitCount p)) as D.
  pose proof (updateMatched_flip oldState (Det.boundingBox d) (canvasWidth f)
                (canvasWidth f * 0.5) (curEnterCount p) (curExitCount p)) as V.
  assert (HP : exists p',
             processTrack (canvasWidth f) (centerLine f) p (k, oldState)
             = Some p' /\
             curEnterCount p'
             = snd (fst (updateMatched oldState (Det.boundingBox d)
                           (canvasWidth f) (canvasWidth f * 0.5)
                           (curEnterCount p) (curExitCount p))) /\
             curExitCount p'
             = snd (updateMatched oldState (Det.boundingBox d)
                      (canvasWidth f) (canvasWidth f * 0.5)
                      (curEnterCount p) (curExitCount p))).
  { unfold processTrack. rewrite F.
    destruct (splice1_in_range (unmatchedDetections p) i) as (d' & rest & Hs).
    { eapply findBestMatch_in_range; eassumption. }
    rewrite Hs. destruct (splice1_nth _ _ _ _ Hs) as [Hn' _].
    assert (d' = d) by congruence. subst d'.
    change (centerLine f) with (canvasWidth f * 0.5).
    destruct (updateMatched oldState (Det.boundingBox d) (canvasWidth f)
                (canvasWidth f * 0.5) (curEnterCount p) (curExitCount p))
      as [[s1 a1] b1].
    eexists. split; [reflexivity|]. split; reflexivity. }
  destruct (updateMatched oldState (Det.boundingBox d) (canvasWidth f)
              (canvasWidth f * 0.5) (curEnterCount p) (curExitCount p))
    as [[st' ec'] xc'] eqn:U.
  simpl in L, C, D, V, HP.
  pose proof (passBefore_get _ _ _ _ _ _ _ P) as G.
  exists d, e', st', ec', xc'.
  split; [exact Hn|]. split; [exact E|]. split; [exact G|].
  split; [exact L|]. split; [exact U|].
  destruct C as (C1 & C2 & C3). destruct D as (_ & D2 & D3 & D4 & D5).
  destruct V as [V1 V2].
  split; [apply sideOf_Left|].
  split. { rewrite sideOf_Right. split; [apply Qle_not_lt|apply Qnot_lt_le]. }
  split; [exact C1|]. split; [exact C2|]. split; [exact C3|].
  split; [exact D3|]. split; [exact D2|]. split; [exact D4|].
  split; [exact D5|]. split; [exact HP|].
  split.
  { exact (flips_count isEnterCounted (fun a _ => a) enter_counted
             (fun _ _ => eq_refl) (fun _ _ _ _ => eq_refl) e e' f W E). }
  split.
  { exact (flips_count isExitCounted (fun _ b => b) exit_counted
             (fun _ _ => eq_refl) (fun _ _ _ _ => eq_refl) e e' f W E). }
  split; [exact (flips_NoDup isEnterCounted e e' f W E)|].
  split; [exact (flips_NoDup isExitCounted e e' f W E)|].
  split.
  - rewrite (flips_In isEnterCounted e e' k oldState st' G L). split.
    + intros [H1 H0]. destruct (V1 H0 H1) as [S1 S2].
      split; [exact S1|]. split; [|exact H0]. now rewrite <- D3.
    + intros (S1 & S2 & H0). split; [|exact H0].
      exact (proj1 (proj2 (C1 S1 S2 H0))).
  - rewrite (flips_In isExitCounted e e' k oldState st' G L). split.
    + intros [H1 H0]. destruct (V2 H0 H1) as [S1 S2].
      split; [exact S1|]. split; [|exact H0]. now rewrite <- D3.
    + intros (S1 & S2 & H0). split; [|exact H0].
      exact (proj1 (proj2 (C2 S1 S2 H0))).
Qed.

Lemma matched_update_rule_witness :
  exists e p oldState i m,
    run init [twoFaces] = Some e /\
    passAt e leftCrosses 1 = Some (p, oldState) /\
    findBestMatch 640 oldState (unmatchedDetections p) = Some (i, m) /\
    exists d e' st' ec' xc',
      nth_error (unmatchedDetections p) i = Some d /\
      detectFaces e leftCrosses = Some e' /\
      map_get 1 (trackedFaceStates e) = Some oldState /\
      map_get 1 (trackedFaceStates e') = Some st' /\
      lastSide oldState = Left /\ lastSide st' = Right /\
      ec' = 1%nat /\ xc' = 0%nat /\ isEnterCounted st' = true /\
      enterCount e = 0%nat /\ enterCount e' = 1%nat /\ exitCount e' = 0%nat /\
      flips isEnterCounted e e' = [1%nat].
Proof.
  do 5 eexists.
  split; [vm_compute; reflexivity|].
  split; [vm_compute; reflexivity|].
  split; [vm_compute; reflexivity|].
  destruct (matched_update_rule [twoFaces] _ leftCrosses 1 _ _ _ _
              eq_refl eq_refl eq_refl)
    as (d & e' & st' & ec' & xc' & H1 & H2 & H3 & H4 & H5 & _).
  exists d, e', st', ec', xc'.
  split; [exact H1|]. split; [exact H2|]. split; [exact H3|].
  split; [exact H4|].
  vm_compute in H1. inversion H1; subst d.
  vm_compute in H5. inversion H5; subst.
  vm_compute in H2. inversion H2; subst e'.
  repeat split.
Defined.

(** C1: over any sequence of calls from page load, no track appears twice
    among the events "the [entered] flag of this track became set", nor
    among those for [exited], however its side oscillates; [enterCount] is
    the number of the former events and [exitCount] the number of the
    latter, so a track adds at most 1 to each.  In every single call the
    counter grows by exactly the number of tracks whose flag the call sets,
    hence never decreases; a flag that is set stays set while the track
    lives; and a track that was not there before the call has both flags
    unset after it. *)
Theorem crossing_counted_once :
  forall (fs : list Frame) (e : Engine),
    run init fs = Some e ->
    NoDup (flipEvents isEnterCounted init fs) /\
    NoDup (flipEvents isExitCounted init fs) /\
    enterCount e = length (flipEvents isEnterCounted init fs) /\
    exitCount e = length (flipEvents isExitCounted init fs) /\
    forall f : Frame,
    exists e',
      detectFaces e f = Some e' /\
      enterCount e'
      = (enterCount e + length (flips isEnterCounted e e'))%nat /\
      exitCount e'
      = (exitCount e + length (flips isExitCounted e e'))%nat /\
      (enterCount e <= enterCount e')%nat /\
      (exitCount e <= exitCount e')%nat /\
      (forall k st st',
         map_get k (trackedFaceStates e) = Some st ->
         map_get k (trackedFaceStates e') = Some st' ->
         (isEnterCounted st = true -> isEnterCounted st' = true) /\
         (isExitCounted st = true -> isExitCounted st' = true)) /\
      (forall k st',
         map_get k (trackedFaceStates e) = None ->
         map_get k (trackedFaceStates e') = Some st' ->
         isEnterCounted st' = false /\ isExitCounted st' = false).
Proof.
  intros fs e R. pose proof (run_wf fs init e init_wf R) as W.
  split.
  { exact (events_NoDup isEnterCounted enter_matched (fun _ _ => eq_refl)
             fs init init_wf). }
  split.
  { exact (events_NoDup isExitCounted exit_matched (fun _ _ => eq_refl)
             fs init init_wf). }
  split.
  { exact (events_count isEnterCounted (fun a _ => a) enter_counted
             (fun _ _ => eq_refl) (fun _ _ _ _ => eq_refl) fs init e init_wf R). }
  split.
  { exact (events_count isExitCounted (fun _ b => b) exit_counted
             (fun _ _ => eq_refl) (fun _ _ _ _ => eq_refl) fs init e init_wf R). }
  intro f. destruct (detectFaces_total e f) as [e' E]. exists e'.
  pose proof (flips_count isEnterCounted (fun a _ => a) enter_counted
                (fun _ _ => eq_refl) (fun _ _ _ _ => eq_refl) e e' f W E) as C1.
  pose proof (flips_count isExitCounted (fun _ b => b) exit_counted
                (fun _ _ => eq_refl) (fun _ _ _ _ => eq_refl) e e' f W E) as C2.
  simpl in C1, C2.
  split; [exact E|]. split; [exact C1|]. split; [exact C2|].
  split; [lia|]. split; [lia|]. split.
  - intros k st st' G G'.
    assert (Hk : (k < nextTrackingId e)%nat).
    { destruct W as [_ B _]. rewrite Forall_forall in B. apply B.
      eapply map_get_keys; eassumption. }
    split; intro H.
    + destruct (settled_step isEnterCounted enter_matched (fun _ _ => eq_refl)
                  e e' f k W E) as [[_ [S|S]] _].
      * split; [exact Hk|]. right. unfold flagOf. now rewrite G.
      * congruence.
      * unfold flagOf in S. now rewrite G' in S.
    + destruct (settled_step isExitCounted exit_matched (fun _ _ => eq_refl)
                  e e' f k W E) as [[_ [S|S]] _].
      * split; [exact Hk|]. right. unfold flagOf. now rewrite G.
      * congruence.
      * unfold flagOf in S. now rewrite G' in S.
  - intros k st' G G'.
    destruct (detectFaces_new_track e e' f k st' W E G G') as (_ & d & ->).
    split; reflexivity.
Qed.

Lemma crossing_counted_once_witness :
  exists e,
    run init [twoFaces; leftCrosses; leftReturns; leftCrosses; leftReturns]
    = Some e /\
    enterCount e = 1%nat /\ exitCount e = 1%nat /\
    flipEvents isEnterCounted init
      [twoFaces; leftCrosses; leftReturns; leftCrosses; leftReturns]
    = [1%nat] /\
    flipEvents isExitCounted init
      [twoFaces; leftCrosses; leftReturns; leftCrosses; leftReturns]
    = [1%nat].
Proof.
  destruct (run init
              [twoFaces; leftCrosses; leftReturns; leftCrosses; leftReturns])
    as [e|] eqn:R; [|discriminate R].
  destruct (crossing_counted_once _ e R) as (_ & _ & C1 & C2 & _).
  exists e. split; [reflexivity|].
  split; [rewrite C1; vm_compute; reflexivity|].
  split; [rewrite C2; vm_compute; reflexivity|].
  split; vm_compute; reflexivity.
Defined.

(** ** Concrete runs *)

(** The centre of a 40 pixel face at [originX = 100] on a 640 pixel canvas. *)
Example center_of_mirrored_box : getFlippedBoxCenter (box 100 40) 640 == 520.
Proof. reflexivity. Qed.

(** A face that crosses the line, returns and crosses again is counted once
    in each direction. *)
Example oscillation_counts_once :
  option_map (fun e => (enterCount e, exitCount e))
    (run init [twoFaces; leftCrosses; leftReturns; leftCrosses; leftReturns])
  = Some (1, 1)%nat.
Proof. vm_compute. reflexivity. Qed.

(** A detection at distance exactly 100 from a track (290 to 390) is not
    matched: the track is ghosted and the detection starts track 2. *)
Example threshold_is_strict :
  option_map
    (fun e => map (fun entry => (fst entry, missedFrames (snd entry)))
                (trackedFaceStates e))
    (run init [twoFaces; mkFrame [det 100 40; det 230 40] 640])
  = Some [(0, 0); (1, 1); (2, 0)]%nat.
Proof. vm_compute. reflexivity. Qed.

(** Of two detections within reach of track 1 (displayed at 350 and at 300,
    the track at 290), the nearer one is matched and the other starts a new
    track. *)
Example nearer_detection_wins :
  option_map
    (fun e => map (fun entry => (fst entry, originX (boundingBox (snd entry))))
                (trackedFaceStates e))
    (run init [twoFaces; mkFrame [det 270 40; det 320 40] 640])
  = Some [(0%nat, 100); (1%nat, 320); (2%nat, 270)].
Proof. vm_compute. reflexivity. Qed.

(** Without detections a track survives five calls and is gone after the
    sixth. *)
Example tolerance_boundary :
  option_map (fun e => keys (trackedFaceStates e))
    (run init (oneFace :: repeat noFace 5)) = Some [0%nat] /\
  option_map (fun e => keys (trackedFaceStates e))
    (run init (oneFace :: repeat noFace 6)) = Some [].
Proof. split; vm_compute; reflexivity. Qed.

(** * Further properties of the engine *)

(** The state a concrete sequence of calls ends in, by evaluation. *)
Ltac run_concrete e R fs :=
  let H := fresh in
  assert (H : exists e0, run init fs = Some e0)
    by (vm_compute; eexists; reflexivity);
  destruct H as [e R].

(** The track stored under a key of a concrete state, by evaluation. *)
Ltac get_concrete st G k e R :=
  let H := fresh in
  assert (H : exists s, map_get k (trackedFaceStates e) = Some s)
    by (vm_compute in R; inversion R; vm_compute; eexists; reflexivity);
  destruct H as [st G].

(** ** Invariants of the stored states *)

(** A property of the stored states that the matched update, the ghosted
    copy and the creation of a track all establish holds after a call. *)
Lemma detectFaces_Forall (P : FaceState -> Prop) (e e' : Engine) (f : Frame) :
  wf e ->
  detectFaces e f = Some e' ->
  Forall P (values (trackedFaceStates e)) ->
  (forall st b ec xc, P st ->
     P (fst (fst (updateMatched st b (canvasWidth f) (centerLine f) ec xc)))) ->
  (forall st, P st -> (missedFrames st + 1 <= MAX_MISS_FRAMES)%nat ->
     P (withMissedFrames st (missedFrames st + 1))) ->
  (forall n d, P (newState (canvasWidth f) (centerLine f) n d)) ->
  Forall P (values (trackedFaceStates e')).
Proof.
  intros W E H0 Hm Hg Hn.
  destruct (detectFaces_decompose e f W) as (p & Hp & E' & _).
  rewrite E' in E. inversion E; subst e'; clear E E'. simpl.
  unfold values. rewrite map_app. apply Forall_app. split.
  - assert (HI : Forall P (values (NEXT_FRAME_TRACKED_FACES p)) /\
                 Forall P (values (@nil (nat * FaceState)))); [|exact (proj1 HI)].
    apply (trackLoop_preserves (canvasWidth f) (centerLine f)
             (fun rest q => Forall P (values (NEXT_FRAME_TRACKED_FACES q)) /\
                            Forall P (values rest)))
      with (entries := trackedFaceStates e) (p := passStart e f).
    + intros k st rest q q' [H1 H2] _ _ H. simpl in H2.
      inversion H2 as [|? ? Hst Hrest]; subst.
      split; [|exact Hrest].
      step_inv H.
      * unfold values. rewrite map_app. apply Forall_app. split; [exact H1|].
        constructor; [|constructor]. simpl.
        specialize (Hm st (Det.boundingBox dx) (curEnterCount q)
                      (curExitCount q) Hst).
        now rewrite Hupd in Hm.
      * unfold values. rewrite map_app. apply Forall_app. split; [exact H1|].
        constructor; [|constructor]. simpl. now apply Hg.
      * exact H1.
    + simpl. now apply wf_NoDup.
    + split; [constructor|exact H0].
    + exact Hp.
  - generalize (nextTrackingId e).
    induction (unmatchedDetections p) as [|d ds IH]; intro n; simpl;
      constructor; auto.
Qed.

Lemma run_Forall (P : FaceState -> Prop) (ok : Frame -> Prop) :
  (forall f st b ec xc, ok f -> P st ->
     P (fst (fst (updateMatched st b (canvasWidth f) (centerLine f) ec xc)))) ->
  (forall st, P st -> (missedFrames st + 1 <= MAX_MISS_FRAMES)%nat ->
     P (withMissedFrames st (missedFrames st + 1))) ->
  (forall f n d, ok f -> P (newState (canvasWidth f) (centerLine f) n d)) ->
  forall fs e e',
    wf e -> Forall ok fs -> Forall P (values (trackedFaceStates e)) ->
    run e fs = Some e' ->
    Forall P (values (trackedFaceStates e')).
Proof.
  intros Hm Hg Hn fs.
  induction fs as [|f fs IH]; intros e e' W Hok H0 R; simpl in R.
  - now inversion R; subst.
  - inversion Hok as [|? ? Hf Hfs]; subst.
    destruct (detectFaces e f) as [e1|] eqn:E; [|discriminate R].
    apply (IH e1 e' (detectFaces_wf e e1 f W E) Hfs); [|exact R].
    apply (detectFaces_Forall P e e1 f W E H0); auto.
Qed.

(** X1: in every state the script can reach, each stored track carries its
    own map key in [id] and has [missedFrames] at most 5. *)
Theorem stored_tracks_bounded :
  forall (fs : list Frame) (e : Engine) (k : nat) (st : FaceState),
    run init fs = Some e ->
    map_get k (trackedFaceStates e) = Some st ->
    id st = k /\ (missedFrames st <= 5)%nat.
Proof.
  intros fs e k st R G. pose proof (run_wf fs init e init_wf R) as W.
  apply map_get_In in G. split.
  - pose proof (wf_id e W) as Hid. rewrite Forall_forall in Hid.
    exact (Hid _ G).
  - assert (F : Forall (fun s => (missedFrames s <= 5)%nat)
                  (values (trackedFaceStates e))).
    { apply (run_Forall (fun s => (missedFrames s <= 5)%nat) (fun _ => True))
        with (fs := fs) (e := init).
      - intros f s b ec xc Hf Hs.
        rewrite (proj1 (proj2 (proj2 (proj2
                  (updateMatched_fields s b (canvasWidth f) (centerLine f)
                     ec xc))))). lia.
      - intros s Hs L. simpl. exact L.
      - intros f n d Hf. simpl. lia.
      - exact init_wf.
      - apply Forall_forall. auto.
      - constructor.
      - exact R. }
    rewrite Forall_forall in F. apply F. apply (in_map snd) in G. exact G.
Qed.

Lemma stored_tracks_bounded_witness :
  exists e st,
    run init (oneFace :: repeat noFace 5) = Some e /\
    map_get 0 (trackedFaceStates e) = Some st /\
    id st = 0%nat /\ (missedFrames st <= 5)%nat /\ missedFrames st = 5%nat.
Proof.
  run_concrete e R (oneFace :: repeat noFace 5).
  get_concrete st G 0%nat e R.
  destruct (stored_tracks_bounded _ e 0 st R G) as [H1 H2].
  exists e, st. split; [exact R|]. split; [exact G|].
  split; [exact H1|]. split; [exact H2|].
  vm_compute in R. inversion R; subst e. vm_compute in G.
  inversion G. reflexivity.
Defined.

Lemma run_coherent (W : Q) (fs : list Frame) (e : Engine) :
  Forall (fun f => canvasWidth f = W) fs ->
  run init fs = Some e ->
  Forall (fun s =>
            prevCenterFlippedX s = getFlippedBoxCenter (boundingBox s) W /\
            lastSide s = sideOf (prevCenterFlippedX s) (W * 0.5))
    (values (trackedFaceStates e)).
Proof.
  intros Hw R.
  apply (run_Forall
           (fun s =>
              prevCenterFlippedX s = getFlippedBoxCenter (boundingBox s) W /\
              lastSide s = sideOf (prevCenterFlippedX s) (W * 0.5))
           (fun f => canvasWidth f = W))
    with (fs := fs) (e := init).
  - intros f s b ec xc Hf _.
    destruct (updateMatched_fields s b (canvasWidth f) (centerLine f) ec xc)
      as (_ & F2 & F3 & _ & F5).
    rewrite F2, F3, F5. unfold centerLine. rewrite Hf. split; reflexivity.
  - intros s Hs _. exact Hs.
  - intros f n d Hf. unfold centerLine. rewrite Hf. split; reflexivity.
  - exact init_wf.
  - exact Hw.
  - constructor.
  - exact R.
Qed.

(** X2: while the canvas width stays the same, every stored track is
    coherent with its box: its centre is the mirrored centre of the stored
    box (the box the drawing loop strokes from [flippedX] to
    [flippedX + width]), and its side is the side of that centre. *)
Theorem stored_centre_and_side_follow_box :
  forall (W : Q) (fs : list Frame) (e : Engine) (k : nat) (st : FaceState),
    Forall (fun f => canvasWidth f = W) fs ->
    run init fs = Some e ->
    map_get k (trackedFaceStates e) = Some st ->
    prevCenterFlippedX st
    = (W - originX (boundingBox st) - width (boundingBox st))
      + width (boundingBox st) / 2 /\
    lastSide st = sideOf (prevCenterFlippedX st) (W * 0.5).
Proof.
  intros W fs e k st Hw R G.
  pose proof (run_coherent W fs e Hw R) as F.
  rewrite Forall_forall in F. apply F.
  apply map_get_In in G. apply (in_map snd) in G. exact G.
Qed.

Lemma stored_centre_and_side_follow_box_witness :
  exists e st,
    run init [twoFaces; leftCrosses; noFace] = Some e /\
    map_get 1 (trackedFaceStates e) = Some st /\
    prevCenterFlippedX st == 350 /\ lastSide st = Right /\
    lastSide st = sideOf (prevCenterFlippedX st) (640 * 0.5).
Proof.
  run_concrete e R [twoFaces; leftCrosses; noFace].
  get_concrete st G 1%nat e R.
  assert (Hw : Forall (fun f => canvasWidth f = 640)
                 [twoFaces; leftCrosses; noFace])
    by (repeat constructor).
  destruct (stored_centre_and_side_follow_box 640 _ e 1 st Hw R G) as [_ H2].
  exists e, st. split; [exact R|]. split; [exact G|].
  vm_compute in R. inversion R; subst e. vm_compute in G.
  inversion G; subst st. repeat split.
Defined.

(** ** How far a track moves in one call *)

Lemma Qabs_diag_lt (x : Q) : Qabs (x - x) < PROXIMITY_THRESHOLD.
Proof.
  assert (H : x - x == 0) by ring.
  rewrite H. reflexivity.
Qed.

Lemma step_moves_less (e e' : Engine) (f : Frame) (k : nat)
    (st st' : FaceState) :
  wf e ->
  detectFaces e f = Some e' ->
  map_get k (trackedFaceStates e) = Some st ->
  map_get k (trackedFaceStates e') = Some st' ->
  Qabs (prevCenterFlippedX st' - prevCenterFlippedX st) < 100.
Proof.
  intros W E G G'.
  destruct (passBefore_exists (canvasWidth f) (centerLine f) _ (passStart e f)
              _ _ G) as [p P].
  destruct (detectFaces_lookup e e' f W E) as [L _].
  rewrite (L k p st P) in G'. unfold outcome in G'.
  destruct (findBestMatch (canvasWidth f) st (unmatchedDetections p))
    as [[i m]|] eqn:F.
  - destruct (findBestMatch_Some _ _ _ _ _ F) as (d & Hn & Hm & Hlt & _).
    rewrite Hn in G'. inversion G'; subst st'.
    rewrite (proj1 (proj2 (updateMatched_fields _ _ _ _ _ _))).
    unfold distanceTo in Hm. rewrite <- Hm. exact Hlt.
  - destruct (missedFrames st + 1 <=? MAX_MISS_FRAMES)%nat; [|discriminate G'].
    inversion G'; subst st'. simpl. apply Qabs_diag_lt.
Qed.

(** X3: between two consecutive calls the centre of a track that is still
    tracked moves by strictly less than the proximity threshold 100: by the
    distance it was matched at, or not at all when it was ghosted. *)
Theorem track_centre_moves_less_than_threshold :
  forall (fs : list Frame) (e e' : Engine) (f : Frame) (k : nat)
         (st st' : FaceState),
    run init fs = Some e ->
    detectFaces e f = Some e' ->
    map_get k (trackedFaceStates e) = Some st ->
    map_get k (trackedFaceStates e') = Some st' ->
    Qabs (prevCenterFlippedX st' - prevCenterFlippedX st) < 100.
Proof.
  intros fs e e' f k st st' R E G G'.
  exact (step_moves_less e e' f k st st' (run_wf fs init e init_wf R) E G G').
Qed.

Lemma track_centre_moves_less_than_threshold_witness :
  exists e e' st st',
    run init [twoFaces] = Some e /\
    detectFaces e leftCrosses = Some e' /\
    map_get 1 (trackedFaceStates e) = Some st /\
    map_get 1 (trackedFaceStates e') = Some st' /\
    Qabs (prevCenterFlippedX st' - prevCenterFlippedX st) < 100 /\
    Qabs (prevCenterFlippedX st' - prevCenterFlippedX st) == 60.
Proof.
  run_concrete e R [twoFaces].
  destruct (detectFaces_total e leftCrosses) as [e' E].
  get_concrete st G 1%nat e R.
  assert (H' : exists s, map_get 1 (trackedFaceStates e') = Some s).
  { vm_compute in R. inversion R; subst e. vm_compute in E.
    inversion E. vm_compute. eexists. reflexivity. }
  destruct H' as [st' G'].
  pose proof (track_centre_moves_less_than_threshold [twoFaces] e e'
                leftCrosses 1 st st' R E G G') as H.
  exists e, e', st, st'. split; [exact R|]. split; [exact E|].
  split; [exact G|]. split; [exact G'|]. split; [exact H|].
  vm_compute in R. inversion R; subst e. vm_compute in E. inversion E; subst e'.
  vm_compute in G. inversion G; subst st. vm_compute in G'.
  inversion G'; subst st'. reflexivity.
Defined.

(** ** The counters against the tracks *)

Lemma NoDup_below_length (l : list nat) (n : nat) :
  NoDup l -> Forall (fun k => (k < n)%nat) l -> (length l <= n)%nat.
Proof.
  intros N B.
  assert (H : (length l <= length (seq 0 n))%nat).
  { apply NoDup_incl_length; [exact N|].
    intros k Hk. rewrite Forall_forall in B. apply in_seq.
    specialize (B k Hk). lia. }
  now rewrite length_seq in H.
Qed.

Lemma flag_in_events (proj : FaceState -> bool) (fs : list Frame) :
  forall e e' k,
    run e fs = Some e' ->
    flagOf proj (trackedFaceStates e') k = true ->
    flagOf proj (trackedFaceStates e) k = true \/ In k (flipEvents proj e fs).
Proof.
  induction fs as [|f fs IH]; intros e e' k R H; simpl in R.
  - inversion R; subst. now left.
  - destruct (detectFaces e f) as [e1|] eqn:E; [|discriminate R].
    simpl. rewrite E.
    destruct (IH e1 e' k R H) as [H1|H1].
    + destruct (flagOf proj (trackedFaceStates e) k) eqn:H0; [now left|].
      right. apply in_or_app. left. unfold flips. apply filter_In. split.
      * unfold flagOf in H1.
        destruct (map_get k (trackedFaceStates e1)) as [st|] eqn:G;
          [|discriminate H1].
        eapply map_get_keys; eassumption.
      * now rewrite H1, H0.
    + right. apply in_or_app. now right.
Qed.

Lemma flagged_keys_length (proj : FaceState -> bool) (m : JsMap) :
  NoDup (keys m) ->
  length (filter (flagOf proj m) (keys m)) = length (filter proj (values m)).
Proof.
  intro N. rewrite filter_keys. unfold keys, values. rewrite length_map.
  rewrite <- (length_map snd (filter (fun entry => flagOf proj m (fst entry)) m)).
  f_equal.
  assert (E : forall l, incl l m ->
            map snd (filter (fun entry => flagOf proj m (fst entry)) l)
            = filter proj (map snd l)).
  { induction l as [|[k st] l IH]; intro Hl; simpl; [reflexivity|].
    assert (Hk : flagOf proj m k = proj st).
    { unfold flagOf. rewrite (map_get_NoDup k m st N); [reflexivity|].
      apply Hl. now left. }
    rewrite Hk. destruct (proj st); simpl; rewrite IH; auto;
      intros x Hx; apply Hl; now right. }
  apply E. apply incl_refl.
Qed.

Section FlagBounds.

Variable proj : FaceState -> bool.
Variable sel : nat -> nat -> nat.

Hypothesis proj_matched : forall st b W c ec xc,
  proj st = true -> proj (fst (fst (updateMatched st b W c ec xc))) = true.

Hypothesis sel_matched : forall st b W c ec xc,
  sel (snd (fst (updateMatched st b W c ec xc)))
      (snd (updateMatched st b W c ec xc))
  = (sel ec xc
     + bit (proj (fst (fst (updateMatched st b W c ec xc))) && negb (proj st)))%nat.

Hypothesis proj_ghost : forall st n, proj (withMissedFrames st n) = proj st.

Hypothesis proj_new : forall W c n d, proj (newState W c n d) = false.

Hypothesis sel_init : sel 0%nat 0%nat = 0%nat.

Lemma events_below (fs : list Frame) : forall e e' k,
  wf e -> run e fs = Some e' -> In k (flipEvents proj e fs) ->
  (k < nextTrackingId e')%nat.
Proof.
  induction fs as [|f fs IH]; intros e e' k W R H; simpl in *; [contradiction|].
  destruct (detectFaces e f) as [e1|] eqn:E; [|discriminate R].
  apply in_app_or in H. destruct H as [H|H].
  - destruct (flips_settled proj e e1 f k W E H) as [Hk _].
    apply run_next_mono in R. lia.
  - exact (IH e1 e' k (detectFaces_wf e e1 f W E) R H).
Qed.

Lemma counter_below_allocator (fs : list Frame) (e : Engine) :
  run init fs = Some e ->
  (sel (enterCount e) (exitCount e) <= nextTrackingId e)%nat.
Proof.
  intro R.
  rewrite (events_count proj sel sel_matched proj_ghost proj_new fs init e
             init_wf R).
  simpl. rewrite sel_init. simpl.
  apply NoDup_below_length.
  - exact (events_NoDup proj proj_matched proj_ghost fs init init_wf).
  - apply Forall_forall. intros k Hk.
    exact (events_below fs init e k init_wf R Hk).
Qed.

Lemma flagged_below_counter (fs : list Frame) (e : Engine) :
  run init fs = Some e ->
  (length (filter proj (values (trackedFaceStates e)))
   <= sel (enterCount e) (exitCount e))%nat.
Proof.
  intro R. pose proof (run_wf fs init e init_wf R) as W.
  rewrite <- (flagged_keys_length proj _ (wf_NoDup e W)).
  rewrite (events_count proj sel sel_matched proj_ghost proj_new fs init e
             init_wf R).
  simpl. rewrite sel_init. simpl.
  apply NoDup_incl_length.
  - apply NoDup_filter. exact (wf_NoDup e W).
  - intros k Hk. apply filter_In in Hk. destruct Hk as [_ Hk].
    destruct (flag_in_events proj fs init e k R Hk) as [H|H]; [|exact H].
    discriminate H.
Qed.

End FlagBounds.

(** X4: neither counter ever exceeds the number of ids given out: in every
    reachable state [enterCount] and [exitCount] are at most
    [nextTrackingId]. *)
Theorem counters_below_allocator :
  forall (fs : list Frame) (e : Engine),
    run init fs = Some e ->
    (enterCount e <= nextTrackingId e)%nat /\
    (exitCount e <= nextTrackingId e)%nat.
Proof.
  intros fs e R. split.
  - exact (counter_below_allocator isEnterCounted (fun a _ => a) enter_matched
             enter_counted (fun _ _ => eq_refl) (fun _ _ _ _ => eq_refl)
             eq_refl fs e R).
  - exact (counter_below_allocator isExitCounted (fun _ b => b) exit_matched
             exit_counted (fun _ _ => eq_refl) (fun _ _ _ _ => eq_refl)
             eq_refl fs e R).
Qed.

Lemma counters_below_allocator_witness :
  exists e,
    run init [twoFaces; leftCrosses; leftReturns] = Some e /\
    (enterCount e <= nextTrackingId e)%nat /\
    (exitCount e <= nextTrackingId e)%nat /\
    (enterCount e, exitCount e, nextTrackingId e) = (1, 1, 2)%nat.
Proof.
  run_concrete e R [twoFaces; leftCrosses; leftReturns].
  destruct (counters_below_allocator _ e R) as [H1 H2].
  exists e. split; [exact R|]. split; [exact H1|]. split; [exact H2|].
  vm_compute in R. inversion R. reflexivity.
Defined.

(** X5: in every reachable state the tracks that carry the [isEnterCounted]
    flag are at most [enterCount] many, and those that carry
    [isExitCounted] at most [exitCount] many: a flag is never set without
    its counter having been raised. *)
Theorem flagged_tracks_below_counters :
  forall (fs : list Frame) (e : Engine),
    run init fs = Some e ->
    (length (filter isEnterCounted (values (trackedFaceStates e)))
     <= enterCount e)%nat /\
    (length (filter isExitCounted (values (trackedFaceStates e)))
     <= exitCount e)%nat.
Proof.
  intros fs e R. split.
  - exact (flagged_below_counter isEnterCounted (fun a _ => a)
             enter_counted (fun _ _ => eq_refl) (fun _ _ _ _ => eq_refl)
             eq_refl fs e R).
  - exact (flagged_below_counter isExitCounted (fun _ b => b)
             exit_counted (fun _ _ => eq_refl) (fun _ _ _ _ => eq_refl)
             eq_refl fs e R).
Qed.

Lemma flagged_tracks_below_counters_witness :
  exists e,
    run init (twoFaces :: leftCrosses :: repeat noFace 6) = Some e /\
    (length (filter isEnterCounted (values (trackedFaceStates e)))
     <= enterCount e)%nat /\
    length (filter isEnterCounted (values (trackedFaceStates e))) = 0%nat /\
    enterCount e = 1%nat.
Proof.
  run_concrete e R (twoFaces :: leftCrosses :: repeat noFace 6).
  destruct (flagged_tracks_below_counters _ e R) as [H1 _].
  exists e. split; [exact R|]. split; [exact H1|].
  vm_compute in R. inversion R. split; reflexivity.
Defined.

(** ** What one call can add *)

Lemma updateMatched_total (oldState : FaceState) (b : BoundingBox)
    (W line : Q) (ec xc : nat) :
  (snd (fst (updateMatched oldState b W line ec xc))
   + snd (updateMatched oldState b W line ec xc) <= ec + xc + 1)%nat.
Proof.
  updateMatched_cases oldState b W line; lia.
Qed.

(** The loop over the old tracks raises the counters, taken together, by at
    most one per detection it takes out of the pool and by at most one per
    track it visits; its new map holds at most one entry per track visited. *)
Lemma trackLoop_budget (canvasWidth centerLineX : Q) (entries : JsMap)
    (p p' : Pass) :
  NoDup (keys (NEXT_FRAME_TRACKED_FACES p) ++ keys entries) ->
  trackLoop canvasWidth centerLineX entries p = Some p' ->
  (curEnterCount p' + curExitCount p' + length (unmatchedDetections p')
   <= curEnterCount p + curExitCount p + length (unmatchedDetections p))%nat /\
  (curEnterCount p' + curExitCount p'
   <= curEnterCount p + curExitCount p + length entries)%nat /\
  (length (NEXT_FRAME_TRACKED_FACES p')
   <= length (NEXT_FRAME_TRACKED_FACES p) + length entries)%nat /\
  (length (unmatchedDetections p') <= length (unmatchedDetections p))%nat.
Proof.
  intros N E.
  assert (HI :
    (curEnterCount p' + curExitCount p' + length (unmatchedDetections p')
     <= curEnterCount p + curExitCount p + length (unmatchedDetections p))%nat /\
    (curEnterCount p' + curExitCount p' + length (@nil (nat * FaceState))
     <= curEnterCount p + curExitCount p + length entries)%nat /\
    (length (NEXT_FRAME_TRACKED_FACES p') + length (@nil (nat * FaceState))
     <= length (NEXT_FRAME_TRACKED_FACES p) + length entries)%nat /\
    (length (unmatchedDetections p') <= length (unmatchedDetections p))%nat).
  { apply (trackLoop_preserves canvasWidth centerLineX
             (fun rest q =>
                (curEnterCount q + curExitCount q + length (unmatchedDetections q)
                 <= curEnterCount p + curExitCount p
                    + length (unmatchedDetections p))%nat /\
                (curEnterCount q + curExitCount q + length rest
                 <= curEnterCount p + curExitCount p + length entries)%nat /\
                (length (NEXT_FRAME_TRACKED_FACES q) + length rest
                 <= length (NEXT_FRAME_TRACKED_FACES p) + length entries)%nat /\
                (length (unmatchedDetections q)
                 <= length (unmatchedDetections p))%nat))
      with (entries := entries) (p := p).
    - intros k st rest q q' (H1 & H2 & H3 & H4) _ _ H. step_inv H.
      + pose proof (updateMatched_total st (Det.boundingBox dx) canvasWidth
                      centerLineX (curEnterCount q) (curExitCount q)) as T.
        rewrite Hupd in T. simpl in T.
        apply splice1_length in Hsplice. rewrite length_app. simpl.
        repeat split; lia.
      + rewrite length_app. simpl. repeat split; lia.
      + repeat split; lia.
    - exact N.
    - repeat split; lia.
    - exact E. }
  simpl in HI. destruct HI as (H1 & H2 & H3 & H4). repeat split; lia.
Qed.

(** X6: a call on a reachable state raises the two counters, taken
    together, by at most the number of detections that did not start a new
    track, and by at most the number of tracks it started from. *)
Theorem counters_grow_with_matches :
  forall (fs : list Frame) (e e' : Engine) (f : Frame),
    run init fs = Some e ->
    detectFaces e f = Some e' ->
    (enterCount e' + exitCount e' + nextTrackingId e'
     <= enterCount e + exitCount e + nextTrackingId e
        + length (detections f))%nat /\
    (enterCount e' + exitCount e'
     <= enterCount e + exitCount e + length (trackedFaceStates e))%nat.
Proof.
  intros fs e e' f R E. pose proof (run_wf fs init e init_wf R) as W.
  destruct (detectFaces_decompose e f W) as (p & Hp & E' & _).
  rewrite E' in E. inversion E; subst e'; clear E E'. simpl.
  destruct (trackLoop_budget (canvasWidth f) (centerLine f)
              (trackedFaceStates e) (passStart e f) p (wf_NoDup e W) Hp)
    as (H1 & H2 & _).
  simpl in H1, H2. split; lia.
Qed.

Lemma counters_grow_with_matches_witness :
  exists e e',
    run init [twoFaces] = Some e /\
    detectFaces e leftCrosses = Some e' /\
    (enterCount e' + exitCount e' + nextTrackingId e'
     <= enterCount e + exitCount e + nextTrackingId e + 1)%nat /\
    (enterCount e', exitCount e') = (1, 0)%nat.
Proof.
  run_concrete e R [twoFaces].
  destruct (detectFaces_total e leftCrosses) as [e' E].
  destruct (counters_grow_with_matches [twoFaces] e e' leftCrosses R E)
    as [H1 _].
  exists e, e'. split; [exact R|]. split; [exact E|]. split; [exact H1|].
  vm_compute in R. inversion R; subst e. vm_compute in E. inversion E.
  reflexivity.
Defined.

(** X7: the map shown as "tracked" holds at least one track per detection
    of the call, and grows by exactly the number of tracks the call created:
    after a call on a reachable state its size is at least the number of
    detections and at most the old size plus the ids given out by the call,
    which are at most as many as the detections. *)
Theorem tracked_size_bounds :
  forall (fs : list Frame) (e e' : Engine) (f : Frame),
    run init fs = Some e ->
    detectFaces e f = Some e' ->
    (length (detections f) <= length (trackedFaceStates e'))%nat /\
    (length (trackedFaceStates e') + nextTrackingId e
     <= length (trackedFaceStates e) + nextTrackingId e')%nat /\
    (nextTrackingId e <= nextTrackingId e')%nat /\
    (nextTrackingId e' <= nextTrackingId e + length (detections f))%nat.
Proof.
  intros fs e e' f R E. pose proof (run_wf fs init e init_wf R) as W.
  destruct (detectFaces_decompose e f W) as (p & Hp & E' & _).
  rewrite E' in E. inversion E; subst e'; clear E E'. simpl.
  destruct (trackLoop_budget (canvasWidth f) (centerLine f)
              (trackedFaceStates e) (passStart e f) p (wf_NoDup e W) Hp)
    as (_ & _ & H3 & H4).
  pose proof (trackLoop_boxes (canvasWidth f) (centerLine f)
                (trackedFaceStates e) (passStart e f) p (wf_NoDup e W) Hp) as B.
  apply Permutation_length in B. simpl in B, H3, H4.
  rewrite length_app, !length_map in B.
  assert (A : (length (activeBoxes (NEXT_FRAME_TRACKED_FACES p))
               <= length (NEXT_FRAME_TRACKED_FACES p))%nat).
  { unfold activeBoxes, values. rewrite length_map.
    eapply Nat.le_trans; [apply filter_length_le|]. now rewrite length_map. }
  rewrite length_app, length_spawned. repeat split; lia.
Qed.

Lemma tracked_size_bounds_witness :
  exists e e',
    run init [twoFaces; leftCrosses] = Some e /\
    detectFaces e newcomer = Some e' /\
    (length (detections newcomer) <= length (trackedFaceStates e'))%nat /\
    (length (trackedFaceStates e), length (trackedFaceStates e')) = (2, 3)%nat /\
    (nextTrackingId e, nextTrackingId e') = (2, 3)%nat.
Proof.
  run_concrete e R [twoFaces; leftCrosses].
  destruct (detectFaces_total e newcomer) as [e' E].
  destruct (tracked_size_bounds _ e e' newcomer R E) as [H1 _].
  exists e, e'. split; [exact R|]. split; [exact E|]. split; [exact H1|].
  vm_compute in R. inversion R; subst e. vm_compute in E. inversion E.
  split; reflexivity.
Defined.

(** ** Tracks that left *)

(** X8: a track that has been dropped never comes back: an id that has been
    given out and is absent from the tracked map stays absent after any
    further calls, whatever they detect. *)
Theorem dropped_track_never_returns :
  forall (fs fs' : list Frame) (e e' : Engine) (k : nat),
    run init fs = Some e ->
    (k < nextTrackingId e)%nat ->
    map_get k (trackedFaceStates e) = None ->
    run e fs' = Some e' ->
    map_get k (trackedFaceStates e') = None.
Proof.
  intros fs fs' e e' k R. pose proof (run_wf fs init e init_wf R) as W.
  clear R. revert e e' W.
  induction fs' as [|f fs' IH]; intros e e' W Hk G R'; simpl in R'.
  - now inversion R'; subst.
  - destruct (detectFaces e f) as [e1|] eqn:E; [|discriminate R'].
    apply (IH e1 e' (detectFaces_wf e e1 f W E)); [| |exact R'].
    + apply detectFaces_next_mono in E. lia.
    + destruct (detectFaces_lookup e e1 f W E) as [_ L].
      apply L; [exact Hk|]. now apply map_get_None_keys.
Qed.

Lemma dropped_track_never_returns_witness :
  exists e e',
    run init (oneFace :: repeat noFace 6) = Some e /\
    (0 < nextTrackingId e)%nat /\
    map_get 0 (trackedFaceStates e) = None /\
    run e [oneFace] = Some e' /\
    map_get 0 (trackedFaceStates e') = None /\
    keys (trackedFaceStates e') = [1%nat].
Proof.
  run_concrete e R (oneFace :: repeat noFace 6).
  assert (Hk : (0 < nextTrackingId e)%nat)
    by (vm_compute in R; inversion R; simpl; lia).
  assert (G : map_get 0 (trackedFaceStates e) = None)
    by (vm_compute in R; inversion R; reflexivity).
  destruct (run_total [oneFace] e) as [e' R'].
  pose proof (dropped_track_never_returns _ [oneFace] e e' 0 R Hk G R') as H.
  exists e, e'. split; [exact R|]. split; [exact Hk|]. split; [exact G|].
  split; [exact R'|]. split; [exact H|].
  vm_compute in R. inversion R; subst e. vm_compute in R'. inversion R'.
  reflexivity.
Defined.

(** ** Counted crossings *)


(** A track whose flag a call sets was there before the call with the flag
    unset, was matched by the call, and changed side as the flag says. *)
Lemma flip_is_side_change (proj : FaceState -> bool) (from to : Side)
    (e e' : Engine) (f : Frame) (k : nat) :
  (forall st n, proj (withMissedFrames st n) = proj st) ->
  (forall W c n d, proj (newState W c n d) = false) ->
  (forall st b W c ec xc,
     proj st = false ->
     proj (fst (fst (updateMatched st b W c ec xc))) = true ->
     lastSide st = from /\
     lastSide (fst (fst (updateMatched st b W c ec xc))) = to) ->
  wf e ->
  detectFaces e f = Some e' ->
  In k (flips proj e e') ->
  exists st st',
    map_get k (trackedFaceStates e) = Some st /\
    map_get k (trackedFaceStates e') = Some st' /\
    proj st = false /\ proj st' = true /\
    lastSide st = from /\ lastSide st' = to /\
    missedFrames st' = 0%nat.
Proof.
  intros Hghost Hnew Hflip W E H.
  unfold flips in H. apply filter_In in H. destruct H as [_ H].
  apply andb_true_iff in H. destruct H as [H1 H0].
  apply negb_true_iff in H0. unfold flagOf in H1, H0.
  destruct (map_get k (trackedFaceStates e')) as [st'|] eqn:G';
    [|discriminate H1].
  destruct (map_get k (trackedFaceStates e)) as [st|] eqn:G.
  - exists st, st'.
    destruct (passBefore_exists (canvasWidth f) (centerLine f) _
                (passStart e f) _ _ G) as [p P].
    destruct (detectFaces_lookup e e' f W E) as [L _].
    rewrite (L k p st P) in G'. unfold outcome in G'.
    destruct (findBestMatch (canvasWidth f) st (unmatchedDetections p))
      as [[i m]|].
    + destruct (nth_error (unmatchedDetections p) i) as [d|];
        [|discriminate G'].
      inversion G' as [G0]. rewrite <- G0 in H1.
      destruct (Hflip _ _ _ _ _ _ H0 H1) as [F1 F2].
      repeat split; auto.
      exact (proj1 (proj2 (proj2 (proj2 (updateMatched_fields _ _ _ _ _ _))))).
    + destruct (missedFrames st + 1 <=? MAX_MISS_FRAMES)%nat;
        [|discriminate G'].
      inversion G'; subst st'. rewrite Hghost in H1. congruence.
  - destruct (detectFaces_new_track e e' f k st' W E G G') as (_ & d & ->).
    rewrite Hnew in H1. discriminate H1.
Qed.

(** X9: while the canvas width [W] stays the same, a counted entry is a
    real crossing of the line: the track was stored left of [W * 0.5], the
    call matched it to a detection at or right of [W * 0.5], and the two
    centres are less than 100 apart; a counted exit is the mirror image.
    So no crossing is counted for a face that was not within 100 of the
    line on both frames. *)
Theorem counted_crossing_is_real :
  forall (W : Q) (fs : list Frame) (e e' : Engine) (f : Frame),
    Forall (fun f0 => canvasWidth f0 = W) fs ->
    canvasWidth f = W ->
    run init fs = Some e ->
    detectFaces e f = Some e' ->
    (forall k, In k (flips isEnterCounted e e') ->
       exists st st',
         map_get k (trackedFaceStates e) = Some st /\
         map_get k (trackedFaceStates e') = Some st' /\
         prevCenterFlippedX st < W * 0.5 /\
         W * 0.5 <= prevCenterFlippedX st' /\
         Qabs (prevCenterFlippedX st' - prevCenterFlippedX st) < 100) /\
    (forall k, In k (flips isExitCounted e e') ->
       exists st st',
         map_get k (trackedFaceStates e) = Some st /\
         map_get k (trackedFaceStates e') = Some st' /\
         W * 0.5 <= prevCenterFlippedX st /\
         prevCenterFlippedX st' < W * 0.5 /\
         Qabs (prevCenterFlippedX st' - prevCenterFlippedX st) < 100).
Proof.
  intros W fs e e' f Hw Hf R E.
  pose proof (run_wf fs init e init_wf R) as Wf.
  pose proof (run_coherent W fs e Hw R) as C.
  assert (R' : run init (fs ++ [f]) = Some e').
  { rewrite run_app, R. simpl. now rewrite E. }
  assert (Hw' : Forall (fun f0 => canvasWidth f0 = W) (fs ++ [f])).
  { apply Forall_app. split; [exact Hw|]. constructor; [exact Hf|constructor]. }
  pose proof (run_coherent W (fs ++ [f]) e' Hw' R') as C'.
  rewrite Forall_forall in C, C'.
  assert (Hin : forall (m : JsMap) k0 s, map_get k0 m = Some s ->
                  In s (values m)).
  { intros m k0 s G. apply map_get_In in G. apply (in_map snd) in G. exact G. }
  split; intros k H.
  - destruct (flip_is_side_change isEnterCounted Left Right e e' f k
                (fun _ _ => eq_refl) (fun _ _ _ _ => eq_refl)
                (fun st b W0 c ec xc =>
                   proj1 (updateMatched_flip st b W0 c ec xc))
                Wf E H) as (st & st' & G & G' & _ & _ & S & S' & _).
    exists st, st'. split; [exact G|]. split; [exact G'|].
    destruct (C st (Hin _ _ _ G)) as [_ Cs].
    destruct (C' st' (Hin _ _ _ G')) as [_ Cs'].
    rewrite S in Cs. rewrite S' in Cs'.
    split; [apply sideOf_Left; now symmetry|].
    split; [apply sideOf_Right; now symmetry|].
    exact (step_moves_less e e' f k st st' Wf E G G').
  - destruct (flip_is_side_change isExitCounted Right Left e e' f k
                (fun _ _ => eq_refl) (fun _ _ _ _ => eq_refl)
                (fun st b W0 c ec xc =>
                   proj2 (updateMatched_flip st b W0 c ec xc))
                Wf E H) as (st & st' & G & G' & _ & _ & S & S' & _).
    exists st, st'. split; [exact G|]. split; [exact G'|].
    destruct (C st (Hin _ _ _ G)) as [_ Cs].
    destruct (C' st' (Hin _ _ _ G')) as [_ Cs'].
    rewrite S in Cs. rewrite S' in Cs'.
    split; [apply sideOf_Right; now symmetry|].
    split; [apply sideOf_Left; now symmetry|].
    exact (step_moves_less e e' f k st st' Wf E G G').
Qed.

Lemma counted_crossing_is_real_witness :
  exists e e',
    run init [twoFaces] = Some e /\
    detectFaces e leftCrosses = Some e' /\
    flips isEnterCounted e e' = [1%nat] /\
    exists st st',
      map_get 1 (trackedFaceStates e) = Some st /\
      map_get 1 (trackedFaceStates e') = Some st' /\
      prevCenterFlippedX st < 640 * 0.5 /\
      640 * 0.5 <= prevCenterFlippedX st'.
Proof.
  run_concrete e R [twoFaces].
  destruct (detectFaces_total e leftCrosses) as [e' E].
  assert (Hw : Forall (fun f0 => canvasWidth f0 = 640) [twoFaces])
    by (repeat constructor).
  destruct (counted_crossing_is_real 640 [twoFaces] e e' leftCrosses Hw
              eq_refl R E) as [H _].
  assert (F : flips isEnterCounted e e' = [1%nat]).
  { vm_compute in R. inversion R; subst e. vm_compute in E.
    inversion E; subst e'. vm_compute. reflexivity. }
  destruct (H 1%nat) as (st & st' & G & G' & L1 & L2 & _).
  { rewrite F. now left. }
  exists e, e'. split; [exact R|]. split; [exact E|]. split; [exact F|].
  exists st, st'. auto.
Defined.

(** ** Detections out of reach *)

(** X10: when every detection of a call is at distance 100 or more from
    every stored centre, no track is matched: every track is aged (and
    dropped past the tolerance), every detection starts a new track, in
    order, and both counters stay as they were. *)
Theorem far_detections_start_new_tracks :
  forall (fs : list Frame) (e : Engine) (f : Frame),
    run init fs = Some e ->
    (forall k st d,
       map_get k (trackedFaceStates e) = Some st ->
       In d (detections f) ->
       100 <= Qabs (getFlippedBoxCenter (Det.boundingBox d) (canvasWidth f)
                    - prevCenterFlippedX st)) ->
    detectFaces e f
    = Some {| trackedFaceStates :=
                aged (trackedFaceStates e)
                ++ spawned (canvasWidth f) (centerLine f) (detections f)
                     (nextTrackingId e);
              nextTrackingId := (nextTrackingId e + length (detections f))%nat;
              enterCount := enterCount e;
              exitCount := exitCount e |}.
Proof.
  intros fs e f R Hfar. pose proof (run_wf fs init e init_wf R) as W.
  destruct (detectFaces_decompose e f W) as (p & Hp & E & _).
  assert (HI : unmatchedDetections p = detections f /\
               curEnterCount p = enterCount e /\
               curExitCount p = exitCount e /\
               NEXT_FRAME_TRACKED_FACES p ++ aged [] = aged (trackedFaceStates e) /\
               incl (@nil (nat * FaceState)) (trackedFaceStates e)).
  { apply (trackLoop_preserves (canvasWidth f) (centerLine f)
             (fun rest q =>
                unmatchedDetections q = detections f /\
                curEnterCount q = enterCount e /\
                curExitCount q = exitCount e /\
                NEXT_FRAME_TRACKED_FACES q ++ aged rest
                = aged (trackedFaceStates e) /\
                incl rest (trackedFaceStates e)))
      with (entries := trackedFaceStates e) (p := passStart e f).
    - intros k st rest q q' (Hu & Hec & Hxc & Hn & Hincl) _ _ H.
      rewrite aged_cons in Hn.
      assert (Hrest : incl rest (trackedFaceStates e)).
      { intros x Hx. apply Hincl. now right. }
      assert (G : map_get k (trackedFaceStates e) = Some st).
      { apply map_get_NoDup; [exact (wf_NoDup e W)|]. apply Hincl. now left. }
      step_inv H.
      + exfalso. rewrite Hu in Hfind.
        destruct (findBestMatch_Some _ _ _ _ _ Hfind) as (d & Hd & Hm & Hlt & _).
        apply nth_error_In in Hd. specialize (Hfar k st d G Hd).
        unfold distanceTo in Hm. rewrite <- Hm in Hfar.
        exact (Qlt_not_le _ _ Hlt Hfar).
      + apply Nat.leb_le in Hkeep. rewrite Hkeep in Hn.
        rewrite <- app_assoc. auto.
      + apply Nat.leb_gt in Hdrop. rewrite Hdrop in Hn. auto.
    - simpl. now apply wf_NoDup.
    - simpl. repeat split; auto. apply incl_refl.
    - exact Hp. }
  destruct HI as (Hu & Hec & Hxc & Hn & _).
  rewrite E, Hu, Hec, Hxc. unfold aged at 1 in Hn. simpl in Hn.
  rewrite app_nil_r in Hn. now rewrite Hn.
Qed.

Lemma far_detections_start_new_tracks_witness :
  exists e,
    run init [oneFace] = Some e /\
    detectFaces e (mkFrame [det 330 40] 640)
    = Some {| trackedFaceStates :=
                aged (trackedFaceStates e)
                ++ spawned 640 (centerLine twoFaces) [det 330 40]
                     (nextTrackingId e);
              nextTrackingId := (nextTrackingId e + 1)%nat;
              enterCount := enterCount e;
              exitCount := exitCount e |}.
Proof.
  run_concrete e R [oneFace].
  exists e. split; [exact R|].
  apply (far_detections_start_new_tracks [oneFace] e
           (mkFrame [det 330 40] 640) R).
  intros k st d G Hd. simpl in Hd. destruct Hd as [<-|[]].
  vm_compute in R. inversion R; subst e.
  destruct k as [|k]; [|discriminate G].
  vm_compute in G. inversion G; subst st. vm_compute. discriminate.
Defined.

(** * The animation-frame callback *)

Lemma framesOf_engine (ts : list Tick) : forall s s',
  faceDetector s = faceDetector s' ->
  lastVideoTime s = lastVideoTime s' ->
  framesOf s ts = framesOf s' ts.
Proof.
  induction ts as [|t ts IH]; intros s s' Hd Hl; simpl; [reflexivity|].
  rewrite <- Hd, <- Hl.
  destruct (negb (faceDetector s) || Qeq_bool (videoWidth t) 0).
  - now apply IH.
  - unfold frameOf. rewrite <- Hl. f_equal. now apply IH.
Qed.

(** X11: the callback never raises, and over any sequence of animation
    frames it is the engine run on the frames of the ticks that pass the
    guard: the detections of the tick when the video time has changed, none
    when it has not.  So every state of the tracker the page can show is a
    state that a sequence of engine calls reaches from page load. *)
Theorem callback_is_engine_run :
  forall (ts : list Tick) (s : Page),
  exists s',
    animationFrames s ts = Some s' /\
    run (engine s) (framesOf s ts) = Some (engine s') /\
    faceDetector s' = faceDetector s /\
    (length (framesOf s ts) <= length ts)%nat.
Proof.
  induction ts as [|t ts IH]; intro s; simpl.
  - exists s. repeat split; auto.
  - unfold animationFrame.
    destruct (negb (faceDetector s) || Qeq_bool (videoWidth t) 0) eqn:Hg.
    + destruct (IH s) as (s' & A & R & D & L). exists s'.
      repeat split; auto.
    + fold (frameOf s t).
      destruct (detectFaces_total (engine s) (frameOf s t)) as [e1 E].
      unfold frameOf in E |- *. rewrite E.
      set (lvt := if negb (Qeq_bool (currentTime t) (lastVideoTime s))
                  then currentTime t else lastVideoTime s).
      destruct (IH {| engine := e1; faceDetector := faceDetector s;
                      lastVideoTime := lvt |}) as (s' & A & R & D & L).
      exists s'. simpl in *. split; [exact A|].
      rewrite (framesOf_engine ts
                 {| engine := engine s; faceDetector := faceDetector s;
                    lastVideoTime := lvt |}
                 {| engine := e1; faceDetector := faceDetector s;
                    lastVideoTime := lvt |} eq_refl eq_refl).
      split; [simpl; rewrite E; exact R|].
      split; [exact D|]. simpl. lia.
Qed.

(** ** A video that does not advance *)

Lemma aged_missed (n : nat) (m : JsMap) :
  Forall (fun entry => (n <= missedFrames (snd entry))%nat) m ->
  Forall (fun entry => (S n <= missedFrames (snd entry))%nat) (aged m).
Proof.
  induction m as [|[k st] m IH]; intro H; [constructor|].
  inversion H as [|? ? Hst Hm]; subst. rewrite aged_cons.
  destruct (missedFrames st + 1 <=? MAX_MISS_FRAMES)%nat; [|auto].
  constructor; [simpl in *; lia|auto].
Qed.

Lemma aged_all_gone (m : JsMap) :
  Forall (fun entry => (MAX_MISS_FRAMES <= missedFrames (snd entry))%nat) m ->
  aged m = [].
Proof.
  induction m as [|[k st] m IH]; intro H; [reflexivity|].
  inversion H as [|? ? Hst Hm]; subst. rewrite aged_cons. simpl in Hst.
  destruct (Nat.leb_spec (missedFrames st + 1) MAX_MISS_FRAMES); [lia|auto].
Qed.

Lemma aged_iter_missed (n : nat) (m : JsMap) :
  Forall (fun entry => (n <= missedFrames (snd entry))%nat) (Nat.iter n aged m).
Proof.
  induction n as [|n IH]; simpl.
  - apply Forall_forall. intros. lia.
  - now apply aged_missed.
Qed.

Lemma aged_iter_empty (n : nat) (m : JsMap) :
  (MAX_MISS_FRAMES + 1 <= n)%nat -> Nat.iter n aged m = [].
Proof.
  intro H. replace n with ((n - (MAX_MISS_FRAMES + 1)) + S MAX_MISS_FRAMES)%nat
    by lia.
  rewrite Nat.iter_add.
  assert (E : Nat.iter (S MAX_MISS_FRAMES) aged m = []).
  { change (Nat.iter (S MAX_MISS_FRAMES) aged m)
      with (aged (Nat.iter MAX_MISS_FRAMES aged m)).
    apply aged_all_gone. exact (aged_iter_missed MAX_MISS_FRAMES m). }
  rewrite E. clear. induction (n - (MAX_MISS_FRAMES + 1))%nat as [|j IH];
    simpl; [reflexivity|]. now rewrite IH.
Qed.

Lemma stalled_tick (s : Page) (t : Tick) :
  wf (engine s) ->
  faceDetector s = true ->
  stalled s t ->
  animationFrame s t
  = Some {| engine :=
              {| trackedFaceStates := aged (trackedFaceStates (engine s));
                 nextTrackingId := nextTrackingId (engine s);
                 enterCount := enterCount (engine s);
                 exitCount := exitCount (engine s) |};
            faceDetector := true;
            lastVideoTime := lastVideoTime s |}.
Proof.
  intros W D [Hv Ht]. unfold animationFrame. rewrite D. simpl.
  destruct (Qeq_bool (videoWidth t) 0) eqn:Hq.
  { apply Qeq_bool_iff in Hq. contradiction. }
  apply Qeq_bool_iff in Ht. rewrite Ht. simpl.
  now rewrite (detectFaces_no_detections (engine s) (tickCanvasWidth t) W).
Qed.

(** X12: while the video does not advance, whatever the detector would
    return is ignored and every animation frame ages the tracks: after [n]
    such frames on a reachable state the tracked map is the old one aged [n]
    times, the id allocator, both counters and the remembered video time are
    unchanged, and from the sixth such frame on no track is left. *)
Theorem stalled_video_ages_tracks :
  forall (fs : list Frame) (ts : list Tick) (s : Page),
    run init fs = Some (engine s) ->
    faceDetector s = true ->
    Forall (stalled s) ts ->
    exists s',
      animationFrames s ts = Some s' /\
      trackedFaceStates (engine s')
      = Nat.iter (length ts) aged (trackedFaceStates (engine s)) /\
      nextTrackingId (engine s') = nextTrackingId (engine s) /\
      enterCount (engine s') = enterCount (engine s) /\
      exitCount (engine s') = exitCount (engine s) /\
      lastVideoTime s' = lastVideoTime s /\
      ((6 <= length ts)%nat -> trackedFaceStates (engine s') = []).
Proof.
  intros fs ts s R D H. pose proof (run_wf fs init _ init_wf R) as W.
  clear R.
  assert (G : exists s',
            animationFrames s ts = Some s' /\
            trackedFaceStates (engine s')
            = Nat.iter (length ts) aged (trackedFaceStates (engine s)) /\
            nextTrackingId (engine s') = nextTrackingId (engine s) /\
            enterCount (engine s') = enterCount (engine s) /\
            exitCount (engine s') = exitCount (engine s) /\
            lastVideoTime s' = lastVideoTime s).
  { revert s W D H. induction ts as [|t ts IH]; intros s W D H.
    - exists s. repeat split; auto.
    - inversion H as [|? ? Ht Hts]; subst.
      pose proof (stalled_tick s t W D Ht) as A.
      pose proof (detectFaces_no_detections (engine s) (tickCanvasWidth t) W)
        as E.
      apply detectFaces_wf in E; [|exact W].
      set (s1 := {| engine :=
                      {| trackedFaceStates := aged (trackedFaceStates (engine s));
                         nextTrackingId := nextTrackingId (engine s);
                         enterCount := enterCount (engine s);
                         exitCount := exitCount (engine s) |};
                    faceDetector := true;
                    lastVideoTime := lastVideoTime s |}) in *.
      destruct (IH s1 E eq_refl) as (s' & A' & T & N & C1 & C2 & L).
      { eapply Forall_impl; [|exact Hts]. intros a Ha. exact Ha. }
      exists s'. simpl. rewrite A. split; [exact A'|].
      simpl in T, N, C1, C2, L. rewrite T, N, C1, C2, L.
      repeat split; auto.
      clear. induction (length ts) as [|j IHj]; simpl; [reflexivity|].
      now rewrite IHj. }
  destruct G as (s' & A & T & N & C1 & C2 & L).
  exists s'. repeat split; auto.
  intro Hn. rewrite T. apply aged_iter_empty. unfold MAX_MISS_FRAMES. lia.
Qed.

Lemma stalled_video_ages_tracks_witness :
  exists e s',
    run init [twoFaces] = Some e /\
    animationFrames (mkPage e true 1)
      (repeat (mkTick 640 1 [det 100 40; det 330 40] 640) 6) = Some s' /\
    trackedFaceStates (engine s') = [] /\
    nextTrackingId (engine s') = 2%nat.
Proof.
  run_concrete e R [twoFaces].
  assert (H : Forall (stalled (mkPage e true 1))
                (repeat (mkTick 640 1 [det 100 40; det 330 40] 640) 6)).
  { repeat constructor; simpl; try reflexivity; intro H; discriminate H. }
  destruct (stalled_video_ages_tracks [twoFaces] _ (mkPage e true 1) R eq_refl H)
    as (s' & A & _ & N & _ & _ & _ & T).
  exists e, s'. split; [exact R|]. split; [exact A|].
  split; [apply T; simpl; lia|].
  rewrite N. vm_compute in R. inversion R. reflexivity.
Defined.

Lemma aged_none_active (m : JsMap) :
  filter (fun state => Nat.eqb (missedFrames state) 0) (values (aged m)) = [].
Proof.
  induction m as [|[k st] m IH]; [reflexivity|].
  rewrite aged_cons.
  destruct (missedFrames st + 1 <=? MAX_MISS_FRAMES)%nat; [|exact IH].
  simpl. rewrite Nat.add_1_r. simpl. exact IH.
Qed.

(** X13: a tick that passes the guard remembers the video time it saw, so
    a following tick at the same video time gets no detections, whatever
    the detector would return: on a reachable state it ages every track,
    shows 0 detected, and leaves the id allocator and the counters alone.
    Animation frames that outpace the video therefore count as missed
    frames. *)
Theorem same_video_time_counts_as_miss :
  forall (fs : list Frame) (s s1 : Page) (t1 t2 : Tick),
    run init fs = Some (engine s) ->
    faceDetector s = true ->
    ~ videoWidth t1 == 0 ->
    ~ videoWidth t2 == 0 ->
    currentTime t2 == currentTime t1 ->
    animationFrame s t1 = Some s1 ->
    lastVideoTime s1 == currentTime t1 /\
    exists s2,
      animationFrame s1 t2 = Some s2 /\
      trackedFaceStates (engine s2) = aged (trackedFaceStates (engine s1)) /\
      actualDetectionsCount (engine s2) = 0%nat /\
      nextTrackingId (engine s2) = nextTrackingId (engine s1) /\
      enterCount (engine s2) = enterCount (engine s1) /\
      exitCount (engine s2) = exitCount (engine s1).
Proof.
  intros fs s s1 t1 t2 R D V1 V2 T A.
  pose proof (run_wf fs init _ init_wf R) as W.
  unfold animationFrame in A. rewrite D in A. simpl in A.
  destruct (Qeq_bool (videoWidth t1) 0) eqn:Hq.
  { apply Qeq_bool_iff in Hq. contradiction. }
  destruct (detectFaces (engine s) _) as [e1|] eqn:E; [|discriminate A].
  inversion A; subst s1; clear A. simpl.
  apply detectFaces_wf in E; [|exact W].
  assert (L : (if negb (Qeq_bool (currentTime t1) (lastVideoTime s))
               then currentTime t1 else lastVideoTime s) == currentTime t1).
  { destruct (Qeq_bool (currentTime t1) (lastVideoTime s)) eqn:Hc; simpl.
    - apply Qeq_bool_iff in Hc. now symmetry.
    - reflexivity. }
  split; [exact L|].
  eexists. split.
  - apply stalled_tick; [exact E|reflexivity|].
    split; [exact V2|]. simpl. rewrite T. now symmetry.
  - simpl. repeat split; auto.
    unfold actualDetectionsCount. simpl. now rewrite aged_none_active.
Qed.

Lemma same_video_time_counts_as_miss_witness :
  exists e s1 s2,
    run init [twoFaces] = Some e /\
    animationFrame (mkPage e true 1) (mkTick 640 2 [det 100 40; det 330 40] 640)
    = Some s1 /\
    animationFrame s1 (mkTick 640 2 [det 100 40; det 330 40] 640) = Some s2 /\
    actualDetectionsCount (engine s1) = 2%nat /\
    actualDetectionsCount (engine s2) = 0%nat.
Proof.
  run_concrete e R [twoFaces].
  assert (A : exists s1,
            animationFrame (mkPage e true 1)
              (mkTick 640 2 [det 100 40; det 330 40] 640) = Some s1).
  { vm_compute in R. inversion R. vm_compute. eexists. reflexivity. }
  destruct A as [s1 A].
  assert (V : ~ videoWidth (mkTick 640 2 [det 100 40; det 330 40] 640) == 0)
    by (simpl; intro H; discriminate H).
  destruct (same_video_time_counts_as_miss [twoFaces] (mkPage e true 1) s1
              _ (mkTick 640 2 [det 100 40; det 330 40] 640) R eq_refl V V
              (Qeq_refl _) A) as (_ & s2 & A2 & _ & C & _).
  exists e, s1, s2. split; [exact R|]. split; [exact A|]. split; [exact A2|].
  split; [|exact C].
  vm_compute in R. inversion R; subst e. vm_compute in A. inversion A.
  reflexivity.
Defined.

(** * The status box and start-up *)

#[local] Arguments classToggle : simpl never.
#[local] Arguments updateStatus : simpl never.

Lemma classToggle_same (token : String.string) (force : bool)
    (l : list String.string) :
  In token (classToggle token force l) <-> force = true.
Proof.
  unfold classToggle. destruct force.
  - split; [reflexivity|intros _].
    destruct (existsb (String.eqb token) l) eqn:E.
    + apply existsb_exists in E. destruct E as (c & Hc & Ec).
      apply String.eqb_eq in Ec. now subst c.
    + apply in_or_app. right. now left.
  - split; [|discriminate]. intro H. apply filter_In in H.
    destruct H as [_ H]. now rewrite String.eqb_refl in H.
Qed.

Lemma classToggle_other (token c : String.string) (force : bool)
    (l : list String.string) :
  c <> token -> (In c (classToggle token force l) <-> In c l).
Proof.
  intro N. unfold classToggle. destruct force.
  - destruct (existsb (String.eqb token) l); [tauto|].
    rewrite in_app_iff. simpl. split; [|tauto].
    intros [H|[H|[]]]; [exact H|congruence].
  - rewrite filter_In. split; [tauto|]. intro H. split; [exact H|].
    apply negb_true_iff. apply String.eqb_neq. congruence.
Qed.

Lemma classToggle_NoDup (token : String.string) (force : bool)
    (l : list String.string) :
  NoDup l -> NoDup (classToggle token force l).
Proof.
  intro N. unfold classToggle. destruct force.
  - destruct (existsb (String.eqb token) l) eqn:E; [exact N|].
    apply NoDup_app; [exact N|repeat constructor; intros []|].
    intros c Hc [Ec|[]]. subst c.
    assert (H : existsb (String.eqb token) l = true).
    { apply existsb_exists. exists token.
      split; [exact Hc|apply String.eqb_refl]. }
    congruence.
  - now apply NoDup_filter.
Qed.

(** X14: whatever classes the status box had, after [updateStatus] it shows
    the text, is visible, carries the red background class exactly when the
    message is an error and the grey one exactly when it is not, keeps every
    other class, keeps the class list free of repetitions, and hides the
    spinner exactly for an error.  [hideStatus] sets the opacity to 0 and
    leaves the text, the classes and the spinner of any box as they are,
    and an update after hiding shows the box again. *)
Theorem updateStatus_classes :
  forall (text : String.string) (isError : bool) (box : StatusBox),
    let box' := updateStatus text isError box in
    textContent box' = text /\
    opacity box' = "1"%string /\
    (In "bg-red-700"%string (classList box') <-> isError = true) /\
    (In "bg-gray-900"%string (classList box') <-> isError = false) /\
    (forall c, c <> "bg-red-700"%string -> c <> "bg-gray-900"%string ->
       (In c (classList box') <-> In c (classList box))) /\
    (NoDup (classList box) -> NoDup (classList box')) /\
    (spinnerDisplay box' = "none"%string <-> isError = true) /\
    updateStatus text isError (hideStatus box) = box' /\
    classList (hideStatus box') = classList box' /\
    textContent (hideStatus box') = text /\
    opacity (hideStatus box) = "0"%string /\
    textContent (hideStatus box) = textContent box /\
    classList (hideStatus box) = classList box /\
    spinnerDisplay (hideStatus box) = spinnerDisplay box.
Proof.
  intros text isError box box'. subst box'. unfold updateStatus.
  cbn [textContent opacity classList spinnerDisplay hideStatus].
  split; [reflexivity|]. split; [reflexivity|]. split.
  { rewrite classToggle_other by discriminate. apply classToggle_same. }
  split.
  { rewrite classToggle_same. destruct isError; simpl; split; congruence. }
  split.
  { intros c N1 N2. now rewrite !classToggle_other by assumption. }
  split.
  { intro N. now apply classToggle_NoDup, classToggle_NoDup. }
  split.
  { destruct isError; split; congruence. }
  repeat split.
Qed.

Lemma updateStatus_error_classes (text : String.string) (box : StatusBox) :
  In "bg-red-700"%string (classList (updateStatus text true box)) /\
  ~ In "bg-gray-900"%string (classList (updateStatus text true box)).
Proof.
  unfold updateStatus. cbn [classList]. split.
  - rewrite classToggle_other by discriminate. now apply classToggle_same.
  - rewrite classToggle_same. discriminate.
Qed.

(** X15: start-up requests the first animation frame exactly when the
    vision files and the model load, the browser offers [getUserMedia], the
    camera is granted and the video reports its metadata.  In that case the
    detector has been assigned before the first frame runs, the canvas has
    the size of the video and the status box is hidden.  When everything
    but the metadata event succeeds, the page keeps showing the last
    progress message, with the spinner, and never starts the loop. *)
Theorem startup_starts_loop_iff :
  forall (b : Browser) (box : StatusBox),
    let doc := createFaceDetector b (documentAtLoad box) in
    (loopRequested doc = true <->
     forVisionTasks b = Fulfilled /\ createFromOptions b = Fulfilled /\
     hasGetUserMedia b = true /\ getUserMedia b = Fulfilled /\
     loadedmetadata b <> None) /\
    (loopRequested doc = true ->
     detectorLoaded doc = true /\
     canvasSize doc = loadedmetadata b /\
     opacity (statusBox doc) = "0"%string) /\
    (forVisionTasks b = Fulfilled -> createFromOptions b = Fulfilled ->
     hasGetUserMedia b = true -> getUserMedia b = Fulfilled ->
     loadedmetadata b = None ->
     loopRequested doc = false /\
     detectorLoaded doc = true /\
     textContent (statusBox doc) = "Model loaded. Starting webcam..."%string /\
     opacity (statusBox doc) = "1"%string /\
     spinnerDisplay (statusBox doc) = "block"%string).
Proof.
  intros [[|m1] [|m2] [|] [|m3] [v|]] box doc; subst doc;
    unfold createFaceDetector, startWebcam; simpl;
    (split; [split; [intro H; try discriminate H; repeat split; discriminate
                    |intros (H1 & H2 & H3 & H4 & H5);
                     try discriminate; try congruence; reflexivity]
            |split; [intro H; try discriminate H; repeat split
                    |intros H1 H2 H3 H4 H5; try discriminate;
                     repeat split]]).
Qed.

(** X16: when a step of start-up fails (the vision files, the model, a
    browser without [getUserMedia], or the camera), the first animation
    frame is never requested and the canvas is never sized; the status box
    ends visible, red and not grey, with the spinner hidden, and shows the
    message of the first step that failed.  The detector stays assigned
    when only the camera failed. *)
Theorem startup_failure_is_reported :
  forall (b : Browser) (box : StatusBox),
    let doc := createFaceDetector b (documentAtLoad box) in
    forVisionTasks b <> Fulfilled \/ createFromOptions b <> Fulfilled \/
    hasGetUserMedia b = false \/ getUserMedia b <> Fulfilled ->
    loopRequested doc = false /\
    canvasSize doc = None /\
    opacity (statusBox doc) = "1"%string /\
    spinnerDisplay (statusBox doc) = "none"%string /\
    In "bg-red-700"%string (classList (statusBox doc)) /\
    ~ In "bg-gray-900"%string (classList (statusBox doc)) /\
    match forVisionTasks b with
    | Rejected message =>
        textContent (statusBox doc) = initializationError message /\
        detectorLoaded doc = false
    | Fulfilled =>
        match createFromOptions b with
        | Rejected message =>
            textContent (statusBox doc) = initializationError message /\
            detectorLoaded doc = false
        | Fulfilled =>
            detectorLoaded doc = true /\
            textContent (statusBox doc)
            = if hasGetUserMedia b
              then "Webcam Error: Please ensure camera permissions are granted."%string
              else "Browser does not support camera access."%string
        end
    end.
Proof.
  intros [[|m1] [|m2] [|] [|m3] v] box doc H; subst doc;
    cbn [forVisionTasks createFromOptions hasGetUserMedia getUserMedia] in H;
    try (exfalso; destruct H as [H|[H|[H|H]]]; congruence);
    unfold createFaceDetector, startWebcam;
    cbn [statusBox withStatus loopRequested canvasSize detectorLoaded
         documentAtLoad forVisionTasks createFromOptions hasGetUserMedia
         getUserMedia loadedmetadata negb];
    (split; [reflexivity|]); (split; [reflexivity|]);
    (split; [reflexivity|]); (split; [reflexivity|]);
    (split; [apply (proj1 (updateStatus_error_classes _ _))|]);
    (split; [apply (proj2 (updateStatus_error_classes _ _))|]);
    split; reflexivity.
Qed.

Lemma startup_failure_is_reported_witness :
  exists doc,
    doc = createFaceDetector cameraDenied (documentAtLoad someBox) /\
    loopRequested doc = false /\
    detectorLoaded doc = true /\
    textContent (statusBox doc)
    = "Webcam Error: Please ensure camera permissions are granted."%string /\
    classList (statusBox doc) = ["status"; "bg-red-700"]%string.
Proof.
  exists (createFaceDetector cameraDenied (documentAtLoad someBox)).
  assert (F : forVisionTasks cameraDenied <> Fulfilled \/
              createFromOptions cameraDenied <> Fulfilled \/
              hasGetUserMedia cameraDenied = false \/
              getUserMedia cameraDenied <> Fulfilled).
  { right. right. right. simpl. discriminate. }
  destruct (startup_failure_is_reported cameraDenied someBox F)
    as (H1 & _ & _ & _ & _ & _ & H2 & H3).
  split; [reflexivity|]. split; [exact H1|]. split; [exact H2|].
  split; [exact H3|]. vm_compute. reflexivity.
Defined.
